(** * eagle-symlink: the incremental reconciliation engine

    A shallow embedding of [src/lib/core.ts] (name generation, plan
    computation, index rebuilding), [src/lib/executors.ts] (plan execution
    against a filesystem) and the [sync] callback of [src/hooks/useSync.tsx],
    followed by the properties of the engine.

    Conventions of the embedding:
    - a JavaScript string is modelled as the [string] of the bytes of its
      UTF-8 text; [slice] counts UTF-16 code units on it, and [toLowerCase]
      and [toUpperCase] are the members of a class [Js.CaseMapping] of which
      the ASCII behaviour is fixed: the properties hold for every such
      mapping, the Unicode one of the engine included;
    - [node:path] comes in its two flavours, [path.posix] and [path.win32]
      (the plugin runs on Windows, its unit tests on either); the properties
      hold for both;
    - a [SyncIndex] (a plain JS object used as a map) is modelled as the list
      of its own properties in the order [Object.keys]/[Object.entries]
      enumerate them;
    - JS [Set<string>] values are modelled as [gset string];
    - [async] code is sequential: every [await] is a state-passing step over
      an abstract filesystem world. *)

From Stdlib Require Import Ascii String NArith.
From stdpp Require Import base option list strings gmap sets.
From stdpp Require Import pretty.

(** ** JavaScript string primitives *)

Module Js.

Fixpoint map_chars (f : ascii → ascii) (s : string) : string :=
  match s with
  | EmptyString => EmptyString
  | String c s' => String (f c) (map_chars f s')
  end.

Definition lower_char (c : ascii) : ascii :=
  let n := nat_of_ascii c in
  if (65 <=? n)%nat && (n <=? 90)%nat then ascii_of_nat (n + 32) else c.

Definition upper_char (c : ascii) : ascii :=
  let n := nat_of_ascii c in
  if (97 <=? n)%nat && (n <=? 122)%nat then ascii_of_nat (n - 32) else c.

Fixpoint has_char (c : ascii) (s : string) : bool :=
  match s with
  | EmptyString => false
  | String c' s' => if Ascii.eqb c c' then true else has_char c s'
  end.

(** Does every character of [s] satisfy [f]? *)
Fixpoint all_chars (f : ascii → bool) (s : string) : bool :=
  match s with
  | EmptyString => true
  | String c s' => f c && all_chars f s'
  end.

Definition is_ascii_char (c : ascii) : bool := (nat_of_ascii c <? 128)%nat.

(** One of the letters [a] to [z]. *)
Definition is_lower_letter (c : ascii) : bool :=
  let n := nat_of_ascii c in (97 <=? n)%nat && (n <=? 122)%nat.

(** The string holds ASCII characters only. *)
Definition is_ascii (s : string) : bool := all_chars is_ascii_char s.

(** The first [n] bytes of [s], and what follows them. *)
Fixpoint split_at (n : nat) (s : string) : string * string :=
  match n, s with
  | S n', String c s' =>
      let '(a, b) := split_at n' s' in (String c a, b)
  | _, _ => (EmptyString, s)
  end.

(** The number of bytes of the UTF-8 sequence that starts with [c]. *)
Definition utf8_width (c : ascii) : nat :=
  let n := nat_of_ascii c in
  if (n <? 192)%nat then 1 else if (n <? 224)%nat then 2
  else if (n <? 240)%nat then 3 else 4.

(** The high surrogate of the character above U+FFFF that the four bytes
    [c b1 b2 b3] encode, written as the three bytes of its generalized
    UTF-8 form. *)
Definition high_surrogate (c : ascii) (bs : string) : string :=
  match bs with
  | String b1 (String b2 _) =>
      let cp_hi :=
        ((N_of_ascii c mod 8) * 64 + N_of_ascii b1 mod 64)%N in
      (* the code point is [cp_hi * 4096 + ...]; its high surrogate is
         [0xD800 + (cp - 0x10000) / 1024] *)
      let top := (cp_hi * 4 + (N_of_ascii b2 mod 64) / 16 - 64)%N in
      String (ascii_of_N 237)
        (String (ascii_of_N (160 + top / 64))
           (String (ascii_of_N (128 + top mod 64)) EmptyString))
  | _ => String c bs
  end.

(** [s.slice(0, n)]: the first [n] UTF-16 code units of [s].  A character
    of the basic plane is one code unit, a character above it is two; when
    the cut falls between the two, the high surrogate alone is kept. *)
Fixpoint slice0 (n : nat) (s : string) : string :=
  match n, s with
  | S n', String c s' =>
      let '(more, rest) := split_at (utf8_width c - 1) s' in
      if (utf8_width c <? 4)%nat then String c more +:+ slice0 n' rest
      else match n' with
           | S n'' => String c more +:+ slice0 n'' rest
           | 0 => high_surrogate c more
           end
  | _, _ => EmptyString
  end.

(** [String.prototype.toLowerCase] and [String.prototype.toUpperCase].
    They follow the Unicode case mappings, of which only the ASCII part is
    written out here: on text that is ASCII throughout they map the letters
    [A-Z] and [a-z] onto each other and leave everything else alone. *)
Class CaseMapping := {
  toLowerCase : string → string;
  toUpperCase : string → string;
  toLowerCase_ascii s :
    is_ascii s = true → toLowerCase s = map_chars lower_char s;
  toUpperCase_ascii s :
    is_ascii s = true → toUpperCase s = map_chars upper_char s;
}.

(** The case mapping that changes the ASCII letters only. *)
#[global] Instance ascii_case : CaseMapping := {|
  toLowerCase := map_chars lower_char;
  toUpperCase := map_chars upper_char;
  toLowerCase_ascii := λ _ _, eq_refl;
  toUpperCase_ascii := λ _ _, eq_refl;
|}.

End Js.

(** ** [node:path]: [join], [basename], [dirname]

    [normalize] works on the segments of a path: on POSIX the separator is
    ['/']; on Windows both ['/'] and ['\'] separate, the result is written
    with ['\'], and a drive ([C:]) or UNC ([\\server\share]) root is
    matched first.  This is [node:path] as the runtime of the plugin has it
    (Node 16 and 18); later releases differ on relative paths that hold a
    colon. *)

Module Path.

(** The two flavours of [node:path]: [path.posix] and [path.win32]. *)
Inductive Platform := Posix | Win32.

Class Flavour := platform : Platform.

Section Flavoured.
Context {pf : Flavour}.

(** [isPosixPathSeparator] on POSIX, [isPathSeparator] on Windows. *)
Definition isPathSeparator (c : ascii) : bool :=
  match platform with
  | Posix => Ascii.eqb c "/"
  | Win32 => Ascii.eqb c "/" || Ascii.eqb c "\"
  end.

(** [path.sep] *)
Definition sep : ascii :=
  match platform with
  | Posix => "/"%char
  | Win32 => "\"%char
  end.

(** The segments between separators; never empty. *)
Fixpoint split (s : string) : list string :=
  match s with
  | EmptyString => [EmptyString]
  | String c s' =>
      if isPathSeparator c then EmptyString :: split s'
      else match split s' with
           | [] => [String c EmptyString]
           | seg :: segs => String c seg :: segs
           end
  end.

(** [segs.join(path.sep)] *)
Fixpoint unsplit (segs : list string) : string :=
  match segs with
  | [] => EmptyString
  | [seg] => seg
  | seg :: segs' => seg +:+ String sep (unsplit segs')
  end.

(** One step of [normalizeString]: the stack of kept segments is held in
    reverse.  Empty and ["."] segments are dropped; [".."] pops the last
    kept segment, unless there is none or it is itself [".."], in which
    case it is kept when [allowAboveRoot] and dropped otherwise. *)
Definition normalize_step (allowAboveRoot : bool)
    (stack : list string) (seg : string) : list string :=
  if decide (seg = "" ∨ seg = ".") then stack
  else if decide (seg = "..") then
    match stack with
    | top :: stack' =>
        if decide (top = "..") then
          (if allowAboveRoot then seg :: stack else stack)
        else stack'
    | [] => if allowAboveRoot then [seg] else []
    end
  else seg :: stack.

Definition normalize_segments (allowAboveRoot : bool)
    (segs : list string) : list string :=
  rev (fold_left (normalize_step allowAboveRoot) segs []).

Fixpoint ends_with_sep (p : string) : bool :=
  match p with
  | EmptyString => false
  | String c EmptyString => isPathSeparator c
  | String _ p' => ends_with_sep p'
  end.

(** [isWindowsDeviceRoot]: a drive letter. *)
Definition isWindowsDeviceRoot (c : ascii) : bool :=
  let n := nat_of_ascii c in
  ((65 <=? n)%nat && (n <=? 90)%nat) || ((97 <=? n)%nat && (n <=? 122)%nat).

(** The drive prefix of a Windows path ([C:]) and what follows it. *)
Definition drive_prefix (p : string) : option (string * string) :=
  match p with
  | String c (String ":" rest) =>
      if isWindowsDeviceRoot c then Some (String c ":", rest) else None
  | _ => None
  end.

Fixpoint drop_empty (segs : list string) : list string :=
  match segs with
  | "" :: segs' => drop_empty segs'
  | _ => segs
  end.

(** What [path.win32.normalize] matches at the start of a path: a UNC
    root and nothing else, or an optional device (a drive, or a UNC root),
    whether the path is absolute, and the segments that are left to
    normalize. *)
Inductive Root :=
| UncOnly (server share : string)
| RootOf (device : option string) (isAbsolute : bool) (rest : list string).

Definition win32_root (segs : list string) : Root :=
  match segs with
  | "" :: "" :: server :: more =>
      (* two separators in front: a UNC root is [\\server\share], with
         something other than separators after the server name *)
      if decide (server = "") then RootOf None true segs
      else match drop_empty more with
           | [] => RootOf None true segs
           | [share] => UncOnly server share
           | share :: rest =>
               RootOf (Some ("\\" +:+ server +:+ "\" +:+ share)) true rest
           end
  | "" :: rest => RootOf None true rest
  | first :: rest =>
      match drive_prefix first with
      | Some (device, after) =>
          match after, rest with
          | "", _ :: _ => RootOf (Some device) true rest
          | _, _ => RootOf (Some device) false (after :: rest)
          end
      | None => RootOf None false segs
      end
  | [] => RootOf None false []
  end.

(** The end of [path.win32.normalize]: the normalized tail, ["."] for an
    empty relative one, with a separator after it when the path ended in
    one. *)
Definition win32_tail (abs : bool) (rest : list string) (trailing : bool)
    : string :=
  let tail := unsplit (normalize_segments (negb abs) rest) in
  let tail := if String.eqb tail "" && negb abs then "." else tail in
  if negb (String.eqb tail "") && trailing then tail +:+ "\" else tail.

Definition win32_render (device : option string) (abs : bool) (tail : string)
    : string :=
  match device with
  | None => if abs then "\" +:+ tail else tail
  | Some device => if abs then device +:+ "\" +:+ tail else device +:+ tail
  end.

(** [path.normalize] *)
Definition normalize (p : string) : string :=
  match p with
  | EmptyString => "."
  | String c _ =>
      match platform with
      | Posix =>
          let abs := isPathSeparator c in
          let kept := normalize_segments (negb abs) (split p) in
          match kept with
          | [] =>
              if abs then "/"
              else if ends_with_sep p then "./" else "."
          | _ =>
              let body :=
                if ends_with_sep p then unsplit kept +:+ "/" else unsplit kept in
              if abs then "/" +:+ body else body
          end
      | Win32 =>
          match win32_root (split p) with
          | UncOnly server share =>
              "\\" +:+ server +:+ "\" +:+ share +:+ "\"
          | RootOf device abs rest =>
              win32_render device abs (win32_tail abs rest (ends_with_sep p))
          end
      end
  end.

Fixpoint drop_separators (p : string) : string :=
  match p with
  | String c p' => if isPathSeparator c then drop_separators p' else p
  | EmptyString => EmptyString
  end.

(** Two separators and then another character: the start of a UNC path,
    which [path.win32.join] leaves as it is. *)
Definition starts_like_unc (p : string) : bool :=
  match p with
  | String c0 (String c1 (String c2 _)) =>
      isPathSeparator c0 && isPathSeparator c1 && negb (isPathSeparator c2)
  | _ => false
  end.

(** Two or more separators in front are replaced by one. *)
Definition single_leading_separator (p : string) : string :=
  match p with
  | String c0 (String c1 _) =>
      if isPathSeparator c0 && isPathSeparator c1
      then String sep (drop_separators p) else p
  | _ => p
  end.

(** [path.join(a, b)]: the non-empty arguments joined by the separator,
    then normalized; ["."] when both are empty. *)
Definition join (a b : string) : string :=
  match a, b with
  | EmptyString, EmptyString => "."
  | _, _ =>
      let firstPart := match a with EmptyString => b | _ => a end in
      let joined :=
        match a, b with
        | EmptyString, _ => b
        | _, EmptyString => a
        | _, _ => a +:+ String sep b
        end in
      match platform with
      | Posix => normalize joined
      | Win32 =>
          normalize (if starts_like_unc firstPart then joined
                     else single_leading_separator joined)
      end
  end.

Fixpoint last_nonempty (segs : list string) (found : string) : string :=
  match segs with
  | [] => found
  | seg :: segs' =>
      last_nonempty segs' (if decide (seg = "") then found else seg)
  end.

(** What [basename] and [dirname] scan: on Windows, the path after its
    drive prefix. *)
Definition after_drive (p : string) : string :=
  match platform with
  | Posix => p
  | Win32 => match drive_prefix p with
             | Some (_, rest) => rest
             | None => p
             end
  end.

(** [path.basename(p)]: trailing separators are ignored, and the result is
    what follows the last remaining separator (on Windows, of the path
    after its drive prefix). *)
Definition basename (p : string) : string :=
  last_nonempty (split (after_drive p)) "".

Fixpoint drop_while_sep (cs : list ascii) : list ascii :=
  match cs with
  | c :: cs' => if isPathSeparator c then drop_while_sep cs' else cs
  | [] => []
  end.

Fixpoint drop_until_sep (cs : list ascii) : option (list ascii) :=
  match cs with
  | c :: cs' => if isPathSeparator c then Some cs' else drop_until_sep cs'
  | [] => None
  end.

Fixpoint span_sep (p : string) : string * string :=
  match p with
  | String c p' =>
      if isPathSeparator c then let '(a, b) := span_sep p' in (String c a, b)
      else (EmptyString, p)
  | EmptyString => (EmptyString, EmptyString)
  end.

Fixpoint span_name (p : string) : string * string :=
  match p with
  | String c p' =>
      if isPathSeparator c then (EmptyString, p)
      else let '(a, b) := span_name p' in (String c a, b)
  | EmptyString => (EmptyString, EmptyString)
  end.

(** The root that [path.win32.dirname] never cuts into: [None] when the
    path is a UNC root and nothing else, otherwise [rootEnd] (if there is a
    root) and the offset at which the scan stops. *)
Definition win32_dirname_root (p : string) : option (option nat * nat) :=
  match p with
  | String c0 (String c1 rest) =>
      if isPathSeparator c0 then
        if isPathSeparator c1 then
          let '(server, r1) := span_name rest in
          let '(seps, r2) := span_sep r1 in
          let '(share, r3) := span_name r2 in
          if negb (String.eqb server "") && negb (String.eqb r1 "")
             && negb (String.eqb r2 "") then
            if String.eqb r3 "" then None
            else
              let j := 2 + String.length server + String.length seps
                       + String.length share in
              Some (Some (j + 1), j + 1)
          else Some (Some 1, 1)
        else Some (Some 1, 1)
      else if isWindowsDeviceRoot c0 && Ascii.eqb c1 ":" then
        match rest with
        | String c2 _ => if isPathSeparator c2 then Some (Some 3, 3)
                         else Some (Some 2, 2)
        | EmptyString => Some (Some 2, 2)
        end
      else Some (None, 0)
  | _ => Some (None, 0)
  end.

(** [path.dirname(p)]: scanning from the end down to the root, trailing
    separators and then the last segment are skipped; the result is what
    precedes the separator found there, or the root (or ["."]) when there
    is none. *)
Definition dirname (p : string) : string :=
  match platform with
  | Posix =>
      match p with
      | EmptyString => "."
      | String c0 rest =>
          let hasRoot := isPathSeparator c0 in
          match drop_until_sep
                  (drop_while_sep (rev (list_ascii_of_string rest))) with
          | None => if hasRoot then "/" else "."
          | Some before =>
              match before with
              | [] => if hasRoot then "//" else String c0 EmptyString
              | _ => String c0 (string_of_list_ascii (rev before))
              end
          end
      end
  | Win32 =>
      match p with
      | EmptyString => "."
      | String c EmptyString => if isPathSeparator c then p else "."
      | _ =>
          match win32_dirname_root p with
          | None => p
          | Some (rootEnd, offset) =>
              let '(root, body) := Js.split_at offset p in
              match drop_until_sep
                      (drop_while_sep (rev (list_ascii_of_string body))) with
              | Some before => root +:+ string_of_list_ascii (rev before)
              | None =>
                  match rootEnd with
                  | Some n => (Js.split_at n p).1
                  | None => "."
                  end
              end
          end
      end
  end.

(** No character of [s] is a path separator. *)
Definition no_separator (s : string) : bool :=
  Js.all_chars (λ c, negb (isPathSeparator c)) s.

(** A single path component that [join] leaves untouched. *)
Definition plain_segment (seg : string) : Prop :=
  no_separator seg = true ∧ seg ≠ "" ∧ seg ≠ "." ∧ seg ≠ "..".

(** The segment is not cut short by a drive prefix. *)
Definition undriven (seg : string) : Prop := after_drive seg = seg.

(** What follows the drive prefix of the segment, if it has one, is itself
    a name. *)
Definition tail_ok (seg : string) : Prop :=
  after_drive seg ≠ "" ∧ after_drive seg ≠ "." ∧ after_drive seg ≠ "..".

(** What precedes the last segment in [unsplit]. *)
Definition before_last (kept : list string) : string :=
  match kept with
  | [] => ""
  | _ => unsplit kept +:+ String sep ""
  end.

(** What can precede a last segment in a normalized path: nothing, a
    prefix that ends with a separator, or (on Windows) a bare drive. *)
Definition pre_shape (pre : string) : Prop :=
  pre = "" ∨ ends_with_sep pre = true
  ∨ (platform = Win32 ∧ drive_prefix pre = Some (pre, "")).

End Flavoured.

(** The examples below run on [path.posix] unless they say otherwise. *)
#[global] Instance posix : Flavour := Posix.

End Path.

(** ** Plain JS objects used as string-to-string maps *)

Module Obj.

(** The own properties of an object, in the order [Object.keys],
    [Object.entries] and [for-in] enumerate them: array-index keys first,
    in ascending numeric order, then the other keys in creation order. *)
Definition t : Type := list (string * string).

Definition digit_of (c : ascii) : option N :=
  let n := N_of_ascii c in
  if ((48 <=? n) && (n <=? 57))%N then Some (n - 48)%N else None.

Fixpoint parse_digits (acc : N) (s : string) : option N :=
  match s with
  | EmptyString => Some acc
  | String c s' =>
      match digit_of c with
      | Some d => parse_digits (acc * 10 + d)%N s'
      | None => None
      end
  end.

(** A property key is an array index when it is the canonical decimal
    form of an integer in [0, 2^32 - 2]. *)
Definition array_index (k : string) : option N :=
  match k with
  | EmptyString => None
  | String c rest =>
      if Ascii.eqb c "0" && negb (String.eqb rest "") then None
      else match parse_digits 0 k with
           | Some n => if (n <? 4294967295)%N then Some n else None
           | None => None
           end
  end.

(** [k in keys(o)] *)
Definition has_key (k : string) (o : t) : bool :=
  existsb (λ e, String.eqb e.1 k) o.

(** [o[k]] for an own property *)
Fixpoint get (k : string) (o : t) : option string :=
  match o with
  | [] => None
  | (k', v) :: o' => if String.eqb k' k then Some v else get k o'
  end.

(** Overwrite the value of an existing property; its position is kept. *)
Fixpoint update (k v : string) (o : t) : t :=
  match o with
  | [] => []
  | (k', v') :: o' =>
      if String.eqb k' k then (k', v) :: o' else (k', v') :: update k v o'
  end.

(** Create an array-index property: it is enumerated before every
    non-index key and before every larger index. *)
Fixpoint place_index (n : N) (k v : string) (o : t) : t :=
  match o with
  | [] => [(k, v)]
  | (k', v') :: o' =>
      match array_index k' with
      | Some n' =>
          if (n' <? n)%N then (k', v') :: place_index n k v o'
          else (k, v) :: o
      | None => (k, v) :: o
      end
  end.

(** A key at which [place_index] stops. *)
Definition stops (n : N) (k : string) : Prop :=
  match array_index k with
  | Some n' => (n' <? n)%N = false
  | None => True
  end.

(** [o[k] = v] with [v] a string.  An own property is overwritten in
    place.  Otherwise the key ["__proto__"] reaches the inherited setter of
    [Object.prototype], which ignores a value that is neither an object nor
    [null]; any other key is created. *)
Definition set (k v : string) (o : t) : t :=
  if has_key k o then update k v o
  else if String.eqb k "__proto__" then o
  else match array_index k with
       | Some n => place_index n k v o
       | None => o ++ [(k, v)]
       end.

(** [delete o[k]] *)
Definition delete (k : string) (o : t) : t :=
  List.filter (λ e, negb (String.eqb e.1 k)) o.

(** [Object.keys(o)] *)
Definition keys (o : t) : list string := map fst o.

(** Keys that behave as ordinary insertion-ordered properties. *)
Definition ordinary_key (k : string) : Prop :=
  array_index k = None ∧ k ≠ "__proto__".

(** [k1] may be enumerated before [k2]. *)
Definition key_le (k1 k2 : string) : Prop :=
  match array_index k1, array_index k2 with
  | Some n1, Some n2 => (n1 ≤ n2)%N
  | Some _, None => True
  | None, Some _ => False
  | None, None => True
  end.

Fixpoint enumeration_order (ks : list string) : Prop :=
  match ks with
  | [] => True
  | k :: ks' => Forall (key_le k) ks' ∧ enumeration_order ks'
  end.

(** What every object satisfies: no key occurs twice, and the array-index
    keys come first, in ascending order. *)
Definition wf (o : t) : Prop :=
  NoDup (keys o) ∧ enumeration_order (keys o).

End Obj.

(** ** [src/lib/types.ts] *)

(** A JS [Error]: what a rejected promise carries. *)
Record JsError := mkError { code : string }.

#[global] Instance JsError_eq_dec : EqDecision JsError.
Proof. solve_decision. Defined.

Inductive SyncMode := EntryDir | EntryFile | Copy.

Inductive DirLinkType := Junction | Dir.

Definition SyncIndex : Type := Obj.t.

Record SyncItem := mkItem {
  id : string;
  name : string;
  ext : string;
  filePath : string;
}.

Inductive SkipReason := MissingFile | SkipError.

Record SkippedItem := mkSkipped {
  skipped_item : SyncItem;
  reason : SkipReason;
  skipped_error : option JsError;
}.

Record SyncPlan := mkPlan {
  toCreate : list (SyncItem * string);
  toRemove : list string;
  plan_skipped : list SkippedItem;
}.

#[global] Instance SyncMode_eq_dec : EqDecision SyncMode.
Proof. solve_decision. Defined.

#[global] Instance SyncItem_eq_dec : EqDecision SyncItem.
Proof. solve_decision. Defined.

(** ** [src/lib/core.ts] *)

(** [INVALID_FILENAME_CHARS]: the characters of the regular expression
    class, the double quote written by its decimal code. *)
Definition INVALID_FILENAME_CHARS : list ascii :=
  ["<"; ">"; ":"; "034"; "/"; "\"; "|"; "?"; "*"]%char.

Definition sanitize_char (c : ascii) : ascii :=
  if existsb (Ascii.eqb c) INVALID_FILENAME_CHARS then "_"%char else c.

Definition sanitizeFilename (name : string) : string :=
  Js.map_chars sanitize_char name.

Section Core.
Context {cm : Js.CaseMapping} {pf : Path.Flavour}.

(** The name an item gets when nothing collides with it. *)
Definition baseNameOf (item : SyncItem) : string :=
  sanitizeFilename (name item) +:+ "." +:+ ext item.

Definition generateTargetPath (item : SyncItem) (targetDir : string)
    (mode : SyncMode) (existingNames : gset string) : string :=
  match mode with
  | EntryDir => Path.join targetDir (id item +:+ ".info")
  | _ =>
      let safeName := sanitizeFilename (name item) in
      let baseName := safeName +:+ "." +:+ ext item in
      let baseNameLower := Js.toLowerCase baseName in
      if bool_decide (baseNameLower ∈ existingNames) then
        let idPart := Js.toUpperCase (Js.slice0 8 (id item)) in
        let collisionName :=
          safeName +:+ " (" +:+ idPart +:+ ")." +:+ ext item in
        Path.join targetDir collisionName
      else Path.join targetDir baseName
  end.

(** First pass of [computeSyncPlan]: the names of the entries that stay. *)
Fixpoint collectExisting (indexedIds : gset string) (currentIndex : SyncIndex)
    (items : list SyncItem) (existingNames : gset string) : gset string :=
  match items with
  | [] => existingNames
  | item :: items' =>
      let existingNames' :=
        if bool_decide (id item ∈ indexedIds) then
          match Obj.get (id item) currentIndex with
          | Some existingPath =>
              {[ Js.toLowerCase (Path.basename existingPath) ]} ∪ existingNames
          | None => existingNames
          end
        else existingNames in
      collectExisting indexedIds currentIndex items' existingNames'
  end.

(** Second pass: the entries to create, threading [existingNames]. *)
Fixpoint planCreations (indexedIds : gset string) (targetDir : string)
    (mode : SyncMode) (items : list SyncItem) (existingNames : gset string)
    : list (SyncItem * string) :=
  match items with
  | [] => []
  | item :: items' =>
      if bool_decide (id item ∈ indexedIds) then
        planCreations indexedIds targetDir mode items' existingNames
      else
        let targetPath := generateTargetPath item targetDir mode existingNames in
        (item, targetPath) ::
        planCreations indexedIds targetDir mode items'
          ({[ Js.toLowerCase (Path.basename targetPath) ]} ∪ existingNames)
  end.

(** Third pass: the paths of the entries whose id is no longer wanted. *)
Fixpoint planRemovals (filteredIds : gset string) (entries : list (string * string))
    : list string :=
  match entries with
  | [] => []
  | (itemId, targetPath) :: entries' =>
      if bool_decide (itemId ∈ filteredIds) then planRemovals filteredIds entries'
      else targetPath :: planRemovals filteredIds entries'
  end.

Definition computeSyncPlan (items : list SyncItem) (currentIndex : SyncIndex)
    (mode : SyncMode) (targetDir : string) : SyncPlan :=
  let indexedIds : gset string := list_to_set (Obj.keys currentIndex) in
  let filteredIds : gset string := list_to_set (map id items) in
  let existingNames := collectExisting indexedIds currentIndex items ∅ in
  {| toCreate := planCreations indexedIds targetDir mode items existingNames;
     toRemove := planRemovals filteredIds currentIndex;
     plan_skipped := [] |}.

End Core.

(** The inner loop shared by [buildNewIndex] and the executors: delete the
    first property whose value is [removedPath], if there is one. *)
Fixpoint firstKeyWithPath (removedPath : string) (entries : list (string * string))
    : option string :=
  match entries with
  | [] => None
  | (itemId, p) :: entries' =>
      if String.eqb p removedPath then Some itemId
      else firstKeyWithPath removedPath entries'
  end.

Definition dropPath (index : SyncIndex) (removedPath : string) : SyncIndex :=
  match firstKeyWithPath removedPath index with
  | Some itemId => Obj.delete itemId index
  | None => index
  end.

Definition dropPaths (removed : list string) (index : SyncIndex) : SyncIndex :=
  fold_left dropPath removed index.

Definition addCreated (index : SyncIndex) (c : SyncItem * string) : SyncIndex :=
  Obj.set (id c.1) c.2 index.

Definition buildNewIndex (currentIndex : SyncIndex) (plan : SyncPlan)
    : SyncIndex :=
  let newIndex := currentIndex in
  let newIndex := dropPaths (toRemove plan) newIndex in
  fold_left addCreated (toCreate plan) newIndex.

(** ** [src/lib/executors.ts] *)

(** How an awaited promise settles. *)
Inductive Settled (A : Type) :=
| Resolved (a : A)
| Rejected (e : JsError).
Arguments Resolved {A} a.
Arguments Rejected {A} e.

(** The platform primitives the executors await, as transitions of an
    abstract world [W]: [fs.lstat], [fs.stat], [fs.rm] (recursive, force),
    [fs.mkdir] (recursive), [fs.copyFile], and the two link creators of
    [eagle-cooltils/win] (both called with [overwrite: true]). *)
Class FileSystem (W : Type) := {
  fs_lstat : string → W → Settled unit * W;
  fs_stat : string → W → Settled unit * W;
  fs_rm : string → W → Settled unit * W;
  fs_mkdir : string → W → Settled unit * W;
  fs_copyFile : string → string → W → Settled unit * W;
  createEntrySymlink :
    string → string → string → DirLinkType → W → Settled unit * W;
  createItemFileSymlink : string → string → W → Settled unit * W;
}.

Record ExecuteOptions := mkOptions {
  libraryPath : string;
  dirLinkType : option DirLinkType;
}.

(** An element of [SyncResult.errors]: [{ item?, path?, error }]. *)
Record SyncError := mkSyncError {
  err_item : option SyncItem;
  err_path : option string;
  err_error : JsError;
}.

Record SyncResult := mkResult {
  created : nat;
  removed : nat;
  skipped : nat;
  newIndex : SyncIndex;
  errors : list SyncError;
}.

Record RemovalResult := mkRemoval {
  rem_removed : nat;
  rem_errors : list (string * JsError);
}.

(** [promise.catch(() => null)] *)
Definition catch_null {A W : Type} (r : Settled A * W) : option A * W :=
  match r with
  | (Resolved a, w) => (Some a, w)
  | (Rejected _, w) => (None, w)
  end.

Section Executors.
Context {cm : Js.CaseMapping} {pf : Path.Flavour} {W : Type} `{FileSystem W}.

Fixpoint removalLoop (toRemove : list string) (result : RemovalResult)
    (w : W) : RemovalResult * W :=
  match toRemove with
  | [] => (result, w)
  | targetPath :: rest =>
      match catch_null (fs_lstat targetPath w) with
      | (Some _, w1) =>
          match fs_rm targetPath w1 with
          | (Resolved _, w2) =>
              removalLoop rest
                {| rem_removed := S (rem_removed result);
                   rem_errors := rem_errors result |} w2
          | (Rejected error, w2) =>
              removalLoop rest
                {| rem_removed := rem_removed result;
                   rem_errors := rem_errors result ++ [(targetPath, error)] |}
                w2
          end
      | (None, w1) => removalLoop rest result w1
      end
  end.

Definition executeRemovals (toRemove : list string) (w : W)
    : RemovalResult * W :=
  removalLoop toRemove {| rem_removed := 0; rem_errors := [] |} w.

Definition pathError (e : string * JsError) : SyncError :=
  {| err_item := None; err_path := Some e.1; err_error := e.2 |}.

Definition itemError (item : SyncItem) (error : JsError) : SyncError :=
  {| err_item := Some item; err_path := None; err_error := error |}.

(** The three updates of [result] inside the creation loops. *)
Definition recordCreated (result : SyncResult) (item : SyncItem)
    (targetPath : string) : SyncResult :=
  {| created := S (created result);
     removed := removed result;
     skipped := skipped result;
     newIndex := Obj.set (id item) targetPath (newIndex result);
     errors := errors result |}.

Definition recordSkipped (result : SyncResult) : SyncResult :=
  {| created := created result;
     removed := removed result;
     skipped := S (skipped result);
     newIndex := newIndex result;
     errors := errors result |}.

Definition recordError (result : SyncResult) (item : SyncItem)
    (error : JsError) : SyncResult :=
  {| created := created result;
     removed := removed result;
     skipped := skipped result;
     newIndex := newIndex result;
     errors := errors result ++ [itemError item error] |}.

(** The state of [result] once the removals have been executed. *)
Definition afterRemovals (plan : SyncPlan) (currentIndex : SyncIndex)
    (removalResult : RemovalResult) : SyncResult :=
  {| created := 0;
     removed := rem_removed removalResult;
     skipped := length (plan_skipped plan);
     newIndex := currentIndex;
     errors := [] ++ map pathError (rem_errors removalResult) |}.

(** The last loop of every executor: forget the removed paths. *)
Definition forgetRemoved (plan : SyncPlan) (result : SyncResult)
    : SyncResult :=
  {| created := created result;
     removed := removed result;
     skipped := skipped result;
     newIndex := dropPaths (toRemove plan) (newIndex result);
     errors := errors result |}.

Fixpoint entryDirLoop (options : ExecuteOptions)
    (cs : list (SyncItem * string)) (result : SyncResult) (w : W)
    : SyncResult * W :=
  match cs with
  | [] => (result, w)
  | (item, targetPath) :: rest =>
      match createEntrySymlink (libraryPath options) (id item) targetPath
              (default Junction (dirLinkType options)) w with
      | (Resolved _, w1) =>
          entryDirLoop options rest (recordCreated result item targetPath) w1
      | (Rejected error, w1) =>
          entryDirLoop options rest (recordError result item error) w1
      end
  end.

Definition executeEntryDir (plan : SyncPlan) (currentIndex : SyncIndex)
    (options : ExecuteOptions) (w : W) : SyncResult * W :=
  let '(removalResult, w1) := executeRemovals (toRemove plan) w in
  let result := afterRemovals plan currentIndex removalResult in
  let '(result, w2) := entryDirLoop options (toCreate plan) result w1 in
  (forgetRemoved plan result, w2).

Fixpoint entryFileLoop (cs : list (SyncItem * string)) (result : SyncResult)
    (w : W) : SyncResult * W :=
  match cs with
  | [] => (result, w)
  | (item, targetPath) :: rest =>
      match catch_null (fs_stat (filePath item) w) with
      | (None, w1) => entryFileLoop rest (recordSkipped result) w1
      | (Some _, w1) =>
          match createItemFileSymlink (filePath item) targetPath w1 with
          | (Resolved _, w2) =>
              entryFileLoop rest (recordCreated result item targetPath) w2
          | (Rejected error, w2) =>
              entryFileLoop rest (recordError result item error) w2
          end
      end
  end.

Definition executeEntryFile (plan : SyncPlan) (currentIndex : SyncIndex)
    (_options : ExecuteOptions) (w : W) : SyncResult * W :=
  let '(removalResult, w1) := executeRemovals (toRemove plan) w in
  let result := afterRemovals plan currentIndex removalResult in
  let '(result, w2) := entryFileLoop (toCreate plan) result w1 in
  (forgetRemoved plan result, w2).

Fixpoint copyLoop (cs : list (SyncItem * string)) (result : SyncResult)
    (w : W) : SyncResult * W :=
  match cs with
  | [] => (result, w)
  | (item, targetPath) :: rest =>
      match catch_null (fs_stat (filePath item) w) with
      | (None, w1) => copyLoop rest (recordSkipped result) w1
      | (Some _, w1) =>
          match fs_mkdir (Path.dirname targetPath) w1 with
          | (Rejected error, w2) =>
              copyLoop rest (recordError result item error) w2
          | (Resolved _, w2) =>
              match fs_copyFile (filePath item) targetPath w2 with
              | (Resolved _, w3) =>
                  copyLoop rest (recordCreated result item targetPath) w3
              | (Rejected error, w3) =>
                  copyLoop rest (recordError result item error) w3
              end
          end
      end
  end.

Definition executeCopy (plan : SyncPlan) (currentIndex : SyncIndex)
    (_options : ExecuteOptions) (w : W) : SyncResult * W :=
  let '(removalResult, w1) := executeRemovals (toRemove plan) w in
  let result := afterRemovals plan currentIndex removalResult in
  let '(result, w2) := copyLoop (toCreate plan) result w1 in
  (forgetRemoved plan result, w2).

(** The [default] branch of the source's [switch] is not reachable for a
    [SyncMode]. *)
Definition executePlan (plan : SyncPlan) (mode : SyncMode)
    (currentIndex : SyncIndex) (options : ExecuteOptions) (w : W)
    : SyncResult * W :=
  match mode with
  | EntryDir => executeEntryDir plan currentIndex options w
  | EntryFile => executeEntryFile plan currentIndex options w
  | Copy => executeCopy plan currentIndex options w
  end.

(** [isPermissionError] *)
Definition isPermissionError (error : JsError) : bool :=
  String.eqb (code error) "EPERM" || String.eqb (code error) "EACCES".

End Executors.

(** ** What one run observes, entry by entry

    The executors only keep counters and an error list.  To state which
    planned entry contributed what, the following functions replay the same
    primitive calls and record the outcome of each entry. *)

Inductive RemovalOutcome :=
| NotFound
| Deleted
| RemoveFailed (e : JsError).

Inductive CreationOutcome :=
| Created
| SourceMissing
| CreateFailed (e : JsError).

#[global] Instance RemovalOutcome_eq_dec : EqDecision RemovalOutcome.
Proof. solve_decision. Defined.

#[global] Instance CreationOutcome_eq_dec : EqDecision CreationOutcome.
Proof. solve_decision. Defined.

Section Observations.
Context {cm : Js.CaseMapping} {pf : Path.Flavour} {W : Type} `{FileSystem W}.

(** One removal: the probe finds nothing, or the deletion settles. *)
Definition observeRemoval (targetPath : string) (w : W)
    : RemovalOutcome * W :=
  match fs_lstat targetPath w with
  | (Rejected _, w1) => (NotFound, w1)
  | (Resolved _, w1) =>
      match fs_rm targetPath w1 with
      | (Resolved _, w2) => (Deleted, w2)
      | (Rejected e, w2) => (RemoveFailed e, w2)
      end
  end.

Fixpoint removalTrace (toRemove : list string) (w : W)
    : list (string * RemovalOutcome) * W :=
  match toRemove with
  | [] => ([], w)
  | targetPath :: rest =>
      let '(o, w1) := observeRemoval targetPath w in
      let '(os, w2) := removalTrace rest w1 in
      ((targetPath, o) :: os, w2)
  end.

(** One creation in the given mode: the source probe finds nothing (file
    modes only), or the creation primitives settle. *)
Definition observeCreation (mode : SyncMode) (options : ExecuteOptions)
    (c : SyncItem * string) (w : W) : CreationOutcome * W :=
  match mode with
  | EntryDir =>
      match createEntrySymlink (libraryPath options) (id c.1) c.2
              (default Junction (dirLinkType options)) w with
      | (Resolved _, w1) => (Created, w1)
      | (Rejected e, w1) => (CreateFailed e, w1)
      end
  | EntryFile =>
      match fs_stat (filePath c.1) w with
      | (Rejected _, w1) => (SourceMissing, w1)
      | (Resolved _, w1) =>
          match createItemFileSymlink (filePath c.1) c.2 w1 with
          | (Resolved _, w2) => (Created, w2)
          | (Rejected e, w2) => (CreateFailed e, w2)
          end
      end
  | Copy =>
      match fs_stat (filePath c.1) w with
      | (Rejected _, w1) => (SourceMissing, w1)
      | (Resolved _, w1) =>
          match fs_mkdir (Path.dirname c.2) w1 with
          | (Rejected e, w2) => (CreateFailed e, w2)
          | (Resolved _, w2) =>
              match fs_copyFile (filePath c.1) c.2 w2 with
              | (Resolved _, w3) => (Created, w3)
              | (Rejected e, w3) => (CreateFailed e, w3)
              end
          end
      end
  end.

Fixpoint creationTrace (mode : SyncMode) (options : ExecuteOptions)
    (cs : list (SyncItem * string)) (w : W)
    : list ((SyncItem * string) * CreationOutcome) * W :=
  match cs with
  | [] => ([], w)
  | c :: rest =>
      let '(o, w1) := observeCreation mode options c w in
      let '(os, w2) := creationTrace mode options rest w1 in
      ((c, o) :: os, w2)
  end.

(** The whole run: removals first, creations in the world they leave. *)
Definition runTrace (plan : SyncPlan) (mode : SyncMode)
    (options : ExecuteOptions) (w : W)
    : list (string * RemovalOutcome) *
      list ((SyncItem * string) * CreationOutcome) :=
  let '(rs, w1) := removalTrace (toRemove plan) w in
  (rs, (creationTrace mode options (toCreate plan) w1).1).

End Observations.

(** The removals that failed, as [errors] elements. *)
Fixpoint removalErrors (rs : list (string * RemovalOutcome)) : list SyncError :=
  match rs with
  | [] => []
  | (p, RemoveFailed e) :: rs' =>
      {| err_item := None; err_path := Some p; err_error := e |}
      :: removalErrors rs'
  | _ :: rs' => removalErrors rs'
  end.

(** The creations that failed, as [errors] elements. *)
Fixpoint creationErrors (cs : list ((SyncItem * string) * CreationOutcome))
    : list SyncError :=
  match cs with
  | [] => []
  | (c, CreateFailed e) :: cs' =>
      {| err_item := Some c.1; err_path := None; err_error := e |}
      :: creationErrors cs'
  | _ :: cs' => creationErrors cs'
  end.

(** The planned entries whose creation succeeded, in order. *)
Fixpoint createdEntries (cs : list ((SyncItem * string) * CreationOutcome))
    : list (SyncItem * string) :=
  match cs with
  | [] => []
  | (c, Created) :: cs' => c :: createdEntries cs'
  | _ :: cs' => createdEntries cs'
  end.

Definition countRemoval (o : RemovalOutcome)
    (rs : list (string * RemovalOutcome)) : nat :=
  length (List.filter (λ r, bool_decide (r.2 = o)) rs).

Definition countCreation (o : CreationOutcome)
    (cs : list ((SyncItem * string) * CreationOutcome)) : nat :=
  length (List.filter (λ c, bool_decide (c.2 = o)) cs).

(** The [errors] elements keyed by an item. *)
Definition itemErrors (es : list SyncError) : list SyncError :=
  List.filter (λ e, bool_decide (is_Some (err_item e))) es.

(** The index entries whose id is still desired. *)
Definition keptEntries (ids : gset string) (index : SyncIndex) : SyncIndex :=
  List.filter (λ e, bool_decide (e.1 ∈ ids)) index.

(** The creation loop an executor runs, by mode. *)
Definition creationLoop {pf : Path.Flavour} {W : Type} `{FileSystem W}
    (mode : SyncMode)
    (options : ExecuteOptions)
    : list (SyncItem * string) → SyncResult → W → SyncResult * W :=
  match mode with
  | EntryDir => entryDirLoop options
  | EntryFile => entryFileLoop
  | Copy => copyLoop
  end.

(** The effect of a sequence of creation outcomes on [result]. *)
Definition applyOutcomes (cs : list ((SyncItem * string) * CreationOutcome))
    (result : SyncResult) : SyncResult :=
  {| created := created result + countCreation Created cs;
     removed := removed result;
     skipped := skipped result + countCreation SourceMissing cs;
     newIndex := fold_left addCreated (createdEntries cs) (newIndex result);
     errors := errors result ++ creationErrors cs |}.

(** ** A small concrete filesystem, to run the executors on examples

    A world is the list of paths that exist and the list of paths on which
    every operation is refused. *)

Record Disk := mkDisk {
  present : list string;
  denied : list string;
}.

Definition ENOENT : JsError := mkError "ENOENT".
Definition EACCES : JsError := mkError "EACCES".
Definition EPERM : JsError := mkError "EPERM".

Definition disk_probe (p : string) (d : Disk) : Settled unit * Disk :=
  if bool_decide (p ∈ denied d) then (Rejected EACCES, d)
  else if bool_decide (p ∈ present d) then (Resolved (), d)
  else (Rejected ENOENT, d).

Definition disk_remove (p : string) (d : Disk) : Settled unit * Disk :=
  if bool_decide (p ∈ denied d) then (Rejected EPERM, d)
  else (Resolved (),
        {| present := List.filter (λ q, negb (String.eqb q p)) (present d);
           denied := denied d |}).

Definition disk_write (p : string) (d : Disk) : Settled unit * Disk :=
  if bool_decide (p ∈ denied d) then (Rejected EPERM, d)
  else (Resolved (), {| present := p :: present d; denied := denied d |}).

Definition disk_copy (src dst : string) (d : Disk) : Settled unit * Disk :=
  if bool_decide (src ∈ present d) then disk_write dst d
  else (Rejected ENOENT, d).

#[global] Instance Disk_fs : FileSystem Disk := {|
  fs_lstat := disk_probe;
  fs_stat := disk_probe;
  fs_rm := disk_remove;
  fs_mkdir := λ _ d, (Resolved (), d);
  fs_copyFile := disk_copy;
  createEntrySymlink := λ _ _ target _, disk_write target;
  createItemFileSymlink := λ _ target, disk_write target;
|}.

(** ** Example data *)

Definition item_x_A : SyncItem := mkItem "AAAAAAAA1111" "x" "png" "/lib/a/x.png".
Definition item_x_B : SyncItem := mkItem "BBBBBBBB2222" "x" "png" "/lib/b/x.png".
Definition item_x_B' : SyncItem := mkItem "BBBBBBBB3333" "x" "png" "/lib/c/x.png".
Definition item_plain : SyncItem := mkItem "a" "n" "png" "/lib/a/n.png".
Definition item_dotted : SyncItem := mkItem "./a" "m" "jpg" "/lib/b/m.jpg".

Definition no_options : ExecuteOptions := mkOptions "/lib" None.

(** Nothing exists yet except the source of [item_x_A]. *)
Definition disk_only_A : Disk := mkDisk ["/lib/a/x.png"] [].

(** Both sources exist. *)
Definition disk_sources : Disk := mkDisk ["/lib/a/x.png"; "/lib/b/x.png"] [].

(** A stale link that may not be touched, and a target that may not be
    written. *)
Definition disk_locked : Disk :=
  mkDisk ["/lib/a/x.png"; "/links/locked.png"]
         ["/links/locked.png"; "/links/x.png"].

(** A plan that removes the very path it creates. *)
Definition plan_create_and_remove : SyncPlan :=
  mkPlan [(item_x_A, "/links/x.png")] ["/links/x.png"] [].

(** A plan that replaces a stale link by a new one. *)
Definition plan_replace : SyncPlan :=
  mkPlan [(item_x_A, "/links/x.png")] ["/links/old.png"] [].

Definition index_old : SyncIndex := [("OLD", "/links/old.png")].

(** Two index entries that share a path; only [KEEP] is still desired. *)
Definition index_shared_path : SyncIndex :=
  [("KEEP", "/links/k.png"); ("DROP", "/links/k.png")].

Definition item_keep : SyncItem := mkItem "KEEP" "k" "png" "/lib/k/k.png".

(** An item whose id is an array index, and an index with a larger one. *)
Definition item_3 : SyncItem := mkItem "3" "x" "png" "/lib/a/x.png".

Definition index_5 : SyncIndex := [("5", "/links/x.png")].

(** The same situation on Windows: the link of item [5] exists, item [3]
    has the same name and is the only desired item. *)
Definition win_item_3 : SyncItem := mkItem "3" "x" "png" "C:\Lib\a\x.png".

Definition win_index_5 : SyncIndex := [("5", "C:\Links\x.png")].

Definition win_disk : Disk := mkDisk ["C:\Lib\a\x.png"; "C:\Links\x.png"] [].

Definition win_options : ExecuteOptions := mkOptions "C:\Lib" None.

(** Two ids that differ only in letter case. *)
Definition item_ab : SyncItem := mkItem "ab" "p" "png" "/lib/ab/p.png".
Definition item_AB : SyncItem := mkItem "AB" "q" "png" "/lib/AB/q.png".

(** The item of [createItem] in [core.test.ts]. *)
Definition createItem (itemId itemName itemExt : string) : SyncItem :=
  mkItem itemId itemName itemExt "C:/Library/images/ABC123DEF456.info/test-image.png".

(** ** [ensureTargetDir] ([src/lib/executors.ts]) *)

(** The [Error] built by [ensureTargetDir]: a message, and the rejection of
    [fs.mkdir] as its [cause].  It is given no [code]. *)
Record TargetDirError := mkTargetDirError {
  message : string;
  cause : JsError;
}.

Definition ensureTargetDir {W : Type} `{FileSystem W} (targetDir : string)
    (w : W) : (TargetDirError + unit) * W :=
  match fs_mkdir targetDir w with
  | (Resolved _, w1) => (inr (), w1)
  | (Rejected error, w1) =>
      (inl {| message := "Failed to create target directory: " +:+ targetDir;
              cause := error |}, w1)
  end.

(** ** [useSync]: the [sync] callback ([src/hooks/useSync.tsx]) *)

(** An item as the host application returns it. *)
Record EagleItem := mkEagleItem {
  eagle_id : string;
  eagle_name : string;
  eagle_ext : string;
  eagle_filePath : string;
  eagle_tags : list string;
  eagle_folders : list string;
  eagle_star : option N;
  eagle_width : N;
  eagle_height : N;
  eagle_size : N;
  eagle_url : string;
  eagle_annotation : string;
  eagle_importedAt : N;
  eagle_modifiedAt : N;
  eagle_isDeleted : bool;
}.

(** A value caught by [catch (err)]: an instance of [Error] with its
    message and, if it has one, its [code]; or anything else. *)
Inductive Thrown :=
| ErrorObject (msg : string) (errorCode : option string)
| NotAnError.

(** [isPermissionError] on a caught value. *)
Definition isPermissionErrorValue (err : Thrown) : bool :=
  match err with
  | ErrorObject _ (Some c) => String.eqb c "EPERM" || String.eqb c "EACCES"
  | _ => false
  end.

(** [config.filter], read as [{ conditions, match } | undefined]; the
    conditions themselves are only looked at by [filterItems]. *)
Record FilterConfig (Condition : Type) := mkFilterConfig {
  conditions : option (list Condition);
  filterMatch : string;
}.
Arguments mkFilterConfig {Condition} _ _.
Arguments conditions {Condition} _.
Arguments filterMatch {Condition} _.

Module Cfg.
(** [PluginConfig] *)
Record t (Condition : Type) := mk {
  active : bool;
  mode : SyncMode;
  targetPath : string;
  filter : option (FilterConfig Condition);
  syncInterval : N;
  syncIndex : SyncIndex;
  lastSyncAt : option N;
  dirLinkType : DirLinkType;
}.
Arguments mk {Condition} _ _ _ _ _ _ _ _.
Arguments active {Condition} _.
Arguments mode {Condition} _.
Arguments targetPath {Condition} _.
Arguments filter {Condition} _.
Arguments syncInterval {Condition} _.
Arguments syncIndex {Condition} _.
Arguments lastSyncAt {Condition} _.
Arguments dirLinkType {Condition} _.
End Cfg.

(** What [sync] uses of its surroundings: the host application
    ([eagle.item.getAll], [eagle.library.path]), [filterItems] of
    [eagle-cooltils], the [onIndexUpdate] callback and the clock. *)
Class Host (Condition W : Type) := {
  eagle_item_getAll : W → (Thrown + list EagleItem) * W;
  eagle_library_path : W → string;
  filterItems : list EagleItem → FilterConfig Condition → list EagleItem;
  onIndexUpdate : SyncIndex → W → (Thrown + unit) * W;
  date_now : W → N;
}.

Inductive SyncStatus := Idle | Syncing | Success | Failed.

Record SyncStats := mkStats {
  stats_created : nat;
  stats_removed : nat;
  stats_skipped : nat;
  stats_total : nat;
  stats_errors : nat;
}.

(** The only dialog [sync] asks for: the warning titled "Permission
    Required". *)
Inductive MessageBox := PermissionRequired.

(** The React state of the hook, and the [isRunningRef] flag. *)
Record HookState := mkHook {
  status : SyncStatus;
  stats : option SyncStats;
  view_lastSyncAt : option N;
  view_error : option string;
  isRunning : bool;
}.

Definition toSyncItem (item : EagleItem) : SyncItem :=
  {| id := eagle_id item; name := eagle_name item; ext := eagle_ext item;
     filePath := eagle_filePath item |}.

Definition permissionDeniedText : string :=
  "Permission denied. Enable Developer Mode in Windows Settings to use symlinks.".

Section UseSync.
Context {cm : Js.CaseMapping} {pf : Path.Flavour}.
Context {Condition W : Type} `{FileSystem W} `{Host Condition W}.

(** The [catch (err)] block. *)
Definition syncCatch (err : Thrown) (st : HookState)
    : HookState * list MessageBox :=
  ({| status := Failed;
      stats := stats st;
      view_lastSyncAt := view_lastSyncAt st;
      view_error := Some match err with
                         | ErrorObject msg _ => msg
                         | NotAnError => "Unknown error"
                         end;
      isRunning := isRunning st |},
   if isPermissionErrorValue err then [PermissionRequired] else []).

(** The items to synchronize among all the items of the library. *)
Definition selectItems (config : Cfg.t Condition) (allItems : list EagleItem)
    : list EagleItem :=
  match Cfg.filter config with
  | Some filterConfig =>
      match conditions filterConfig with
      | Some (_ :: _) => filterItems allItems filterConfig
      | _ => allItems
      end
  | None => allItems
  end.

(** What follows a settled [executePlan] and [onIndexUpdate]. *)
Definition syncReport (result : SyncResult) (now : N) (st : HookState)
    : HookState * list MessageBox :=
  let reported :=
    {| stats_created := created result;
       stats_removed := removed result;
       stats_skipped := skipped result;
       stats_total := length (Obj.keys (newIndex result));
       stats_errors := length (errors result) |} in
  match errors result with
  | [] =>
      ({| status := Success; stats := Some reported;
          view_lastSyncAt := Some now; view_error := view_error st;
          isRunning := isRunning st |}, [])
  | _ :: _ =>
      if existsb (λ e, isPermissionError (err_error e)) (errors result) then
        ({| status := Failed; stats := Some reported;
            view_lastSyncAt := Some now;
            view_error := Some permissionDeniedText;
            isRunning := isRunning st |}, [PermissionRequired])
      else
        ({| status := Failed; stats := Some reported;
            view_lastSyncAt := Some now;
            view_error :=
              Some (pretty (length (errors result)) +:+ " error(s) during sync");
            isRunning := isRunning st |}, [])
  end.

(** The [try] block, with its [catch]. *)
Definition syncTry (config : Cfg.t Condition) (st : HookState) (w : W)
    : (HookState * list MessageBox) * W :=
  match ensureTargetDir (Cfg.targetPath config) w with
  | (inl e, w1) => (syncCatch (ErrorObject (message e) None) st, w1)
  | (inr _, w1) =>
      match eagle_item_getAll w1 with
      | (inl err, w2) => (syncCatch err st, w2)
      | (inr allItems, w2) =>
          let filteredItems := selectItems config allItems in
          let syncItems := map toSyncItem filteredItems in
          let plan :=
            computeSyncPlan syncItems (Cfg.syncIndex config)
              (Cfg.mode config) (Cfg.targetPath config) in
          let '(result, w3) :=
            executePlan plan (Cfg.mode config) (Cfg.syncIndex config)
              {| libraryPath := eagle_library_path w2;
                 dirLinkType := Some (Cfg.dirLinkType config) |} w2 in
          match onIndexUpdate (newIndex result) w3 with
          | (inl err, w4) => (syncCatch err st, w4)
          | (inr _, w4) => (syncReport result (date_now w4) st, w4)
          end
      end
  end.

(** [sync]: the guard, then the [try] block between setting and clearing
    [isRunningRef]. *)
Definition sync (config : option (Cfg.t Condition)) (st : HookState) (w : W)
    : (HookState * list MessageBox) * W :=
  match config with
  | None => ((st, []), w)
  | Some config =>
      if String.eqb (Cfg.targetPath config) "" || isRunning st then
        ((st, []), w)
      else
        let started :=
          {| status := Syncing; stats := stats st;
             view_lastSyncAt := view_lastSyncAt st; view_error := None;
             isRunning := true |} in
        let '((st', dialogs), w') := syncTry config started w in
        (({| status := status st'; stats := stats st';
             view_lastSyncAt := view_lastSyncAt st';
             view_error := view_error st'; isRunning := false |}, dialogs), w')
  end.

End UseSync.

(** ** A small concrete host, to run [sync] on examples

    The disk of the examples above, the items of the library (or none, when
    the host cannot list them), the index last saved, and a clock. *)

Record Desk := mkDesk {
  desk_disk : Disk;
  desk_items : option (list EagleItem);
  desk_saved : option SyncIndex;
  desk_save_fails : bool;
  desk_clock : N;
}.

Definition on_disk {A : Type} (op : Disk → A * Disk) (d : Desk) : A * Desk :=
  let '(a, disk) := op (desk_disk d) in
  (a, {| desk_disk := disk; desk_items := desk_items d;
         desk_saved := desk_saved d; desk_save_fails := desk_save_fails d;
         desk_clock := desk_clock d |}).

#[global] Instance Desk_fs : FileSystem Desk := {|
  fs_lstat := λ p, on_disk (disk_probe p);
  fs_stat := λ p, on_disk (disk_probe p);
  fs_rm := λ p, on_disk (disk_remove p);
  fs_mkdir := λ p, on_disk (disk_write p);
  fs_copyFile := λ src dst, on_disk (disk_copy src dst);
  createEntrySymlink := λ _ _ target _, on_disk (disk_write target);
  createItemFileSymlink := λ _ target, on_disk (disk_write target);
|}.

#[global] Instance Desk_host : Host unit Desk := {|
  eagle_item_getAll := λ d,
    match desk_items d with
    | Some items => (inr items, d)
    | None => (inl (ErrorObject "library is not available" None), d)
    end;
  eagle_library_path := λ _, "/lib";
  filterItems := λ items _, List.filter (λ item, negb (eagle_isDeleted item)) items;
  onIndexUpdate := λ index d,
    if desk_save_fails d then (inl (ErrorObject "cannot save" (Some "EACCES")), d)
    else (inr (), {| desk_disk := desk_disk d; desk_items := desk_items d;
                     desk_saved := Some index;
                     desk_save_fails := desk_save_fails d;
                     desk_clock := desk_clock d |});
  date_now := desk_clock;
|}.

Definition eagle_x_A : EagleItem :=
  mkEagleItem "AAAAAAAA1111" "x" "png" "/lib/a/x.png" [] [] None 0 0 0 "" "" 0 0 false.

Definition eagle_x_B : EagleItem :=
  mkEagleItem "BBBBBBBB2222" "x" "png" "/lib/b/x.png" [] [] None 0 0 0 "" "" 0 0 false.

Definition config_links : Cfg.t unit :=
  Cfg.mk true EntryFile "/links" None 180000 [] None Junction.

Definition hook_idle : HookState := mkHook Idle None None None false.

(** Only the source of [eagle_x_A] exists; saving works. *)
Definition desk_ok : Desk :=
  mkDesk disk_only_A (Some [eagle_x_A; eagle_x_B]) None false 1000.

(** The same, but the index cannot be saved. *)
Definition desk_no_save : Desk :=
  mkDesk disk_only_A (Some [eagle_x_A; eagle_x_B]) None true 1000.

(** The target directory may not be created. *)
Definition desk_no_target : Desk :=
  mkDesk (mkDisk ["/lib/a/x.png"] ["/links"])
         (Some [eagle_x_A; eagle_x_B]) None false 1000.

(** ** Names in use while planning *)

Section Names.
Context {cm : Js.CaseMapping} {pf : Path.Flavour}.

(** The lower-cased final component of a path, as [computeSyncPlan] records
    it in [existingNames]. *)
Definition nameInUse (targetPath : string) : string :=
  Js.toLowerCase (Path.basename targetPath).

(** The names of the index entries of the desired items. *)
Definition keptNames (items : list SyncItem) (currentIndex : SyncIndex)
    : gset string :=
  list_to_set
    (omap (λ item, nameInUse <$> Obj.get (id item) currentIndex) items).

(** The names of planned entries. *)
Definition plannedNames (cs : list (SyncItem * string)) : gset string :=
  list_to_set (map (λ c, nameInUse c.2) cs).

(** The id-suffixed name of an item. *)
Definition suffixedNameOf (item : SyncItem) : string :=
  sanitizeFilename (name item) +:+ " (" +:+
  Js.toUpperCase (Js.slice0 8 (id item)) +:+ ")." +:+ ext item.

End Names.

Definition item_slash : SyncItem :=
  mkItem "CCCCCCCC4444" "a/../b:c\d" "png" "/lib/c/b.png".

Definition index_two : SyncIndex :=
  [("AAAAAAAA1111", "/links/x.png"); ("OLD", "/links/old.png")].

(** * Properties *)

#[local] Arguments Ascii.eqb : simpl never.
#[local] Arguments Path.drive_prefix : simpl never.
#[local] Set Warnings "-clear-no-such-hyp".

(** ** The unit tests of [core.test.ts], replayed on the embedding *)

Example path_examples :
  Path.join "/links" "x.png" = "/links/x.png"
  ∧ Path.join "/links/" "./a/../b.info" = "/links/b.info"
  ∧ Path.join "a/b" "../../../c" = "../c"
  ∧ Path.join "" "x" = "x"
  ∧ Path.basename "/a/b/c.png//" = "c.png"
  ∧ Path.dirname "/a/b/c.png" = "/a/b"
  ∧ Path.dirname "/a" = "/"
  ∧ Path.dirname "c.png" = ".".
Proof. repeat split; reflexivity. Qed.

Example path_examples_win32 :
  Path.join (pf := Path.Win32) "C:\Links" "x.png" = "C:\Links\x.png"
  ∧ Path.join (pf := Path.Win32) "C:/Links/" "./a/../b.info"
    = "C:\Links\b.info"
  ∧ Path.join (pf := Path.Win32) "C:" "Links" = "C:\Links"
  ∧ Path.join (pf := Path.Win32) "C:." "x" = "C:x"
  ∧ Path.join (pf := Path.Win32) "" "C:x" = "C:x"
  ∧ Path.join (pf := Path.Win32) "//server" "share" = "\\server\share\"
  ∧ Path.join (pf := Path.Win32) "a\b" "..\..\..\c" = "..\c"
  ∧ Path.basename (pf := Path.Win32) "C:\a\b\c.png\\" = "c.png"
  ∧ Path.basename (pf := Path.Win32) "C:c.png" = "c.png"
  ∧ Path.dirname (pf := Path.Win32) "C:\a\b\c.png" = "C:\a\b"
  ∧ Path.dirname (pf := Path.Win32) "C:\a" = "C:\"
  ∧ Path.dirname (pf := Path.Win32) "C:x" = "C:"
  ∧ Path.dirname (pf := Path.Win32) "\\server\share\x" = "\\server\share\"
  ∧ Path.dirname (pf := Path.Win32) "c.png" = ".".
Proof. repeat split; reflexivity. Qed.

(** [slice(0, 8)] counts UTF-16 code units: a two-byte character is one
    unit, a character above the basic plane is two, and a cut between the
    two leaves the high surrogate. *)
Example slice_examples :
  Js.slice0 8 "ABC123DEF456" = "ABC123DE"
  ∧ Js.slice0 8 "ab" = "ab"
  ∧ Js.slice0 8 "éééé/xyz!" = "éééé/xyz"
  ∧ Js.slice0 9 "abcdefg😀h" = "abcdefg😀"
  ∧ Js.slice0 8 "abcdefg😀h"
    = "abcdefg" +:+ String (ascii_of_nat 237)
                      (String (ascii_of_nat 160)
                         (String (ascii_of_nat 189) "")).
Proof. repeat split; reflexivity. Qed.

Example test_sanitize_multiple :
  sanitizeFilename "a<b>c:d/f\g|h?i*j" = "a_b_c_d_f_g_h_i_j"
  ∧ sanitizeFilename "photo_2024" = "photo_2024".
Proof. split; reflexivity. Qed.

Example test_entry_dir_ignores_names :
  generateTargetPath (createItem "ITEM123456" "test-image" "png") "C:/Links"
    EntryDir {[ "item123456.info" ]}
  = "C:/Links/ITEM123456.info".
Proof. reflexivity. Qed.

Example test_entry_file_sanitizes :
  generateTargetPath (createItem "ABC123DEF456" "photo<2024>" "png") "C:/Links"
    EntryFile ∅
  = "C:/Links/photo_2024_.png".
Proof. by vm_compute. Qed.

Example test_entry_file_collision_ignores_case :
  generateTargetPath (createItem "ABC123DEF456" "Photo" "PNG") "C:/Links"
    EntryFile {[ "photo.png" ]}
  = "C:/Links/Photo (ABC123DE).PNG".
Proof. by vm_compute. Qed.

Example test_copy_collision :
  generateTargetPath (createItem "XYZ789ABC123" "document" "pdf") "C:/Links"
    Copy {[ "document.pdf" ]}
  = "C:/Links/document (XYZ789AB).pdf".
Proof. by vm_compute. Qed.

(** The same tests where the plugin runs: on Windows. *)
Example test_generate_on_windows :
  generateTargetPath (pf := Path.Win32)
    (createItem "ITEM123456" "test-image" "png") "C:\Links" EntryDir
    {[ "item123456.info" ]}
  = "C:\Links\ITEM123456.info"
  ∧ generateTargetPath (pf := Path.Win32)
      (createItem "ABC123DEF456" "photo<2024>" "png") "C:\Links" EntryFile ∅
    = "C:\Links\photo_2024_.png"
  ∧ generateTargetPath (pf := Path.Win32)
      (createItem "abc123def456" "Photo" "PNG") "C:\Links" EntryFile
      {[ "photo.png" ]}
    = "C:\Links\Photo (ABC123DE).PNG".
Proof. by vm_compute. Qed.

Example test_plan_mixed :
  computeSyncPlan
    [createItem "ITEM1" "photo1" "jpg"; createItem "ITEM3" "photo3" "gif"]
    [("ITEM1", "C:/Links/photo1.jpg"); ("ITEM2", "C:/Links/photo2.png")]
    EntryFile "C:/Links"
  = mkPlan [(createItem "ITEM3" "photo3" "gif", "C:/Links/photo3.gif")]
           ["C:/Links/photo2.png"] [].
Proof. by vm_compute. Qed.

Example test_plan_collision_with_synced :
  toCreate (computeSyncPlan
              [createItem "ITEM1" "photo" "jpg"; createItem "ITEM2" "photo" "jpg"]
              [("ITEM1", "C:/Links/photo.jpg")] EntryFile "C:/Links")
  = [(createItem "ITEM2" "photo" "jpg", "C:/Links/photo (ITEM2).jpg")].
Proof. by vm_compute. Qed.

Example test_plan_collision_between_new :
  map snd (toCreate (computeSyncPlan
                       [createItem "ITEM1" "photo" "jpg";
                        createItem "ITEM2" "photo" "jpg"]
                       [] EntryFile "C:/Links"))
  = ["C:/Links/photo.jpg"; "C:/Links/photo (ITEM2).jpg"].
Proof. by vm_compute. Qed.

Example test_plan_entry_dir :
  map snd (toCreate (computeSyncPlan
                       [createItem "ITEM1" "test-image" "png";
                        createItem "ITEM2" "test-image" "png"]
                       [] EntryDir "C:/Links"))
  = ["C:/Links/ITEM1.info"; "C:/Links/ITEM2.info"].
Proof. by vm_compute. Qed.

Example test_buildNewIndex_mixed :
  buildNewIndex
    [("ITEM1", "C:/Links/photo1.jpg"); ("ITEM2", "C:/Links/photo2.png")]
    (mkPlan [(createItem "ITEM3" "test-image" "png", "C:/Links/photo3.gif")]
            ["C:/Links/photo2.png"] [])
  = [("ITEM1", "C:/Links/photo1.jpg"); ("ITEM3", "C:/Links/photo3.gif")].
Proof. by vm_compute. Qed.


(** ** [node:path]: joining a plain segment

    A path that is joined from a directory and a plain segment has the
    shape [pre ++ segment ++ suf], where [pre] and [suf] depend on the
    directory only; hence [join] is injective in the segment and [basename]
    gives the segment back. *)

Section PathFacts.
Import Path.
Context {pf : Flavour}.

Lemma string_app_cons (x : ascii) (a b : string) :
  String x a +:+ b = String x (a +:+ b).
Proof. reflexivity. Qed.

Lemma string_app_nil_l (a : string) : "" +:+ a = a.
Proof. reflexivity. Qed.

Lemma string_app_assoc (a b c : string) : (a +:+ b) +:+ c = a +:+ (b +:+ c).
Proof.
  induction a as [|x a IH]; [done|]. by rewrite !string_app_cons, IH.
Qed.

Lemma string_app_nil_r (a : string) : a +:+ "" = a.
Proof. induction a as [|x a IH]; [done|]. by rewrite string_app_cons, IH. Qed.

Lemma string_app_length (a b : string) :
  String.length (a +:+ b) = String.length a + String.length b.
Proof.
  induction a as [|x a IH]; [done|]. rewrite string_app_cons. simpl.
  by rewrite IH.
Qed.

Lemma string_app_inv_tail (a b c : string) : a +:+ c = b +:+ c → a = b.
Proof.
  revert b. induction a as [|x a IH]; intros [|y b] Heq; [done|..].
  - apply (f_equal String.length) in Heq.
    rewrite !string_app_length in Heq. simpl in Heq. lia.
  - apply (f_equal String.length) in Heq.
    rewrite !string_app_length in Heq. simpl in Heq. lia.
  - rewrite !string_app_cons in Heq. injection Heq as -> Heq.
    f_equal. by apply IH.
Qed.

Lemma split_nonempty s : ∃ seg segs, split s = seg :: segs.
Proof.
  destruct s as [|c s]; simpl; [by eauto|].
  destruct (isPathSeparator c); [by eauto|].
  destruct (split s); eauto.
Qed.

Lemma split_app_sep a c b :
  isPathSeparator c = true → split (a +:+ String c b) = split a ++ split b.
Proof.
  intros Hc. induction a as [|c' a IH]; simpl; [by rewrite Hc|].
  destruct (isPathSeparator c'); [by rewrite IH|].
  rewrite IH. destruct (split_nonempty a) as (seg & segs & ->). done.
Qed.

Lemma split_plain seg : no_separator seg = true → split seg = [seg].
Proof.
  induction seg as [|c seg IH]; simpl; [done|].
  unfold no_separator. simpl. destruct (isPathSeparator c); [done|].
  intros Hs. by rewrite IH.
Qed.

Lemma no_separator_app a b :
  no_separator (a +:+ b) = no_separator a && no_separator b.
Proof.
  unfold no_separator. induction a as [|c a IH]; [done|]. simpl.
  by rewrite IH, andb_assoc.
Qed.

Lemma isPathSeparator_sep : isPathSeparator sep = true.
Proof. unfold isPathSeparator, sep. by destruct platform. Qed.

Lemma ends_with_sep_app_plain a c s :
  s ≠ "" → no_separator s = true → ends_with_sep (a +:+ String c s) = false.
Proof.
  intros Hne Hs. induction a as [|c' a IH]; simpl.
  - destruct s as [|c1 s]; [done|]. clear Hne. revert c1 Hs.
    induction s as [|c2 s IHs]; intros c1 Hs.
    + unfold no_separator in Hs. simpl in *.
      by destruct (isPathSeparator c1).
    + apply IHs. unfold no_separator in *. simpl in *.
      by destruct (isPathSeparator c1).
  - destruct (a +:+ String c s) eqn:Ha; [by destruct a|]. done.
Qed.

Lemma ends_with_sep_plain s :
  no_separator s = true → ends_with_sep s = false.
Proof.
  induction s as [|c s IH]; [done|]. unfold no_separator in *. simpl.
  destruct (isPathSeparator c) eqn:Hc; [done|]. simpl. intros Hs.
  destruct s; [done|]. by apply IH.
Qed.

Lemma normalize_segments_snoc allow segs seg :
  plain_segment seg →
  normalize_segments allow (segs ++ [seg])
  = normalize_segments allow segs ++ [seg].
Proof.
  intros (_ & Hne & Hdot & Hdots). unfold normalize_segments.
  rewrite fold_left_app. simpl. unfold normalize_step at 1.
  rewrite decide_False by (intros [?|?]; done).
  by rewrite decide_False.
Qed.

Lemma unsplit_snoc segs seg :
  unsplit (segs ++ [seg])
  = match segs with
    | [] => seg
    | _ => unsplit segs +:+ String sep seg
    end.
Proof.
  induction segs as [|s1 segs IH]; [done|].
  destruct segs as [|s2 segs]; [done|].
  change (unsplit ((s1 :: s2 :: segs) ++ [seg]))
    with (s1 +:+ String sep (unsplit ((s2 :: segs) ++ [seg]))).
  rewrite IH. change (unsplit (s1 :: s2 :: segs))
    with (s1 +:+ String sep (unsplit (s2 :: segs))).
  by rewrite !string_app_assoc.
Qed.

Lemma last_nonempty_snoc segs seg found :
  seg ≠ "" → last_nonempty (segs ++ [seg]) found = seg.
Proof.
  revert found. induction segs as [|s segs IH]; intros found Hne; simpl.
  - by rewrite decide_False.
  - by apply IH.
Qed.

Lemma last_nonempty_snoc_empty segs seg found :
  seg ≠ "" → last_nonempty (segs ++ [seg; ""]) found = seg.
Proof.
  revert found. induction segs as [|s segs IH]; intros found Hne; simpl.
  - by rewrite decide_False.
  - by apply IH.
Qed.

Lemma unsplit_snoc_before kept seg :
  unsplit (kept ++ [seg]) = before_last kept +:+ seg.
Proof.
  rewrite unsplit_snoc. destruct kept; [done|].
  unfold before_last. by rewrite string_app_assoc.
Qed.

Lemma ends_with_sep_snoc a c :
  isPathSeparator c = true → ends_with_sep (a +:+ String c "") = true.
Proof.
  intros Hc. induction a as [|c' a IH]; [done|].
  rewrite string_app_cons. simpl.
  destruct (a +:+ String c "") eqn:Ha; [by destruct a|]. done.
Qed.

Lemma ends_with_sep_app a b :
  b ≠ "" → ends_with_sep (a +:+ b) = ends_with_sep b.
Proof.
  intros Hb. induction a as [|c' a IH]; [done|].
  rewrite string_app_cons. simpl.
  destruct (a +:+ b) eqn:Ha; [by destruct a, b|]. done.
Qed.

Lemma pre_shape_before_last a kept :
  pre_shape a → pre_shape (a +:+ before_last kept).
Proof.
  intros Ha. destruct kept as [|k kept]; [by rewrite string_app_nil_r|].
  right; left. unfold before_last. rewrite ends_with_sep_app.
  - apply ends_with_sep_snoc, isPathSeparator_sep.
  - by destruct (unsplit (k :: kept)).
Qed.

Lemma normalize_snoc_posix x c :
  platform = Posix → isPathSeparator c = true →
  ∃ pre, pre_shape pre
    ∧ ∀ s, plain_segment s → normalize (x +:+ String c s) = pre +:+ s.
Proof.
  intros Hpf Hc.
  set (abs := match x with "" => true | String c0 _ => isPathSeparator c0 end).
  set (kept := normalize_segments (negb abs) (split x)).
  exists ((if abs then "/" else "") +:+ before_last kept). split.
  - apply pre_shape_before_last. destruct abs; [right; left|by left].
    unfold ends_with_sep, isPathSeparator. by rewrite Hpf.
  - intros s Hs. pose proof Hs as (Hsep & Hne & _). unfold normalize.
    destruct (x +:+ String c s) as [|c0 p'] eqn:Hp; [by destruct x|].
    rewrite Hpf. cbv zeta.
    assert (isPathSeparator c0 = abs) as ->.
    { destruct x as [|c1 x]; rewrite ?string_app_cons in Hp; simpl in Hp;
        injection Hp as -> _; [exact Hc|done]. }
    rewrite <- Hp, (split_app_sep _ _ _ Hc), (split_plain s Hsep).
    rewrite (normalize_segments_snoc _ _ _ Hs). fold kept.
    rewrite (ends_with_sep_app_plain _ _ _ Hne Hsep).
    destruct (kept ++ [s]) as [|k0 ks] eqn:Hk; [by destruct kept|].
    rewrite <- Hk, unsplit_snoc_before.
    destruct abs; by rewrite ?string_app_assoc.
Qed.

Lemma drop_empty_snoc more s :
  s ≠ "" →
  drop_empty (more ++ [s])
  = match drop_empty more with
    | [] => [s]
    | l => l ++ [s]
    end.
Proof.
  intros Hs. induction more as [|m more IH]; simpl.
  - by destruct s.
  - destruct m; [exact IH|done].
Qed.

Lemma win32_tail_snoc abs rest s :
  plain_segment s →
  win32_tail abs (rest ++ [s]) false
  = before_last (normalize_segments (negb abs) rest) +:+ s.
Proof.
  intros Hs. pose proof Hs as (_ & Hne & _). unfold win32_tail.
  rewrite (normalize_segments_snoc _ _ _ Hs), unsplit_snoc_before.
  assert (String.eqb (before_last (normalize_segments (negb abs) rest) +:+ s) ""
          = false) as ->.
  { apply String.eqb_neq.
    destruct (before_last _); [done|by rewrite string_app_cons]. }
  by rewrite andb_false_r.
Qed.

Lemma drive_prefix_device p device after :
  drive_prefix p = Some (device, after) →
  p = device +:+ after ∧ drive_prefix device = Some (device, "").
Proof.
  unfold drive_prefix. destruct p as [|c [|c1 p]]; try done.
  destruct (decide (c1 = ":"%char)) as [->|Hne].
  - destruct (isWindowsDeviceRoot c) eqn:Hc; [|done].
    intros [= <- <-]. by rewrite Hc.
  - destruct c1 as [[] [] [] [] [] [] [] []]; done.
Qed.

(** What the root matcher finds in front of a last plain segment does not
    depend on that segment. *)
Lemma win32_root_snoc (L : list string) :
  L ≠ [] →
  (∃ server, ∀ s, plain_segment s → win32_root (L ++ [s]) = UncOnly server s)
  ∨ (∃ device abs rest,
       (abs = false → ∀ d, device = Some d → drive_prefix d = Some (d, ""))
       ∧ ∀ s, plain_segment s →
           win32_root (L ++ [s]) = RootOf device abs (rest ++ [s])).
Proof.
  intros HL. destruct L as [|first rest]; [done|]. clear HL.
  destruct first as [|c0 first].
  - (* the path starts with a separator *)
    destruct rest as [|r1 rest2].
    { right. exists None, true, []. split; [done|].
      intros s (_ & Hne & _). by destruct s. }
    destruct r1 as [|c1 r1].
    + destruct rest2 as [|server more0].
      { right. exists None, true, [""; ""]. split; [done|].
        intros s (_ & Hne & _). simpl. by rewrite decide_False. }
      destruct (decide (server = "")) as [->|Hserver].
      { right. exists None, true, ("" :: "" :: "" :: more0). split; [done|].
        intros s _. done. }
      destruct (drop_empty more0) as [|share rest3] eqn:Hdrop.
      * left. exists server. intros s (_ & Hne & _). simpl.
        rewrite decide_False by done.
        by rewrite (drop_empty_snoc _ _ Hne), Hdrop.
      * right.
        exists (Some ("\\" +:+ server +:+ "\" +:+ share)), true, rest3.
        split; [done|]. intros s (_ & Hne & _). simpl.
        rewrite decide_False by done.
        rewrite (drop_empty_snoc _ _ Hne), Hdrop. simpl.
        by destruct rest3.
    + right. exists None, true, (String c1 r1 :: rest2). split; [done|].
      intros s _. done.
  - destruct (drive_prefix (String c0 first)) as [[device after]|] eqn:Hdrive.
    + apply drive_prefix_device in Hdrive as Hdev. destruct Hdev as [_ Hdev].
      destruct after as [|a0 after].
      * right. exists (Some device), true, rest. split; [done|].
        intros s _. simpl. rewrite Hdrive. by destruct rest.
      * right. exists (Some device), false, (String a0 after :: rest).
        split; [by intros _ d [= <-]|].
        intros s _. simpl. by rewrite Hdrive.
    + right. exists None, false, (String c0 first :: rest). split; [done|].
      intros s _. simpl. by rewrite Hdrive.
Qed.

Lemma normalize_snoc_win32 x c :
  platform = Win32 → isPathSeparator c = true →
  ∃ pre suf, pre_shape pre ∧ (suf = "" ∨ suf = String sep "")
    ∧ ∀ s, plain_segment s →
        normalize (x +:+ String c s) = pre +:+ s +:+ suf.
Proof.
  intros Hpf Hc.
  assert (∀ a, ends_with_sep (a +:+ "\") = true) as Hends.
  { intros a. apply ends_with_sep_snoc. unfold isPathSeparator.
    by rewrite Hpf. }
  assert (∀ s, plain_segment s →
               normalize (x +:+ String c s)
               = match win32_root (split x ++ [s]) with
                 | UncOnly server share =>
                     "\\" +:+ server +:+ "\" +:+ share +:+ "\"
                 | RootOf device abs rest =>
                     win32_render device abs (win32_tail abs rest false)
                 end) as Hnorm.
  { intros s (Hsep & Hne & _). unfold normalize.
    destruct (x +:+ String c s) as [|c0 p'] eqn:Hp; [by destruct x|].
    rewrite <- Hp, Hpf, (split_app_sep _ _ _ Hc), (split_plain s Hsep).
    by rewrite (ends_with_sep_app_plain _ _ _ Hne Hsep). }
  destruct (win32_root_snoc (split x))
    as [[server Hroot]|(device & abs & rest & Hdev & Hroot)].
  { by destruct (split_nonempty x) as (seg & segs & ->). }
  - exists (("\\" +:+ server) +:+ "\"), "\". split; [right; left; apply Hends|].
    split; [right; unfold sep; by rewrite Hpf|].
    intros s Hs. rewrite (Hnorm s Hs), (Hroot s Hs).
    by rewrite !string_app_assoc.
  - set (root := match device with
                 | None => if abs then "\" else ""
                 | Some d => if abs then d +:+ "\" else d
                 end).
    exists (root +:+ before_last (normalize_segments (negb abs) rest)), "".
    split; [|split; [by left|]].
    + apply pre_shape_before_last. unfold root.
      destruct device as [d|], abs; try (by left).
      * right; left. apply Hends.
      * right; right. split; [done|by apply Hdev].
      * right; left. apply (Hends "").
    + intros s Hs. rewrite (Hnorm s Hs), (Hroot s Hs), (win32_tail_snoc _ _ _ Hs).
      rewrite string_app_nil_r. unfold win32_render, root.
      destruct device as [d|], abs; by rewrite ?string_app_assoc.
Qed.

(** The shape of a normalized path whose last segment is plain. *)
Lemma normalize_snoc_shape x c :
  isPathSeparator c = true →
  ∃ pre suf, pre_shape pre ∧ (suf = "" ∨ suf = String sep "")
    ∧ ∀ s, plain_segment s →
        normalize (x +:+ String c s) = pre +:+ s +:+ suf.
Proof.
  intros Hc. destruct platform eqn:Hpf.
  - destruct (normalize_snoc_posix x c Hpf Hc) as (pre & Hpre & Hnorm).
    exists pre, "". split; [done|]. split; [by left|].
    intros s Hs. by rewrite string_app_nil_r, Hnorm.
  - by apply normalize_snoc_win32.
Qed.

Lemma undriven_tail_ok seg : plain_segment seg → undriven seg → tail_ok seg.
Proof. intros (_ & ? & ? & ?) Hu. unfold tail_ok. by rewrite Hu. Qed.

Lemma plain_head s :
  plain_segment s → ∃ c s', s = String c s' ∧ isPathSeparator c = false.
Proof.
  intros (Hsep & Hne & _). destruct s as [|c s']; [done|].
  exists c, s'. split; [done|]. unfold no_separator in Hsep. simpl in Hsep.
  by destruct (isPathSeparator c).
Qed.

Lemma normalize_plain s : plain_segment s → tail_ok s → normalize s = s.
Proof.
  intros Hs Htail. pose proof Hs as (Hsep & Hne & Hdot & Hdots).
  destruct (plain_head s Hs) as (c & s' & -> & Hc).
  assert (∀ allow seg, seg ≠ "" → seg ≠ "." → seg ≠ ".." →
          normalize_segments allow [seg] = [seg]) as Hone.
  { intros allow seg ???. unfold normalize_segments. simpl.
    unfold normalize_step. rewrite decide_False by (intros [?|?]; done).
    by rewrite decide_False. }
  unfold normalize. rewrite (split_plain _ Hsep), (ends_with_sep_plain _ Hsep).
  destruct platform eqn:Hpf.
  - rewrite Hc. simpl negb. by rewrite Hone.
  - unfold tail_ok, after_drive in Htail. rewrite Hpf in Htail.
    cbn [win32_root].
    destruct (drive_prefix (String c s')) as [[device after]|] eqn:Hdrive.
    + destruct Htail as (Ha & Hadot & Hadots).
      apply drive_prefix_device in Hdrive as [Heq _].
      destruct after as [|a0 after]; [done|].
      unfold win32_tail, win32_render. simpl negb.
      rewrite Hone by done. simpl unsplit. by rewrite andb_false_r.
    + unfold win32_tail, win32_render. simpl negb.
      rewrite Hone by done. simpl unsplit. by rewrite andb_false_r.
Qed.

Lemma drop_separators_app dir c s :
  isPathSeparator c = true → plain_segment s →
  drop_separators (dir +:+ String c s)
  = if Js.all_chars isPathSeparator dir then s
    else drop_separators dir +:+ String c s.
Proof.
  intros Hc Hs. destruct (plain_head s Hs) as (c0 & s' & -> & Hc0).
  induction dir as [|d dir IH].
  - simpl. by rewrite Hc, Hc0.
  - rewrite string_app_cons. simpl.
    destruct (isPathSeparator d); [exact IH|done].
Qed.

(** Before normalizing, [join] puts the last argument after a separator,
    behind something that depends on the first argument only. *)
Lemma join_unfold dir :
  dir ≠ "" →
  ∃ x, ∀ s, plain_segment s → join dir s = normalize (x +:+ String sep s).
Proof.
  intros Hdir. destruct dir as [|d0 dir]; [done|]. clear Hdir.
  destruct platform eqn:Hpf.
  - exists (String d0 dir). intros s Hs.
    destruct (plain_head s Hs) as (c & s' & -> & _). unfold join.
    by rewrite Hpf.
  - destruct (starts_like_unc (String d0 dir)) eqn:Hunc.
    { exists (String d0 dir). intros s Hs.
      destruct (plain_head s Hs) as (c & s' & -> & _). unfold join.
      by rewrite Hpf, Hunc. }
    set (two := isPathSeparator d0
                && match dir with
                   | "" => true
                   | String d1 _ => isPathSeparator d1
                   end).
    exists (if two then
              if Js.all_chars isPathSeparator (String d0 dir) then ""
              else String sep (drop_separators (String d0 dir))
            else String d0 dir).
    intros s Hs. destruct (plain_head s Hs) as (c & s' & Heq & Hc).
    assert (join (String d0 dir) s
            = normalize (single_leading_separator
                           (String d0 dir +:+ String sep s))) as ->.
    { rewrite Heq. unfold join. by rewrite Hpf, Hunc. }
    f_equal. unfold single_leading_separator.
    assert (∃ c1 rest, String d0 dir +:+ String sep s = String d0 (String c1 rest)
                       ∧ isPathSeparator d0 && isPathSeparator c1 = two)
      as (c1 & rest & Hp & Htwo).
    { destruct dir as [|d1 dir].
      - exists sep, s. split; [done|]. unfold two.
        by rewrite isPathSeparator_sep.
      - exists d1, (dir +:+ String sep s). by split. }
    rewrite Hp, Htwo, <- Hp. destruct two; [|done].
    rewrite (drop_separators_app _ _ _ isPathSeparator_sep Hs).
    by destruct (Js.all_chars isPathSeparator (String d0 dir)).
Qed.

Lemma join_shape dir :
  dir ≠ "" →
  ∃ pre suf, pre_shape pre ∧ (suf = "" ∨ suf = String sep "")
    ∧ ∀ s, plain_segment s → join dir s = pre +:+ s +:+ suf.
Proof.
  intros Hdir. destruct (join_unfold dir Hdir) as [x Hjoin].
  destruct (normalize_snoc_shape x sep isPathSeparator_sep)
    as (pre & suf & Hpre & Hsuf & Hnorm).
  exists pre, suf. split; [done|]. split; [done|].
  intros s Hs. by rewrite (Hjoin s Hs), (Hnorm s Hs).
Qed.

Lemma join_empty s : plain_segment s → join "" s = normalize s.
Proof.
  intros Hs. destruct (plain_head s Hs) as (c & s' & -> & Hc).
  unfold join. destruct platform; [done|].
  unfold starts_like_unc, single_leading_separator.
  destruct s' as [|c1 [|c2 s']]; by rewrite ?Hc.
Qed.

(** [join] is injective in a last argument that is a plain segment. *)
Lemma join_plain_inj dir seg1 seg2 :
  plain_segment seg1 → plain_segment seg2 → tail_ok seg1 → tail_ok seg2 →
  join dir seg1 = join dir seg2 → seg1 = seg2.
Proof.
  intros H1 H2 Ht1 Ht2. destruct (decide (dir = "")) as [->|Hdir].
  - by rewrite !join_empty, !normalize_plain.
  - destruct (join_shape dir Hdir) as (pre & suf & _ & _ & Hjoin).
    rewrite (Hjoin seg1 H1), (Hjoin seg2 H2). intros Heq.
    apply (inj (String.app pre)) in Heq. by apply string_app_inv_tail in Heq.
Qed.

Lemma ends_with_sep_inv pre :
  ends_with_sep pre = true →
  ∃ q c, pre = q +:+ String c "" ∧ isPathSeparator c = true.
Proof.
  induction pre as [|c pre IH]; [done|]. simpl.
  destruct pre as [|c' pre'].
  - intros Hc. by exists "", c.
  - intros (q & c0 & -> & Hc0)%IH. by exists (String c q), c0.
Qed.

Lemma split_last_plain q c s suf :
  isPathSeparator c = true → plain_segment s →
  suf = "" ∨ suf = String sep "" →
  ∃ segs, split (q +:+ String c (s +:+ suf)) = segs ++ [s]
          ∨ split (q +:+ String c (s +:+ suf)) = segs ++ [s; ""].
Proof.
  intros Hc (Hsep & _) [->| ->]; exists (split q);
    rewrite (split_app_sep _ _ _ Hc).
  - left. by rewrite string_app_nil_r, (split_plain s Hsep).
  - right. f_equal.
    rewrite (split_app_sep _ _ _ isPathSeparator_sep), (split_plain s Hsep).
    done.
Qed.

Lemma drive_prefix_app_plain s suf :
  plain_segment s → suf = "" ∨ suf = String sep "" →
  drive_prefix s = None → drive_prefix (s +:+ suf) = None.
Proof.
  intros Hs Hsuf. destruct (plain_head s Hs) as (c & s' & -> & Hc).
  destruct Hsuf as [->| ->]; [by rewrite string_app_nil_r|].
  destruct s' as [|c1 s'].
  - intros _. unfold drive_prefix. rewrite string_app_cons.
    unfold sep. destruct platform; done.
  - rewrite !string_app_cons. unfold drive_prefix.
    destruct (isWindowsDeviceRoot c);
      destruct c1 as [[] [] [] [] [] [] [] []]; done.
Qed.

Lemma drive_prefix_cons2 c0 c1 rest :
  drive_prefix (String c0 (String c1 rest))
  = if Ascii.eqb c1 ":" && isWindowsDeviceRoot c0
    then Some (String c0 ":", rest) else None.
Proof.
  unfold drive_prefix.
  destruct (isWindowsDeviceRoot c0);
    destruct c1 as [[] [] [] [] [] [] [] []]; done.
Qed.

Lemma separator_not_drive c :
  isPathSeparator c = true →
  Ascii.eqb c ":" = false ∧ isWindowsDeviceRoot c = false.
Proof.
  unfold isPathSeparator.
  destruct platform; rewrite ?orb_true_iff, !Ascii.eqb_eq;
    intros; destruct_or?; by subst.
Qed.

(** Dropping a drive prefix does not reach behind a separator. *)
Lemma after_drive_behind_sep q c r :
  isPathSeparator c = true →
  ∃ q', after_drive (q +:+ String c r) = q' +:+ String c r.
Proof.
  intros Hc. destruct (separator_not_drive c Hc) as [Hcolon Hdev].
  unfold after_drive. destruct platform; [by exists q|].
  destruct q as [|q0 [|q1 q2]];
    rewrite ?string_app_cons, ?string_app_nil_l.
  - exists "". rewrite string_app_nil_l. destruct r as [|x y]; [done|].
    by rewrite drive_prefix_cons2, Hdev, andb_false_r.
  - exists (String q0 ""). rewrite string_app_cons, string_app_nil_l.
    by rewrite drive_prefix_cons2, Hcolon.
  - rewrite drive_prefix_cons2.
    destruct (Ascii.eqb q1 ":" && isWindowsDeviceRoot q0);
      [by exists q2|by exists (String q0 (String q1 q2))].
Qed.

Lemma undriven_no_drive s :
  platform = Win32 → undriven s → drive_prefix s = None.
Proof.
  intros Hpf Hund. unfold undriven, after_drive in Hund. rewrite Hpf in Hund.
  destruct (drive_prefix s) as [[d after]|] eqn:Hdrive; [|done]. exfalso.
  destruct (drive_prefix_device _ _ _ Hdrive) as [Heq Hdev]. subst after.
  apply (f_equal String.length) in Heq. rewrite string_app_length in Heq.
  destruct d; [done|]. simpl in Heq. lia.
Qed.

(** The last component of a path of that shape is the plain segment. *)
Lemma basename_shape pre s suf :
  pre_shape pre → suf = "" ∨ suf = String sep "" →
  plain_segment s → undriven s →
  basename (pre +:+ s +:+ suf) = s.
Proof.
  intros Hpre Hsuf Hs Hund. pose proof Hs as (Hsep & Hne & _).
  assert (∀ p segs, (split p = segs ++ [s] ∨ split p = segs ++ [s; ""]) →
                    last_nonempty (split p) "" = s) as Hlast.
  { intros p segs [-> | ->];
      [by apply last_nonempty_snoc|by apply last_nonempty_snoc_empty]. }
  assert (basename (s +:+ suf) = s) as Hbare.
  { unfold basename.
    assert (after_drive (s +:+ suf) = s +:+ suf) as ->.
    { unfold after_drive. destruct platform eqn:Hpf; [done|].
      by rewrite (drive_prefix_app_plain s suf Hs Hsuf
                    (undriven_no_drive s Hpf Hund)). }
    destruct Hsuf as [->| ->].
    - rewrite string_app_nil_r, (split_plain s Hsep). simpl.
      by rewrite decide_False.
    - apply (Hlast _ []). right.
      replace (s +:+ String sep "") with (s +:+ String sep ("" +:+ "")) by done.
      rewrite (split_app_sep _ _ _ isPathSeparator_sep), (split_plain s Hsep).
      done. }
  destruct Hpre as [->|[Hends|[Hpf Hdrive]]]; [done|..].
  - destruct (ends_with_sep_inv pre Hends) as (q & c & -> & Hc).
    rewrite string_app_assoc. rewrite string_app_cons.
    change ("" +:+ s +:+ suf) with (s +:+ suf).
    unfold basename.
    destruct (after_drive_behind_sep q c (s +:+ suf) Hc) as [q' ->].
    destruct (split_last_plain q' c s suf Hc Hs Hsuf) as [segs Hsegs].
    by apply (Hlast _ segs).
  - unfold basename at 1.
    assert (after_drive (pre +:+ s +:+ suf) = s +:+ suf) as ->.
    { unfold after_drive. rewrite Hpf. unfold drive_prefix in *.
      destruct pre as [|p0 [|p1 pre]]; try done.
      rewrite !string_app_cons.
      destruct (isWindowsDeviceRoot p0);
        destruct p1 as [[] [] [] [] [] [] [] []]; simpl in *; try done.
      injection Hdrive as Heq. by destruct pre. }
    destruct Hsuf as [->| ->].
    + rewrite string_app_nil_r, (split_plain s Hsep). simpl.
      by rewrite decide_False.
    + apply (Hlast _ []). right.
      replace (s +:+ String sep "") with (s +:+ String sep ("" +:+ "")) by done.
      rewrite (split_app_sep _ _ _ isPathSeparator_sep), (split_plain s Hsep).
      done.
Qed.

Lemma basename_join targetDir seg :
  plain_segment seg → undriven seg → basename (join targetDir seg) = seg.
Proof.
  intros Hs Hund. destruct (decide (targetDir = "")) as [->|Hdir].
  - rewrite (join_empty _ Hs).
    rewrite (normalize_plain _ Hs (undriven_tail_ok _ Hs Hund)).
    rewrite <- (string_app_nil_r seg) at 1.
    apply (basename_shape "" seg ""); [by left|by left|done..].
  - destruct (join_shape targetDir Hdir) as (pre & suf & Hpre & Hsuf & Hjoin).
    rewrite (Hjoin seg Hs). by apply basename_shape.
Qed.

End PathFacts.

(** ** Name generation *)

Section NameFacts.
Context {cm : Js.CaseMapping} {pf : Path.Flavour}.

Lemma plain_x_png : Path.plain_segment "x.png" ∧ Path.undriven "x.png".
Proof.
  unfold Path.plain_segment, Path.undriven, Path.after_drive,
    Path.no_separator, Path.isPathSeparator.
  by destruct Path.platform.
Qed.

Lemma no_separator_info (itemId : string) :
  Path.no_separator itemId = true →
  Path.no_separator (itemId +:+ ".info") = true.
Proof.
  intros Hid. rewrite no_separator_app, Hid.
  unfold Path.no_separator, Path.isPathSeparator. by destruct Path.platform.
Qed.

Lemma info_longer (itemId : string) (n : nat) :
  String.length (itemId +:+ ".info") ≤ n + 2 → 3 ≤ n.
Proof. rewrite string_app_length. simpl. lia. Qed.

Lemma plain_info (itemId : string) :
  Path.no_separator itemId = true → Path.plain_segment (itemId +:+ ".info").
Proof.
  intros Hid. split; [by apply no_separator_info|].
  repeat split; intros Heq; apply (f_equal String.length) in Heq;
    rewrite string_app_length in Heq; simpl in Heq; lia.
Qed.

Lemma after_drive_length (s : string) :
  String.length s ≤ String.length (Path.after_drive s) + 2.
Proof.
  unfold Path.after_drive. destruct Path.platform; [lia|].
  destruct (Path.drive_prefix s) as [[d after]|] eqn:Hdrive; [|lia].
  destruct (drive_prefix_device _ _ _ Hdrive) as [-> Hdev].
  rewrite string_app_length.
  unfold Path.drive_prefix in Hdev.
  destruct d as [|d0 [|d1 [|d2 d]]]; simpl; try lia.
  destruct (Path.isWindowsDeviceRoot d0);
    destruct d1 as [[] [] [] [] [] [] [] []]; done.
Qed.

Lemma tail_ok_info (itemId : string) : Path.tail_ok (itemId +:+ ".info").
Proof.
  pose proof (info_longer itemId _ (after_drive_length (itemId +:+ ".info")))
    as Hlen.
  repeat split; intros Heq; rewrite Heq in Hlen; simpl in Hlen; lia.
Qed.

Lemma append_info_inj (a b : string) : a +:+ ".info" = b +:+ ".info" → a = b.
Proof. apply string_app_inv_tail. Qed.

(** On ASCII text a UTF-16 code unit is a byte. *)
Lemma slice0_ascii (n : nat) (s : string) :
  Js.is_ascii s = true → Js.slice0 n s = (Js.split_at n s).1.
Proof.
  revert s. induction n as [|n IH]; intros [|c s] Hs; try done.
  unfold Js.is_ascii in Hs. simpl in Hs.
  apply andb_true_iff in Hs as [Hc Hs]. simpl.
  assert (Js.utf8_width c = 1) as ->.
  { unfold Js.utf8_width, Js.is_ascii_char in *.
    apply Nat.ltb_lt in Hc.
    by rewrite (proj2 (Nat.ltb_lt _ 192)) by lia. }
  simpl. rewrite (IH s Hs). by destruct (Js.split_at n s).
Qed.

Lemma split_at_length (n : nat) (s : string) :
  String.length (Js.split_at n s).1 = n `min` String.length s.
Proof.
  revert s. induction n as [|n IH]; intros [|c s]; try done. simpl.
  specialize (IH s). destruct (Js.split_at n s). simpl in *. by rewrite IH.
Qed.

Lemma split_at_substring (n : nat) (s : string) :
  (Js.split_at n s).1 = substring 0 n s.
Proof.
  revert s. induction n as [|n IH]; intros [|c s]; try done. simpl.
  specialize (IH s). destruct (Js.split_at n s). simpl in *. by rewrite IH.
Qed.

Lemma split_at_ascii (n : nat) (s : string) :
  Js.is_ascii s = true → Js.is_ascii (Js.split_at n s).1 = true.
Proof.
  revert s. induction n as [|n IH]; intros [|c s] Hs; try done.
  unfold Js.is_ascii in *. simpl in *.
  apply andb_true_iff in Hs as [Hc Hs]. specialize (IH s Hs).
  destruct (Js.split_at n s). simpl in *. by rewrite Hc, IH.
Qed.

Lemma map_chars_length (f : ascii → ascii) (s : string) :
  String.length (Js.map_chars f s) = String.length s.
Proof. induction s as [|c s IH]; [done|]. simpl. by rewrite IH. Qed.

Lemma upper_char_not_lower (c : ascii) :
  Js.is_lower_letter (Js.upper_char c) = false.
Proof. destruct c as [[] [] [] [] [] [] [] []]; reflexivity. Qed.

Lemma lower_upper_char (c : ascii) :
  Js.lower_char (Js.upper_char c) = Js.lower_char c.
Proof. destruct c as [[] [] [] [] [] [] [] []]; reflexivity. Qed.

(** The id part of a collision name, for an id that is ASCII: as long as
    the first eight characters of the id, without a lower-case letter, and
    equal to those characters up to letter case. *)
Lemma idPart_ascii (itemId : string) :
  Js.is_ascii itemId = true →
  let idPart := Js.toUpperCase (Js.slice0 8 itemId) in
  String.length idPart = 8 `min` String.length itemId
  ∧ Js.all_chars (λ c, negb (Js.is_lower_letter c)) idPart = true
  ∧ Js.map_chars Js.lower_char idPart
    = Js.map_chars Js.lower_char (substring 0 8 itemId).
Proof.
  intros Hid. cbn zeta. rewrite (slice0_ascii 8 _ Hid).
  rewrite Js.toUpperCase_ascii by (by apply split_at_ascii).
  rewrite map_chars_length, split_at_length, <- split_at_substring.
  split; [done|]. generalize (Js.split_at 8 itemId).1. intros s. split.
  - induction s as [|c s IH]; [done|]. simpl.
    by rewrite upper_char_not_lower, IH.
  - induction s as [|c s IH]; [done|]. simpl.
    by rewrite lower_upper_char, IH.
Qed.

Lemma generateTargetPath_collision (item : SyncItem) (dir : string)
    (mode : SyncMode) (names : gset string) :
  mode ≠ EntryDir → Js.toLowerCase (baseNameOf item) ∈ names →
  generateTargetPath item dir mode names
  = Path.join dir (sanitizeFilename (name item) +:+ " (" +:+
                   Js.toUpperCase (Js.slice0 8 (id item)) +:+ ")." +:+
                   ext item).
Proof.
  intros Hmode Hin. destruct mode; [done|..];
    unfold generateTargetPath; fold (baseNameOf item);
    by rewrite bool_decide_eq_true_2.
Qed.

(** C4.  The two items named [x.png] with ids [AAAAAAAA1111] and
    [BBBBBBBB2222], in that order, against an empty index in entry-file
    mode, are planned at [targetDir/x.png] and
    [targetDir/x (BBBBBBBB).png].  In both file modes an item whose
    lower-cased base name is in use is given its sanitized name suffixed
    with the upper-cased first eight characters of its own id, whatever
    else is in use: the id [abc123def456] gives [x (ABC123DE).png], and for
    every ASCII id the suffix is as long as the first eight characters of
    the id, has no lower-case letter and equals those characters up to
    letter case. *)
Theorem collision_determinism (targetDir pathA pathB : string) :
  let a := mkItem "AAAAAAAA1111" "x" "png" pathA in
  let b := mkItem "BBBBBBBB2222" "x" "png" pathB in
  toCreate (computeSyncPlan [a; b] [] EntryFile targetDir)
  = [(a, Path.join targetDir "x.png");
     (b, Path.join targetDir "x (BBBBBBBB).png")]
  ∧ (∀ item dir mode (names : gset string),
       mode ≠ EntryDir → Js.toLowerCase (baseNameOf item) ∈ names →
       generateTargetPath item dir mode names
       = Path.join dir (sanitizeFilename (name item) +:+ " (" +:+
                        Js.toUpperCase (Js.slice0 8 (id item)) +:+ ")." +:+
                        ext item))
  ∧ (∀ dir mode (names : gset string) sourcePath,
       mode ≠ EntryDir →
       generateTargetPath (mkItem "abc123def456" "x" "png" sourcePath) dir
         mode ({[ "x.png" ]} ∪ names)
       = Path.join dir "x (ABC123DE).png")
  ∧ (∀ itemId, Js.is_ascii itemId = true →
       let idPart := Js.toUpperCase (Js.slice0 8 itemId) in
       String.length idPart = 8 `min` String.length itemId
       ∧ Js.all_chars (λ c, negb (Js.is_lower_letter c)) idPart = true
       ∧ Js.map_chars Js.lower_char idPart
         = Js.map_chars Js.lower_char (substring 0 8 itemId)).
Proof.
  assert (Js.toLowerCase "x.png" = "x.png") as Hlower
    by (by rewrite Js.toLowerCase_ascii).
  split; [|split; [|split]].
  - cbn zeta. unfold computeSyncPlan; cbn [toCreate planCreations id Obj.keys map].
    rewrite !bool_decide_eq_false_2 by set_solver.
    cbn [collectExisting id]. rewrite !bool_decide_eq_false_2 by set_solver.
    cbn [collectExisting].
    assert (generateTargetPath (mkItem "AAAAAAAA1111" "x" "png" pathA)
              targetDir EntryFile ∅ = Path.join targetDir "x.png") as ->.
    { unfold generateTargetPath. by rewrite bool_decide_eq_false_2 by set_solver. }
    destruct plain_x_png as [Hplain Hund].
    rewrite (basename_join targetDir "x.png" Hplain Hund).
    rewrite generateTargetPath_collision; [|done|].
    + cbn [id name ext]. change (Js.slice0 8 "BBBBBBBB2222") with "BBBBBBBB".
      by rewrite Js.toUpperCase_ascii.
    + apply elem_of_union_l, elem_of_singleton. reflexivity.
  - intros item dir mode names. apply generateTargetPath_collision.
  - intros dir mode names sourcePath Hmode.
    rewrite generateTargetPath_collision; [|done|].
    + cbn [id name ext]. change (Js.slice0 8 "abc123def456") with "abc123de".
      by rewrite Js.toUpperCase_ascii.
    + apply elem_of_union_l, elem_of_singleton.
      unfold baseNameOf. cbn [name ext]. exact Hlower.
  - intros itemId. apply idPart_ascii.
Qed.

(** C5, amended.  In entry-directory mode the generated path is the target
    directory joined with the item's id followed by [.info], whatever the
    names in use and the item's name and extension; and two items with
    distinct ids that contain no path separator (['/'], and on Windows
    ['\'] as well) get different paths. *)
Theorem entry_dir_target_path (item1 item2 : SyncItem) (targetDir : string)
    (names1 names2 : gset string) :
  generateTargetPath item1 targetDir EntryDir names1
  = Path.join targetDir (id item1 +:+ ".info")
  ∧ (Path.no_separator (id item1) = true →
     Path.no_separator (id item2) = true →
     id item1 ≠ id item2 →
     generateTargetPath item1 targetDir EntryDir names1
     ≠ generateTargetPath item2 targetDir EntryDir names2).
Proof.
  split; [done|]. intros H1 H2 Hne Heq. apply Hne.
  apply append_info_inj.
  eapply join_plain_inj;
    [by apply plain_info|by apply plain_info|apply tail_ok_info..|exact Heq].
Qed.

End NameFacts.

(** C5 fails as stated: [path.join] normalizes its result, so two distinct
    ids can denote the same entry-directory path. *)
Lemma entry_dir_paths_can_coincide :
  id item_plain ≠ id item_dotted
  ∧ generateTargetPath item_plain "/links" EntryDir ∅
    = generateTargetPath item_dotted "/links" EntryDir ∅.
Proof. split; [done|reflexivity]. Qed.

(** The same on Windows, where the id may also be written with a
    backslash. *)
Example entry_dir_paths_coincide_on_windows :
  map (λ itemId,
         generateTargetPath (pf := Path.Win32) (mkItem itemId "n" "png" "")
           "C:\Links" EntryDir ∅)
    ["a"; "./a"; ".\a"]
  = ["C:\Links\a.info"; "C:\Links\a.info"; "C:\Links\a.info"].
Proof. reflexivity. Qed.

Lemma entry_dir_target_path_witness :
  generateTargetPath (pf := Path.Win32) item_x_A "C:\Links" EntryDir ∅
  ≠ generateTargetPath (pf := Path.Win32) item_x_B "C:\Links" EntryDir
      {[ "x.png" ]}.
Proof.
  apply (proj2 (entry_dir_target_path (pf := Path.Win32) item_x_A item_x_B
                  "C:\Links" ∅ {[ "x.png" ]}));
    [reflexivity|reflexivity|].
  vm_compute. discriminate.
Defined.

Lemma collision_determinism_witness :
  generateTargetPath (pf := Path.Win32) item_x_B "C:\Links" Copy {[ "x.png" ]}
  = "C:\Links\x (BBBBBBBB).png".
Proof.
  rewrite (proj1 (proj2 (collision_determinism (pf := Path.Win32) "" "" ""))
             item_x_B "C:\Links" Copy {[ "x.png" ]});
    [reflexivity|done|].
  apply (bool_decide_unpack _). by vm_compute.
Defined.

(** ** Plan computation *)

Section PlanFacts.
Context {cm : Js.CaseMapping} {pf : Path.Flavour}.

Lemma planCreations_items indexedIds targetDir mode items names :
  map fst (planCreations indexedIds targetDir mode items names)
  = filter (λ item, id item ∉ indexedIds) items.
Proof.
  revert names. induction items as [|item items IH]; intros names; [done|].
  simpl. rewrite filter_cons. case_bool_decide; case_decide; try done.
  simpl. by rewrite IH.
Qed.

Lemma planRemovals_paths (filteredIds : gset string) (entries : list (string * string)) :
  planRemovals filteredIds entries
  = map snd (filter (λ e, e.1 ∉ filteredIds) entries).
Proof.
  induction entries as [|[k v] entries IH]; [done|].
  simpl. rewrite filter_cons. simpl. case_bool_decide; case_decide; try done.
  simpl. by rewrite IH.
Qed.

(** C1.  The plan partitions the desired items and the index: the items
    of [toCreate] are exactly the desired items whose id is not a key of
    the index, in the order supplied, and [toRemove] lists exactly the paths
    of the index entries whose id is not the id of a desired item.  (This
    holds whether or not the desired ids are distinct.) *)
Theorem computeSyncPlan_partition (items : list SyncItem)
    (currentIndex : SyncIndex) (mode : SyncMode) (targetDir : string) :
  let plan := computeSyncPlan items currentIndex mode targetDir in
  map fst (toCreate plan)
  = filter (λ item, id item ∉ Obj.keys currentIndex) items
  ∧ toRemove plan
    = map snd (filter (λ e, e.1 ∉ map id items) currentIndex)
  ∧ plan_skipped plan = [].
Proof.
  cbn zeta. unfold computeSyncPlan. cbn [toCreate toRemove plan_skipped].
  rewrite planCreations_items, planRemovals_paths. split; [|split; [|done]].
  - apply list_filter_iff. intros item. by rewrite elem_of_list_to_set.
  - f_equal. apply list_filter_iff. intros e. by rewrite elem_of_list_to_set.
Qed.

End PlanFacts.

(** C3 fails on the code: the id-suffixed name is not checked against the
    names in use, so two new items that share their sanitized name,
    extension and first eight id characters are planned at the same path
    once the bare name is taken. *)
Theorem toCreate_paths_can_repeat :
  let items := [item_x_A; item_x_B; item_x_B'] in
  NoDup (map id items)
  ∧ toCreate (computeSyncPlan items [] EntryFile "/links")
    = [(item_x_A, "/links/x.png");
       (item_x_B, "/links/x (BBBBBBBB).png");
       (item_x_B', "/links/x (BBBBBBBB).png")].
Proof.
  split.
  - apply (bool_decide_unpack _). by vm_compute.
  - by vm_compute.
Qed.

(** The same on Windows. *)
Example toCreate_paths_repeat_on_windows :
  map snd (toCreate (computeSyncPlan (pf := Path.Win32)
                       [item_x_A; item_x_B; item_x_B'] [] EntryFile
                       "C:\Links"))
  = ["C:\Links\x.png"; "C:\Links\x (BBBBBBBB).png";
     "C:\Links\x (BBBBBBBB).png"].
Proof. by vm_compute. Qed.

(** Entry-directory names are the ids themselves, which are never compared
    case-insensitively either. *)
Example entry_dir_case_variant_ids :
  let cs := toCreate (computeSyncPlan [item_ab; item_AB] [] EntryDir "/links") in
  map snd cs = ["/links/ab.info"; "/links/AB.info"]
  ∧ map (λ c, Js.toLowerCase (Path.basename c.2)) cs = ["ab.info"; "ab.info"].
Proof. by vm_compute. Qed.

(** ** Execution, entry by entry *)

Lemma countRemoval_cons o p o' rs :
  countRemoval o ((p, o') :: rs)
  = (if bool_decide (o' = o) then 1 else 0) + countRemoval o rs.
Proof. unfold countRemoval. simpl. by case_bool_decide. Qed.

Lemma countCreation_cons o c o' cs :
  countCreation o ((c, o') :: cs)
  = (if bool_decide (o' = o) then 1 else 0) + countCreation o cs.
Proof. unfold countCreation. simpl. by case_bool_decide. Qed.

Lemma applyOutcomes_cons_created c cs result :
  applyOutcomes ((c, Created) :: cs) result
  = applyOutcomes cs (recordCreated result c.1 c.2).
Proof.
  unfold applyOutcomes. rewrite !countCreation_cons. simpl.
  f_equal; lia.
Qed.

Lemma applyOutcomes_cons_missing c cs result :
  applyOutcomes ((c, SourceMissing) :: cs) result
  = applyOutcomes cs (recordSkipped result).
Proof.
  unfold applyOutcomes. rewrite !countCreation_cons. simpl.
  f_equal; lia.
Qed.

Lemma applyOutcomes_cons_failed c e cs result :
  applyOutcomes ((c, CreateFailed e) :: cs) result
  = applyOutcomes cs (recordError result c.1 e).
Proof.
  unfold applyOutcomes. rewrite !countCreation_cons. simpl.
  rewrite <- app_assoc. f_equal; lia.
Qed.

Lemma applyOutcomes_nil result : applyOutcomes [] result = result.
Proof.
  unfold applyOutcomes, countCreation. destruct result; simpl.
  f_equal; [lia..|by rewrite app_nil_r].
Qed.

Section ExecutorFacts.
Context {cm : Js.CaseMapping} {pf : Path.Flavour} {W : Type} `{FileSystem W}.

(** The removal loop adds one to [removed] for every deleted entry and
    one error for every failed deletion, and nothing else. *)
Lemma removalLoop_trace toRemove result w :
  removalLoop toRemove result w
  = ({| rem_removed :=
          rem_removed result
          + countRemoval Deleted (removalTrace toRemove w).1;
        rem_errors :=
          rem_errors result
          ++ omap (λ r, match r.2 with
                        | RemoveFailed e => Some (r.1, e)
                        | _ => None
                        end) (removalTrace toRemove w).1 |},
     (removalTrace toRemove w).2).
Proof.
  revert result w. induction toRemove as [|p ps IH]; intros result w.
  { destruct result. simpl. unfold countRemoval. simpl.
    by rewrite Nat.add_0_r, app_nil_r. }
  simpl. unfold observeRemoval, catch_null.
  destruct (fs_lstat p w) as [[[]|e] w1].
  - destruct (fs_rm p w1) as [[[]|e] w2]; rewrite IH;
      destruct (removalTrace ps w2) as [rs w3]; simpl;
      rewrite countRemoval_cons; simpl.
    + do 2 f_equal. lia.
    + by rewrite <- app_assoc.
  - rewrite IH. destruct (removalTrace ps w1) as [rs w3]. simpl.
    by rewrite countRemoval_cons.
Qed.

Lemma removal_errors_as_sync_errors (rs : list (string * RemovalOutcome)) :
  map pathError (omap (λ r, match r.2 with
                            | RemoveFailed e => Some (r.1, e)
                            | _ => None
                            end) rs)
  = removalErrors rs.
Proof.
  induction rs as [|[p []] rs IH]; simpl; try done.
  by rewrite <- IH.
Qed.

(** Every creation loop performs, on [result], the updates its outcomes
    dictate. *)
Lemma creationLoop_trace mode options cs result w :
  creationLoop mode options cs result w
  = (applyOutcomes (creationTrace mode options cs w).1 result,
     (creationTrace mode options cs w).2).
Proof.
  revert result w. induction cs as [|[item targetPath] cs IH]; intros result w.
  { destruct mode; simpl; by rewrite applyOutcomes_nil. }
  destruct mode; simpl in *; unfold catch_null.
  - destruct (createEntrySymlink _ _ _ _ w) as [[[]|e] w1];
      rewrite IH; destruct (creationTrace _ _ cs w1) as [os w']; simpl.
    + by rewrite applyOutcomes_cons_created.
    + by rewrite applyOutcomes_cons_failed.
  - destruct (fs_stat _ w) as [[[]|e0] w1].
    + destruct (createItemFileSymlink _ _ w1) as [[[]|e] w2];
        rewrite IH; destruct (creationTrace _ _ cs w2) as [os w']; simpl.
      * by rewrite applyOutcomes_cons_created.
      * by rewrite applyOutcomes_cons_failed.
    + rewrite IH. destruct (creationTrace _ _ cs w1) as [os w']; simpl.
      by rewrite applyOutcomes_cons_missing.
  - destruct (fs_stat _ w) as [[[]|e0] w1].
    + destruct (fs_mkdir _ w1) as [[[]|e1] w2].
      * destruct (fs_copyFile _ _ w2) as [[[]|e] w3];
          rewrite IH; destruct (creationTrace _ _ cs w3) as [os w']; simpl.
        -- by rewrite applyOutcomes_cons_created.
        -- by rewrite applyOutcomes_cons_failed.
      * rewrite IH. destruct (creationTrace _ _ cs w2) as [os w']; simpl.
        by rewrite applyOutcomes_cons_failed.
    + rewrite IH. destruct (creationTrace _ _ cs w1) as [os w']; simpl.
      by rewrite applyOutcomes_cons_missing.
Qed.

Lemma executePlan_unfold plan mode currentIndex options w :
  executePlan plan mode currentIndex options w
  = let '(removalResult, w1) := executeRemovals (toRemove plan) w in
    let '(result, w2) :=
      creationLoop mode options (toCreate plan)
        (afterRemovals plan currentIndex removalResult) w1 in
    (forgetRemoved plan result, w2).
Proof. by destruct mode. Qed.

(** The result of a run, in terms of what it observed. *)
Lemma executePlan_trace plan mode currentIndex options w :
  (executePlan plan mode currentIndex options w).1
  = let '(rs, cs) := runTrace plan mode options w in
    {| created := countCreation Created cs;
       removed := countRemoval Deleted rs;
       skipped := length (plan_skipped plan) + countCreation SourceMissing cs;
       newIndex :=
         dropPaths (toRemove plan)
           (fold_left addCreated (createdEntries cs) currentIndex);
       errors := removalErrors rs ++ creationErrors cs |}.
Proof.
  rewrite executePlan_unfold. unfold executeRemovals, runTrace.
  rewrite removalLoop_trace.
  destruct (removalTrace (toRemove plan) w) as [rs w1]. cbn [fst snd].
  rewrite creationLoop_trace.
  destruct (creationTrace mode options (toCreate plan) w1) as [cs w2].
  cbn [fst snd]. unfold forgetRemoved, applyOutcomes, afterRemovals.
  cbn [created removed skipped newIndex errors rem_removed rem_errors].
  by rewrite !app_nil_l, removal_errors_as_sync_errors.
Qed.

Lemma creationTrace_entries mode options cs w :
  map fst (creationTrace mode options cs w).1 = cs.
Proof.
  revert w. induction cs as [|c cs IH]; intros w; [done|]. simpl.
  destruct (observeCreation mode options c w) as [o w1].
  specialize (IH w1). destruct (creationTrace mode options cs w1). simpl in *.
  by rewrite IH.
Qed.

Lemma removalTrace_paths ps w : map fst (removalTrace ps w).1 = ps.
Proof.
  revert w. induction ps as [|p ps IH]; intros w; [done|]. simpl.
  destruct (observeRemoval p w) as [o w1].
  specialize (IH w1). destruct (removalTrace ps w1). simpl in *.
  by rewrite IH.
Qed.

End ExecutorFacts.

Lemma countRemoval_app o rs1 rs2 :
  countRemoval o (rs1 ++ rs2) = countRemoval o rs1 + countRemoval o rs2.
Proof. unfold countRemoval. by rewrite List.filter_app, length_app. Qed.

Lemma removalErrors_app rs1 rs2 :
  removalErrors (rs1 ++ rs2) = removalErrors rs1 ++ removalErrors rs2.
Proof.
  induction rs1 as [|[p []] rs1 IH]; simpl; try done. by rewrite IH.
Qed.

Lemma removal_outcomes_total rs :
  countRemoval NotFound rs + countRemoval Deleted rs
  + length (removalErrors rs) = length rs.
Proof.
  induction rs as [|[p o] rs IH]; [done|].
  rewrite !countRemoval_cons. destruct o; simpl; lia.
Qed.

Lemma creation_outcomes_total cs :
  countCreation Created cs + countCreation SourceMissing cs
  + length (creationErrors cs) = length cs.
Proof.
  induction cs as [|[c o] cs IH]; [done|].
  rewrite !countCreation_cons. destruct o; simpl; lia.
Qed.

Lemma itemErrors_removalErrors rs : itemErrors (removalErrors rs) = [].
Proof. induction rs as [|[p []] rs IH]; simpl; done. Qed.

Lemma itemErrors_creationErrors cs :
  itemErrors (creationErrors cs) = creationErrors cs.
Proof.
  induction cs as [|[c []] cs IH]; simpl; try done.
  f_equal. exact IH.
Qed.

Lemma pathErrors_removalErrors rs :
  List.filter (λ e, bool_decide (is_Some (err_path e))) (removalErrors rs)
  = removalErrors rs.
Proof.
  induction rs as [|[p []] rs IH]; simpl; try done.
  f_equal. exact IH.
Qed.

Lemma pathErrors_creationErrors cs :
  List.filter (λ e, bool_decide (is_Some (err_path e))) (creationErrors cs)
  = [].
Proof.
  induction cs as [|[c []] cs IH]; simpl; done.
Qed.

Lemma elem_of_removalErrors rs p e :
  (p, RemoveFailed e) ∈ rs → mkSyncError None (Some p) e ∈ removalErrors rs.
Proof.
  induction rs as [|[p' o] rs IH]; [by intros ?%elem_of_nil|].
  intros [Heq|Hin]%elem_of_cons.
  - injection Heq as <- <-. simpl. by left.
  - destruct o; simpl; [by auto..|]. right. by auto.
Qed.

Lemma elem_of_creationErrors cs c e :
  (c, CreateFailed e) ∈ cs → mkSyncError (Some c.1) None e ∈ creationErrors cs.
Proof.
  induction cs as [|[c' o] cs IH]; [by intros ?%elem_of_nil|].
  intros [Heq|Hin]%elem_of_cons.
  - injection Heq as <- <-. simpl. by left.
  - destruct o; simpl; [by auto..|]. right. by auto.
Qed.

Section ExecutorClaims.
Context {cm : Js.CaseMapping} {pf : Path.Flavour} {W : Type} `{FileSystem W}.

(** C7.  In every mode, [removed] counts exactly the planned removals
    whose path was found and deleted, and the path-keyed errors are
    exactly the removals whose deletion failed: a removal whose probe
    finds nothing adds neither a count nor an error, so the counts and
    errors are those of the run without that entry. *)
Theorem removal_tolerance (plan : SyncPlan) (mode : SyncMode)
    (currentIndex : SyncIndex) (options : ExecuteOptions) (w : W) :
  let r := (executePlan plan mode currentIndex options w).1 in
  let rs := (removalTrace (toRemove plan) w).1 in
  map fst rs = toRemove plan
  ∧ removed r = countRemoval Deleted rs
  ∧ List.filter (λ e, bool_decide (is_Some (err_path e))) (errors r)
    = removalErrors rs
  ∧ countRemoval NotFound rs + countRemoval Deleted rs
    + length (removalErrors rs) = length (toRemove plan)
  ∧ (∀ rs1 p rs2, rs = rs1 ++ (p, NotFound) :: rs2 →
       removed r = countRemoval Deleted (rs1 ++ rs2)
       ∧ List.filter (λ e, bool_decide (is_Some (err_path e))) (errors r)
         = removalErrors (rs1 ++ rs2)).
Proof.
  cbn zeta. rewrite executePlan_trace. unfold runTrace.
  destruct (removalTrace (toRemove plan) w) as [rs w1] eqn:Hrs.
  cbn [fst snd created removed skipped newIndex errors].
  assert (map fst rs = toRemove plan) as Hpaths.
  { pose proof (removalTrace_paths (toRemove plan) w) as Hp.
    by rewrite Hrs in Hp. }
  assert (List.filter (λ e, bool_decide (is_Some (err_path e)))
            (removalErrors rs
             ++ creationErrors (creationTrace mode options (toCreate plan) w1).1)
          = removalErrors rs) as Herr.
  { by rewrite List.filter_app, pathErrors_removalErrors,
      pathErrors_creationErrors, app_nil_r. }
  repeat split; try done.
  - rewrite removal_outcomes_total, <- Hpaths. by rewrite length_map.
  - subst rs. rewrite !countRemoval_app, countRemoval_cons. simpl. lia.
  - rewrite Herr. subst rs. by rewrite !removalErrors_app.
Qed.

(** C8, amended.  The errors of a run are exactly its failed deletions,
    keyed by path, followed by its failed creations, keyed by item: every
    removal whose deletion is rejected and every creation whose creation
    primitive is rejected appears in [errors].  (A rejected probe is not a
    failure of the run: it reads as "nothing there".) *)
Theorem failures_are_reported (plan : SyncPlan) (mode : SyncMode)
    (currentIndex : SyncIndex) (options : ExecuteOptions) (w : W) :
  let r := (executePlan plan mode currentIndex options w).1 in
  let rs := (runTrace plan mode options w).1 in
  let cs := (runTrace plan mode options w).2 in
  map fst rs = toRemove plan
  ∧ map fst cs = toCreate plan
  ∧ errors r = removalErrors rs ++ creationErrors cs
  ∧ (∀ p e, (p, RemoveFailed e) ∈ rs →
       mkSyncError None (Some p) e ∈ errors r)
  ∧ (∀ c e, (c, CreateFailed e) ∈ cs →
       mkSyncError (Some c.1) None e ∈ errors r).
Proof.
  cbn zeta. rewrite executePlan_trace. unfold runTrace.
  pose proof (removalTrace_paths (toRemove plan) w) as Hp.
  destruct (removalTrace (toRemove plan) w) as [rs w1].
  pose proof (creationTrace_entries mode options (toCreate plan) w1) as Hc.
  cbn [fst snd created removed skipped newIndex errors] in *.
  repeat split; try done.
  - intros p e Hin. apply elem_of_app. left. by apply elem_of_removalErrors.
  - intros c e Hin. apply elem_of_app. right. by apply elem_of_creationErrors.
Qed.

(** In every mode each planned creation has exactly one outcome: it is
    created (counted in [created], and its id is set in the working index),
    or skipped for a missing source (counted in [skipped] on top of the
    plan's own skipped entries), or failed (one item-keyed error).  Hence
    created + (skipped - |plan.skipped|) + item-keyed errors
    = |toCreate|.  (Whether a created id is still a key of the returned
    index depends on the concluding pass over the removed paths.) *)
Lemma creation_accounting (plan : SyncPlan) (mode : SyncMode)
    (currentIndex : SyncIndex) (options : ExecuteOptions) (w : W) :
  let r := (executePlan plan mode currentIndex options w).1 in
  let cs := (runTrace plan mode options w).2 in
  map fst cs = toCreate plan
  ∧ created r = countCreation Created cs
  ∧ skipped r = length (plan_skipped plan) + countCreation SourceMissing cs
  ∧ itemErrors (errors r) = creationErrors cs
  ∧ newIndex r
    = dropPaths (toRemove plan)
        (fold_left addCreated (createdEntries cs) currentIndex)
  ∧ created r + (skipped r - length (plan_skipped plan))
    + length (itemErrors (errors r)) = length (toCreate plan).
Proof.
  cbn zeta. rewrite executePlan_trace. unfold runTrace.
  destruct (removalTrace (toRemove plan) w) as [rs w1].
  pose proof (creationTrace_entries mode options (toCreate plan) w1) as Hc.
  set (cs := (creationTrace mode options (toCreate plan) w1).1) in *.
  cbn [fst snd created removed skipped newIndex errors].
  assert (itemErrors (removalErrors rs ++ creationErrors cs)
          = creationErrors cs) as Herr.
  { unfold itemErrors. rewrite List.filter_app.
    fold (itemErrors (removalErrors rs)). fold (itemErrors (creationErrors cs)).
    by rewrite itemErrors_removalErrors, itemErrors_creationErrors. }
  repeat split; try done.
  rewrite Herr, <- Hc, length_map.
  pose proof (creation_outcomes_total cs). lia.
Qed.

(** C6.  A plan with two creations, no removal and no skipped entry, of
    which one source file is absent and the other creation succeeds,
    yields created = 1, skipped = 1, no error, and the previous index
    extended with the created item only. *)
Theorem partial_failure_accounting (plan : SyncPlan) (mode : SyncMode)
    (currentIndex : SyncIndex) (options : ExecuteOptions) (w : W)
    (made missing : SyncItem * string) :
  toRemove plan = [] →
  plan_skipped plan = [] →
  (creationTrace mode options (toCreate plan) w).1
    = [(made, Created); (missing, SourceMissing)]
  ∨ (creationTrace mode options (toCreate plan) w).1
    = [(missing, SourceMissing); (made, Created)] →
  let r := (executePlan plan mode currentIndex options w).1 in
  length (toCreate plan) = 2
  ∧ created r = 1 ∧ skipped r = 1 ∧ removed r = 0 ∧ errors r = []
  ∧ newIndex r = Obj.set (id made.1) made.2 currentIndex.
Proof.
  intros Hrem Hskip Htrace. cbn zeta.
  pose proof (creationTrace_entries mode options (toCreate plan) w) as Hc.
  rewrite executePlan_trace. unfold runTrace. rewrite Hrem, Hskip.
  cbn [removalTrace fst snd created removed skipped newIndex errors].
  destruct Htrace as [Ht|Ht]; rewrite Ht in Hc |- *; rewrite <- Hc;
    rewrite !countCreation_cons; by repeat split.
Qed.

End ExecutorClaims.

Lemma removal_tolerance_witness :
  let plan := mkPlan [] ["/links/gone.png"] [] in
  let r := (executePlan plan EntryFile [("OLD", "/links/gone.png")]
              no_options disk_only_A).1 in
  removed r = 0 ∧ errors r = [].
Proof.
  cbn zeta.
  destruct (removal_tolerance (mkPlan [] ["/links/gone.png"] []) EntryFile
              [("OLD", "/links/gone.png")] no_options disk_only_A)
    as (_ & _ & _ & _ & Hdrop).
  destruct (Hdrop [] "/links/gone.png" [] eq_refl) as [Hremoved Herrors].
  split; [exact Hremoved|reflexivity].
Defined.

(** C8 fails as stated for probes: a probe that is rejected for another
    reason than absence is swallowed by [.catch(() => null)] and leaves no
    error. *)
Lemma rejected_probe_is_not_reported :
  let plan := mkPlan [] ["/links/locked.png"] [] in
  fs_lstat "/links/locked.png" disk_locked = (Rejected EACCES, disk_locked)
  ∧ errors (executePlan plan EntryFile [("OLD", "/links/locked.png")]
              no_options disk_locked).1 = [].
Proof. split; reflexivity. Qed.

Lemma failures_are_reported_witness :
  let plan := mkPlan [(item_x_A, "/links/x.png")] ["/links/locked.png"] [] in
  mkSyncError (Some item_x_A) None EPERM
  ∈ errors (executePlan plan EntryFile [("OLD", "/links/locked.png")]
              no_options disk_locked).1.
Proof.
  cbn zeta.
  destruct (failures_are_reported
              (mkPlan [(item_x_A, "/links/x.png")] ["/links/locked.png"] [])
              EntryFile [("OLD", "/links/locked.png")] no_options disk_locked)
    as (_ & _ & _ & _ & Hcreate).
  apply (Hcreate (item_x_A, "/links/x.png") EPERM).
  vm_compute. left.
Defined.

Lemma partial_failure_accounting_witness :
  let plan :=
    mkPlan [(item_x_A, "/links/x.png"); (item_x_B, "/links/x (BBBBBBBB).png")]
           [] [] in
  let r := (executePlan plan EntryFile [] no_options disk_only_A).1 in
  length (toCreate plan) = 2
  ∧ created r = 1 ∧ skipped r = 1 ∧ removed r = 0 ∧ errors r = []
  ∧ newIndex r = [("AAAAAAAA1111", "/links/x.png")].
Proof.
  cbn zeta.
  apply (partial_failure_accounting
           (mkPlan [(item_x_A, "/links/x.png");
                    (item_x_B, "/links/x (BBBBBBBB).png")] [] [])
           EntryFile [] no_options disk_only_A
           (item_x_A, "/links/x.png") (item_x_B, "/links/x (BBBBBBBB).png"));
    [reflexivity|reflexivity|left; reflexivity].
Defined.

(** The scenario of C6 in copy mode. *)
Example partial_failure_copy_mode :
  let plan :=
    mkPlan [(item_x_B, "/links/x.png"); (item_x_A, "/links/x (AAAAAAAA).png")]
           [] [] in
  let r := (executePlan plan Copy index_old no_options disk_only_A).1 in
  created r = 1 ∧ skipped r = 1 ∧ errors r = []
  ∧ newIndex r
    = [("OLD", "/links/old.png"); ("AAAAAAAA1111", "/links/x (AAAAAAAA).png")].
Proof. by vm_compute. Qed.

(** ** Objects: assignment and deletion *)

Section ObjFacts.
Import Obj.

Lemma has_key_spec k (o : t) : has_key k o = true ↔ k ∈ keys o.
Proof.
  unfold has_key, keys. rewrite existsb_exists, list_elem_of_In, in_map_iff.
  split; intros ([k' v] & H1 & H2); exists (k', v); simpl in *.
  - by apply String.eqb_eq in H2 as ->.
  - subst. by rewrite String.eqb_refl.
Qed.

Lemma has_key_false k (o : t) : has_key k o = false ↔ k ∉ keys o.
Proof.
  rewrite <- has_key_spec. by destruct (has_key k o).
Qed.

Lemma keys_app (o1 o2 : t) : keys (o1 ++ o2) = keys o1 ++ keys o2.
Proof. apply map_app. Qed.

Lemma keys_update k v (o : t) : keys (update k v o) = keys o.
Proof.
  induction o as [|[k' v'] o IH]; [done|]. simpl.
  destruct (String.eqb k' k); simpl; by rewrite ?IH.
Qed.

Lemma elem_of_update k v (o : t) e :
  e ∈ update k v o → e ∈ o ∨ e = (k, v).
Proof.
  induction o as [|[k' v'] o IH]; [by intros ?%elem_of_nil|]. simpl.
  destruct (String.eqb k' k) eqn:Hk.
  - apply String.eqb_eq in Hk as ->.
    intros [->|?]%elem_of_cons; [by right|left; by right].
  - intros [->|?]%elem_of_cons; [left; by left|].
    destruct (IH H) as [?|?]; [left; by right|by right].
Qed.

Lemma elem_of_place_index n k v (o : t) e :
  e ∈ place_index n k v o ↔ e = (k, v) ∨ e ∈ o.
Proof.
  induction o as [|[k' v'] o IH]; simpl.
  - rewrite list_elem_of_singleton, elem_of_nil. tauto.
  - destruct (array_index k') as [n'|]; [destruct (n' <? n)%N|];
      rewrite ?elem_of_cons, ?IH, ?elem_of_cons; tauto.
Qed.

Lemma elem_of_set k v (o : t) e : e ∈ set k v o → e ∈ o ∨ e = (k, v).
Proof.
  unfold set. destruct (has_key k o); [apply elem_of_update|].
  destruct (String.eqb k "__proto__"); [by left|].
  destruct (array_index k).
  - rewrite elem_of_place_index. tauto.
  - rewrite elem_of_app, list_elem_of_singleton. tauto.
Qed.

Lemma elem_of_delete k (o : t) e : e ∈ delete k o → e ∈ o.
Proof.
  unfold delete. rewrite !list_elem_of_In, filter_In. tauto.
Qed.

Lemma delete_app k (o1 o2 : t) : delete k (o1 ++ o2) = delete k o1 ++ delete k o2.
Proof. apply List.filter_app. Qed.

Lemma delete_absent k (o : t) : k ∉ keys o → delete k o = o.
Proof.
  induction o as [|[k' v'] o IH]; [done|]. simpl.
  rewrite not_elem_of_cons. intros [Hne Hnot].
  destruct (String.eqb k' k) eqn:Hk.
  - apply String.eqb_eq in Hk. congruence.
  - simpl. by rewrite IH.
Qed.

Lemma has_key_delete_ne k k' (o : t) :
  k ≠ k' → has_key k (delete k' o) = has_key k o.
Proof.
  intros Hne. induction o as [|[k1 v1] o IH]; [done|]. simpl.
  destruct (String.eqb k1 k') eqn:Hk'; simpl.
  - apply String.eqb_eq in Hk' as ->.
    rewrite (proj2 (String.eqb_neq k' k)) by done. by rewrite IH.
  - by rewrite IH.
Qed.

Lemma delete_update k v k' (o : t) :
  k ≠ k' → delete k' (update k v o) = update k v (delete k' o).
Proof.
  intros Hne. induction o as [|[k1 v1] o IH]; [done|]. simpl.
  destruct (String.eqb k1 k) eqn:Hk; simpl.
  - apply String.eqb_eq in Hk as ->.
    rewrite (proj2 (String.eqb_neq k k')) by done. simpl.
    by rewrite String.eqb_refl.
  - destruct (String.eqb k1 k'); simpl; by rewrite ?Hk, IH.
Qed.

Lemma place_index_stops n k v (o : t) :
  Forall (stops n) (keys o) → place_index n k v o = (k, v) :: o.
Proof.
  destruct o as [|[k1 v1] o]; [done|]. simpl.
  intros Hall. inversion_clear Hall as [|?? Hk1 _]. unfold stops in Hk1.
  destruct (array_index k1); by rewrite ?Hk1.
Qed.

Lemma stops_key_le n k1 k2 : stops n k1 → key_le k1 k2 → stops n k2.
Proof.
  unfold stops, key_le.
  destruct (array_index k1), (array_index k2); try done.
  rewrite !N.ltb_ge. lia.
Qed.

Lemma keys_delete_sub k (o : t) k' : k' ∈ keys (delete k o) → k' ∈ keys o.
Proof.
  unfold keys. rewrite !list_elem_of_In, !in_map_iff.
  intros (e & He & Hin). exists e. split; [done|].
  apply list_elem_of_In. eapply elem_of_delete. by apply list_elem_of_In.
Qed.

Lemma delete_place_index n k v k' (o : t) :
  k ≠ k' → enumeration_order (keys o) →
  delete k' (place_index n k v o) = place_index n k v (delete k' o).
Proof.
  intros Hne. induction o as [|[k1 v1] o IH]; intros Hsorted.
  { simpl. by rewrite (proj2 (String.eqb_neq k k')). }
  destruct Hsorted as [Hle Hsorted]. specialize (IH Hsorted).
  assert (stops n k1 → Forall (stops n) (keys (delete k' o))) as Hstops.
  { intros Hk1. apply Forall_forall. intros k2 Hk2%keys_delete_sub.
    eapply stops_key_le; [exact Hk1|].
    by eapply (proj1 (Forall_forall _ _) Hle). }
  assert (stops n k1 →
          delete k' ((k, v) :: (k1, v1) :: o)
          = place_index n k v (delete k' ((k1, v1) :: o))) as Hstop_case.
  { intros Hk1. rewrite place_index_stops.
    - simpl. by rewrite (proj2 (String.eqb_neq k k')).
    - simpl. destruct (String.eqb k1 k'); simpl; [by apply Hstops|].
      constructor; [done|by apply Hstops]. }
  simpl place_index. destruct (array_index k1) as [n1|] eqn:Hidx.
  - destruct (n1 <? n)%N eqn:Hlt.
    + simpl. destruct (String.eqb k1 k'); simpl; [done|].
      by rewrite Hidx, Hlt, IH.
    + apply Hstop_case. unfold stops. by rewrite Hidx.
  - apply Hstop_case. unfold stops. by rewrite Hidx.
Qed.

Lemma key_le_trans k1 k2 k3 : key_le k1 k2 → key_le k2 k3 → key_le k1 k3.
Proof.
  unfold key_le.
  destruct (array_index k1), (array_index k2), (array_index k3); try done.
  lia.
Qed.

Lemma enumeration_order_delete k (o : t) :
  enumeration_order (keys o) → enumeration_order (keys (delete k o)).
Proof.
  induction o as [|[k1 v1] o IH]; [done|]. intros [Hle Hsorted]. simpl.
  destruct (String.eqb k1 k); simpl; [by apply IH|].
  split; [|by apply IH].
  apply Forall_forall. intros k2 Hk2%keys_delete_sub.
  by eapply (proj1 (Forall_forall _ _) Hle).
Qed.

Lemma keys_place_index n k v (o : t) k' :
  k' ∈ keys (place_index n k v o) → k' = k ∨ k' ∈ keys o.
Proof.
  unfold keys. rewrite !list_elem_of_In, !in_map_iff.
  intros ([k2 v2] & <- & Hin%list_elem_of_In%elem_of_place_index).
  destruct Hin as [[= -> ->]|Hin]; [by left|right].
  exists (k2, v2). split; [done|by apply list_elem_of_In].
Qed.

Lemma enumeration_order_place_index n k v (o : t) :
  array_index k = Some n → enumeration_order (keys o) →
  enumeration_order (keys (place_index n k v o)).
Proof.
  intros Hk. induction o as [|[k1 v1] o IH]; [done|].
  intros [Hle Hsorted]. simpl.
  assert (stops n k1 → enumeration_order (k :: k1 :: keys o)) as Hstop.
  { intros Hk1. split; [|done].
    assert (key_le k k1) as Hkk1.
    { unfold stops, key_le in *. rewrite Hk.
      destruct (array_index k1); [|done]. apply N.ltb_ge in Hk1. lia. }
    constructor; [done|].
    eapply Forall_impl; [exact Hle|]. intros k2. by apply key_le_trans. }
  destruct (array_index k1) as [n1|] eqn:Hidx.
  - destruct (n1 <? n)%N eqn:Hlt.
    + simpl. split; [|by apply IH].
      apply Forall_forall. intros k2 [->|Hk2]%keys_place_index.
      * unfold key_le. rewrite Hidx, Hk. apply N.ltb_lt in Hlt. lia.
      * by eapply (proj1 (Forall_forall _ _) Hle).
    + apply Hstop. unfold stops. by rewrite Hidx.
  - apply Hstop. unfold stops. by rewrite Hidx.
Qed.

Lemma enumeration_order_snoc k (ks : list string) :
  array_index k = None → enumeration_order ks → enumeration_order (ks ++ [k]).
Proof.
  intros Hk. induction ks as [|k1 ks IH]; [done|]. intros [Hle Hsorted].
  simpl. split; [|by apply IH].
  apply Forall_app. split; [done|]. constructor; [|done].
  unfold key_le. rewrite Hk. by destruct (array_index k1).
Qed.

Lemma enumeration_order_set k v (o : t) :
  enumeration_order (keys o) → enumeration_order (keys (set k v o)).
Proof.
  intros Hsorted. unfold set.
  destruct (has_key k o); [by rewrite keys_update|].
  destruct (String.eqb k "__proto__"); [done|].
  destruct (array_index k) as [n|] eqn:Hk.
  - by apply enumeration_order_place_index.
  - rewrite keys_app. by apply enumeration_order_snoc.
Qed.

End ObjFacts.

(** ** Forgetting removed paths *)

Section IndexFacts.
Import Obj.

Lemma firstKeyWithPath_in r (o : t) k :
  firstKeyWithPath r o = Some k → (k, r) ∈ o.
Proof.
  induction o as [|[k1 p1] o IH]; [done|]. simpl.
  destruct (String.eqb p1 r) eqn:Hp.
  - apply String.eqb_eq in Hp as ->. intros [= ->]. by left.
  - intros Hk. right. by apply IH.
Qed.

Lemma firstKeyWithPath_none r (o : t) :
  firstKeyWithPath r o = None ↔ r ∉ map snd o.
Proof.
  induction o as [|[k1 p1] o IH]; simpl.
  - split; [intros _ ?%elem_of_nil|]; done.
  - rewrite not_elem_of_cons, <- IH.
    destruct (String.eqb p1 r) eqn:Hp.
    + apply String.eqb_eq in Hp. split; [done|]. intros [? _]. congruence.
    + apply String.eqb_neq in Hp. split; [|tauto]. intros ?. split; congruence.
Qed.

Lemma firstKeyWithPath_update r k v (o : t) :
  v ≠ r → (∀ p, (k, p) ∈ o → p ≠ r) →
  firstKeyWithPath r (update k v o) = firstKeyWithPath r o.
Proof.
  intros Hv. induction o as [|[k1 p1] o IH]; intros Hk; [done|]. simpl.
  destruct (String.eqb k1 k) eqn:Hk1; simpl.
  - apply String.eqb_eq in Hk1 as ->.
    rewrite (proj2 (String.eqb_neq v r)) by done.
    rewrite (proj2 (String.eqb_neq p1 r)); [done|]. apply Hk. by left.
  - rewrite IH; [done|]. intros p Hp. apply Hk. by right.
Qed.

Lemma firstKeyWithPath_place_index r n k v (o : t) :
  v ≠ r → firstKeyWithPath r (place_index n k v o) = firstKeyWithPath r o.
Proof.
  intros Hv. induction o as [|[k1 p1] o IH]; simpl.
  - by rewrite (proj2 (String.eqb_neq v r)).
  - destruct (array_index k1) as [n1|]; [destruct (n1 <? n)%N|]; simpl;
      rewrite ?IH, ?(proj2 (String.eqb_neq v r)); done.
Qed.

Lemma firstKeyWithPath_app r (o1 o2 : t) :
  firstKeyWithPath r (o1 ++ o2)
  = match firstKeyWithPath r o1 with
    | Some k => Some k
    | None => firstKeyWithPath r o2
    end.
Proof.
  induction o1 as [|[k1 p1] o1 IH]; [done|]. simpl.
  by destruct (String.eqb p1 r).
Qed.

Lemma firstKeyWithPath_set r k v (o : t) :
  v ≠ r → (∀ p, (k, p) ∈ o → p ≠ r) →
  firstKeyWithPath r (set k v o) = firstKeyWithPath r o.
Proof.
  intros Hv Hk. unfold set.
  destruct (has_key k o); [by apply firstKeyWithPath_update|].
  destruct (String.eqb k "__proto__"); [done|].
  destruct (array_index k); [by apply firstKeyWithPath_place_index|].
  rewrite firstKeyWithPath_app. simpl.
  rewrite (proj2 (String.eqb_neq v r)) by done.
  by destruct (firstKeyWithPath r o).
Qed.

(** Setting a property whose old and new values are not the removed path
    commutes with forgetting that path. *)
Lemma dropPath_set r k v (o : t) :
  enumeration_order (keys o) → v ≠ r → (∀ p, (k, p) ∈ o → p ≠ r) →
  dropPath (set k v o) r = set k v (dropPath o r).
Proof.
  intros Hsorted Hv Hk. unfold dropPath.
  rewrite firstKeyWithPath_set by done.
  destruct (firstKeyWithPath r o) as [k'|] eqn:Hfirst; [|done].
  assert (k ≠ k') as Hne.
  { intros ->. by eapply (Hk r); [apply firstKeyWithPath_in|]. }
  unfold set. rewrite has_key_delete_ne by done.
  destruct (has_key k o); [by apply delete_update|].
  destruct (String.eqb k "__proto__"); [done|].
  destruct (array_index k); [by apply delete_place_index|].
  rewrite delete_app. simpl.
  by rewrite (proj2 (String.eqb_neq k k')).
Qed.

Lemma enumeration_order_dropPath r (o : t) :
  enumeration_order (keys o) → enumeration_order (keys (dropPath o r)).
Proof.
  intros Hsorted. unfold dropPath.
  destruct (firstKeyWithPath r o); [|done].
  by apply enumeration_order_delete.
Qed.

Lemma dropPaths_set rs k v (o : t) :
  enumeration_order (keys o) → v ∉ rs → (∀ p, (k, p) ∈ o → p ∉ rs) →
  dropPaths rs (set k v o) = set k v (dropPaths rs o).
Proof.
  revert o. induction rs as [|r rs IH]; intros o Hsorted Hv Hk; [done|].
  apply not_elem_of_cons in Hv as [Hvr Hv]. unfold dropPaths in *. simpl.
  rewrite dropPath_set; [|done..|].
  - apply IH; [by apply enumeration_order_dropPath|done|].
    intros p Hp. assert ((k, p) ∈ o) as Hin.
    { unfold dropPath in Hp. destruct (firstKeyWithPath r o); [|done].
      by eapply elem_of_delete. }
    specialize (Hk p Hin). by apply not_elem_of_cons in Hk as [_ ?].
  - intros p Hp. specialize (Hk p Hp).
    by apply not_elem_of_cons in Hk as [? _].
Qed.

(** Adding created entries whose paths are not removed commutes with
    forgetting the removed paths. *)
Lemma dropPaths_addCreated rs (cs : list (SyncItem * string)) (o : t) :
  enumeration_order (keys o) →
  (∀ c, c ∈ cs → c.2 ∉ rs) →
  (∀ c p, c ∈ cs → (id c.1, p) ∈ o → p ∉ rs) →
  dropPaths rs (fold_left addCreated cs o)
  = fold_left addCreated cs (dropPaths rs o).
Proof.
  revert o. induction cs as [|c cs IH]; intros o Hsorted Hpaths Hold; [done|].
  simpl. rewrite IH.
  - unfold addCreated at 2 4. rewrite dropPaths_set; [done|done|..].
    + apply Hpaths. by left.
    + intros p. apply Hold. by left.
  - by apply enumeration_order_set.
  - intros c' Hc'. apply Hpaths. by right.
  - intros c' p Hc' [Hin|[= _ ->]]%elem_of_set.
    + eapply Hold; [by right|done].
    + apply Hpaths. by left.
Qed.

End IndexFacts.

(** ** The index after a run in which every creation succeeds *)

Lemma countCreation_le o cs : countCreation o cs ≤ length cs.
Proof.
  induction cs as [|[c o'] cs IH]; [done|].
  rewrite countCreation_cons. simpl. case_bool_decide; lia.
Qed.

Lemma createdEntries_all cs :
  countCreation Created cs = length cs → createdEntries cs = map fst cs.
Proof.
  induction cs as [|[c o] cs IH]; [done|].
  rewrite countCreation_cons. pose proof (countCreation_le Created cs).
  destruct o; simpl; try lia.
  intros Hlen. f_equal. apply IH. lia.
Qed.

Section AllCreated.
Context {cm : Js.CaseMapping} {pf : Path.Flavour} {W : Type} `{FileSystem W}.

Lemma newIndex_all_created plan mode currentIndex options (w : W) :
  created (executePlan plan mode currentIndex options w).1
  = length (toCreate plan) →
  newIndex (executePlan plan mode currentIndex options w).1
  = dropPaths (toRemove plan)
      (fold_left addCreated (toCreate plan) currentIndex).
Proof.
  rewrite executePlan_trace. unfold runTrace.
  destruct (removalTrace (toRemove plan) w) as [rs w1].
  pose proof (creationTrace_entries mode options (toCreate plan) w1) as Hc.
  destruct (creationTrace mode options (toCreate plan) w1) as [cs w2].
  cbn [fst snd created newIndex] in *. intros Hall.
  rewrite <- Hc, length_map in Hall.
  by rewrite (createdEntries_all _ Hall), Hc.
Qed.

End AllCreated.

Section IndexAgreement.
Context {cm : Js.CaseMapping} {pf : Path.Flavour} {W : Type} `{FileSystem W}.

(** When every planned creation succeeds, no created path is among the
    removed paths and no created id is a key of the previous index, the
    index returned by the executor equals [buildNewIndex previousIndex
    plan].  (Sufficient conditions only: the two also agree on other
    plans.) *)
Lemma newIndex_buildNewIndex_disjoint (plan : SyncPlan)
    (mode : SyncMode) (currentIndex : SyncIndex)
    (options : ExecuteOptions) (w : W) :
  let r := (executePlan plan mode currentIndex options w).1 in
  Obj.wf currentIndex →
  created r = length (toCreate plan) →
  (∀ c, c ∈ toCreate plan → c.2 ∉ toRemove plan) →
  (∀ c, c ∈ toCreate plan → id c.1 ∉ Obj.keys currentIndex) →
  newIndex r = buildNewIndex currentIndex plan.
Proof.
  cbn zeta. intros [_ Hsorted] Hall Hpaths Hfresh.
  rewrite newIndex_all_created by done. unfold buildNewIndex.
  apply dropPaths_addCreated; [done..|].
  intros c p Hc Hin. exfalso. apply (Hfresh c Hc).
  unfold Obj.keys. apply list_elem_of_In, in_map_iff.
  exists (id c.1, p). split; [done|by apply list_elem_of_In].
Qed.

End IndexAgreement.

(** C9 fails on the code.  The link of item [5] exists and is indexed;
    item [3], which has the same name, is now the only desired item.  The
    computed plan removes the link and creates it again for item [3], and
    every operation succeeds.  The executor adds the entry of item [3] and
    then forgets the removed path by deleting the first entry that has it:
    that is the entry it has just added, because the key [3] is enumerated
    before the key [5].  It returns the stale entry of item [5], where
    [buildNewIndex] returns the entry of item [3]. *)
Theorem executor_and_buildNewIndex_disagree :
  let plan :=
    computeSyncPlan (pf := Path.Win32) [win_item_3] win_index_5 EntryFile
      "C:\Links" in
  let r :=
    (executePlan (pf := Path.Win32) plan EntryFile win_index_5 win_options
       win_disk).1 in
  plan = mkPlan [(win_item_3, "C:\Links\x.png")] ["C:\Links\x.png"] []
  ∧ created r = 1 ∧ removed r = 1 ∧ skipped r = 0 ∧ errors r = []
  ∧ newIndex r = [("5", "C:\Links\x.png")]
  ∧ buildNewIndex win_index_5 plan = [("3", "C:\Links\x.png")].
Proof. by vm_compute. Qed.

(** The same happens for a plan that removes the very path it creates,
    whatever the ids. *)
Example executor_forgets_what_it_created :
  let r := (executePlan plan_create_and_remove EntryFile [] no_options
              disk_only_A).1 in
  created r = length (toCreate plan_create_and_remove)
  ∧ skipped r = 0 ∧ errors r = []
  ∧ newIndex r = []
  ∧ buildNewIndex [] plan_create_and_remove
    = [("AAAAAAAA1111", "/links/x.png")].
Proof. by vm_compute. Qed.

(** With ordinary ids the executor and [buildNewIndex] agree on a plan
    that reuses the name of a removed entry. *)
Example executor_and_buildNewIndex_agree_on_reuse :
  let plan := computeSyncPlan [item_x_A] [("OLD", "/links/x.png")] EntryFile
                "/links" in
  let r := (executePlan plan EntryFile [("OLD", "/links/x.png")] no_options
              disk_only_A).1 in
  plan = mkPlan [(item_x_A, "/links/x.png")] ["/links/x.png"] []
  ∧ newIndex r = [("AAAAAAAA1111", "/links/x.png")]
  ∧ buildNewIndex [("OLD", "/links/x.png")] plan = newIndex r.
Proof. by vm_compute. Qed.

(** C10 fails on the code, by the same defect.  In the situation of C9, in
    entry-file and in copy mode, the one planned creation is observed as
    created and counted in [created], and the counts add up to the length
    of [toCreate]; but the id of the created item is not a key of the index
    that is returned. *)
Theorem created_entry_is_not_indexed :
  let plan :=
    computeSyncPlan (pf := Path.Win32) [win_item_3] win_index_5 EntryFile
      "C:\Links" in
  Forall (λ mode,
            let r :=
              (executePlan (pf := Path.Win32) plan mode win_index_5
                 win_options win_disk).1 in
            (runTrace (pf := Path.Win32) plan mode win_options win_disk).2
            = [((win_item_3, "C:\Links\x.png"), Created)]
            ∧ created r = 1 ∧ skipped r = 0 ∧ errors r = []
            ∧ created r + (skipped r - length (plan_skipped plan))
              + length (itemErrors (errors r)) = length (toCreate plan)
            ∧ id win_item_3 ∉ Obj.keys (newIndex r))
    [EntryFile; Copy].
Proof.
  cbn zeta. repeat constructor; try (by vm_compute).
  all: apply (bool_decide_unpack _); by vm_compute.
Qed.

(** ** Running the plan computed from the index *)

Section ReplanFacts.
Import Obj.
Context {cm : Js.CaseMapping} {pf : Path.Flavour}.

Lemma has_key_app_fresh k (o1 o2 : t) :
  k ∉ keys o1 → has_key k (o1 ++ o2) = has_key k o2.
Proof.
  intros Hk%has_key_false. unfold has_key in *.
  by rewrite existsb_app, Hk.
Qed.

Lemma update_app_fresh k v (o1 o2 : t) :
  k ∉ keys o1 → update k v (o1 ++ o2) = o1 ++ update k v o2.
Proof.
  induction o1 as [|[k1 v1] o1 IH]; [done|]. simpl.
  rewrite not_elem_of_cons. intros [Hne Hk].
  rewrite (proj2 (String.eqb_neq k1 k)) by done. by rewrite IH.
Qed.

Lemma set_app_fresh k v (o1 o2 : t) :
  ordinary_key k → k ∉ keys o1 → set k v (o1 ++ o2) = o1 ++ set k v o2.
Proof.
  intros [Hidx Hproto] Hk. unfold set.
  rewrite has_key_app_fresh by done.
  destruct (has_key k o2); [by apply update_app_fresh|].
  rewrite (proj2 (String.eqb_neq k "__proto__")) by done.
  by rewrite Hidx, app_assoc.
Qed.

Lemma keys_set_ordinary k v (o : t) k' :
  ordinary_key k → k' ∈ keys (set k v o) ↔ k' ∈ keys o ∨ k' = k.
Proof.
  intros [Hidx Hproto]. unfold set.
  destruct (has_key k o) eqn:Hhas.
  - rewrite keys_update. apply has_key_spec in Hhas.
    split; [by left|]. by intros [?| ->].
  - rewrite (proj2 (String.eqb_neq k "__proto__")) by done.
    rewrite Hidx, keys_app, elem_of_app. simpl.
    by rewrite list_elem_of_singleton.
Qed.

Lemma addCreated_app_fresh (cs : list (SyncItem * string)) (o1 o2 : t) :
  (∀ c, c ∈ cs → ordinary_key (id c.1) ∧ id c.1 ∉ keys o1) →
  fold_left addCreated cs (o1 ++ o2) = o1 ++ fold_left addCreated cs o2.
Proof.
  revert o2. induction cs as [|c cs IH]; intros o2 Hcs; [done|]. simpl.
  unfold addCreated at 2 4.
  destruct (Hcs c) as [Hord Hfresh]; [by left|].
  rewrite set_app_fresh by done. apply IH.
  intros c' Hc'. apply Hcs. by right.
Qed.

Lemma keys_addCreated (cs : list (SyncItem * string)) (o : t) k :
  (∀ c, c ∈ cs → ordinary_key (id c.1)) →
  k ∈ keys (fold_left addCreated cs o)
  ↔ k ∈ keys o ∨ k ∈ map (λ c, id c.1) cs.
Proof.
  revert o. induction cs as [|c cs IH]; intros o Hcs; simpl.
  - rewrite elem_of_nil. tauto.
  - rewrite IH by (intros c' Hc'; apply Hcs; by right).
    unfold addCreated at 1. rewrite keys_set_ordinary by (apply Hcs; by left).
    rewrite elem_of_cons. tauto.
Qed.

(** Forgetting the paths of the entries that are no longer desired, when
    the index has neither two entries for a key nor two entries with the
    same path, removes exactly those entries. *)
Lemma dropPaths_planRemovals (ids : gset string) (K R C : t) :
  (∀ k, k ∈ keys K → k ∈ ids) →
  (∀ k, k ∈ keys C → k ∈ ids) →
  NoDup (keys (K ++ R)) → NoDup (map snd (K ++ R)) →
  dropPaths (planRemovals ids R) (K ++ R ++ C)
  = K ++ keptEntries ids R ++ C.
Proof.
  revert K. induction R as [|[k p] R IH]; intros K HK HC Hkeys Hpaths; [done|].
  simpl. case_bool_decide as Hk.
  - replace (K ++ (k, p) :: R ++ C) with ((K ++ [(k, p)]) ++ R ++ C)
      by (by rewrite <- app_assoc).
    rewrite IH; [by rewrite <- app_assoc| |done| |].
    + intros k'. rewrite keys_app, elem_of_app. simpl.
      rewrite list_elem_of_singleton. intros [?| ->]; [by apply HK|done].
    + by rewrite <- app_assoc.
    + by rewrite <- app_assoc.
  - unfold dropPaths. simpl. fold (dropPaths (planRemovals ids R)).
    rewrite keys_app in Hkeys. rewrite map_app in Hpaths. simpl in Hkeys, Hpaths.
    apply NoDup_app in Hkeys as (HKk & HKR & HRk).
    apply NoDup_app in Hpaths as (HKp & HKRp & HRp).
    apply NoDup_cons in HRk as [HkR HRk].
    apply NoDup_cons in HRp as [HpR HRp].
    assert (k ∉ keys K) as HkK.
    { intros Hin. apply (HKR k Hin). by left. }
    assert (p ∉ map snd K) as HpK.
    { intros Hin. apply (HKRp p Hin). by left. }
    assert (dropPath (K ++ (k, p) :: R ++ C) p = K ++ R ++ C) as ->.
    { unfold dropPath. rewrite firstKeyWithPath_app.
      rewrite (proj2 (firstKeyWithPath_none p K) HpK). simpl.
      rewrite String.eqb_refl.
      rewrite delete_app. simpl. rewrite String.eqb_refl. simpl.
      rewrite delete_app, !delete_absent; [done|..|done|done].
      intros Hin. by apply Hk, HC. }
    apply IH; [done|done|..].
    + rewrite keys_app. apply NoDup_app. split; [done|]. split; [|done].
      intros k' Hk' Hin. apply (HKR k' Hk'). by right.
    + rewrite map_app. apply NoDup_app. split; [done|]. split; [|done].
      intros p' Hp' Hin. apply (HKRp p' Hp'). by right.
Qed.

Lemma keys_keptEntries (ids : gset string) (o : t) k :
  k ∈ keys (keptEntries ids o) ↔ k ∈ keys o ∧ k ∈ ids.
Proof.
  unfold keys, keptEntries. rewrite !list_elem_of_In, !in_map_iff. split.
  - intros (e & <- & [Hin Hids%bool_decide_eq_true]%filter_In).
    split; [by exists e|done].
  - intros [(e & <- & Hin) Hids]. exists e. split; [done|].
    apply filter_In. split; [done|by apply bool_decide_eq_true].
Qed.

Lemma planCreations_nil indexedIds targetDir mode items names :
  (∀ item, item ∈ items → id item ∈ indexedIds) →
  planCreations indexedIds targetDir mode items names = [].
Proof.
  revert names. induction items as [|item items IH]; intros names Hall; [done|].
  simpl. rewrite bool_decide_eq_true_2 by (apply Hall; by left).
  apply IH. intros item' Hin. apply Hall. by right.
Qed.

Lemma planRemovals_nil (filteredIds : gset string) (entries : t) :
  (∀ k, k ∈ keys entries → k ∈ filteredIds) →
  planRemovals filteredIds entries = [].
Proof.
  induction entries as [|[k v] entries IH]; intros Hall; [done|].
  simpl. rewrite bool_decide_eq_true_2 by (apply Hall; by left).
  apply IH. intros k' Hin. apply Hall. by right.
Qed.

(** The index left by a fully successful run of the computed plan: the
    kept entries followed by the created ones. *)
Lemma replan_index (items : list SyncItem) (currentIndex : SyncIndex)
    (mode : SyncMode) (targetDir : string) :
  NoDup (keys currentIndex) → NoDup (map snd currentIndex) →
  Forall (λ item, ordinary_key (id item)) items →
  let plan := computeSyncPlan items currentIndex mode targetDir in
  ∀ k, k ∈ keys (dropPaths (toRemove plan)
                   (fold_left addCreated (toCreate plan) currentIndex))
       ↔ k ∈ map id items.
Proof.
  intros Hkeys Hpaths Hord plan k.
  assert (map fst (toCreate plan)
          = filter (λ item, id item ∉ (list_to_set (keys currentIndex)
                                        : gset string)) items) as Hcs
    by apply planCreations_items.
  assert (∀ c, c ∈ toCreate plan →
               c.1 ∈ items ∧ id c.1 ∉ keys currentIndex) as Hcreated.
  { intros c Hc. assert (c.1 ∈ map fst (toCreate plan)) as Hc1.
    { apply list_elem_of_In, in_map. by apply list_elem_of_In. }
    rewrite Hcs in Hc1. apply list_elem_of_filter in Hc1 as [Hnot Hin].
    split; [done|]. by rewrite elem_of_list_to_set in Hnot. }
  assert (∀ c, c ∈ toCreate plan → ordinary_key (id c.1)) as Hcord.
  { intros c [Hin _]%Hcreated.
    by apply (proj1 (Forall_forall _ _) Hord). }
  set (C := fold_left addCreated (toCreate plan) []).
  assert (fold_left addCreated (toCreate plan) currentIndex
          = [] ++ currentIndex ++ C) as ->.
  { rewrite <- (app_nil_r currentIndex) at 1. simpl.
    apply addCreated_app_fresh. intros c Hc. split; [by apply Hcord|].
    by apply Hcreated. }
  assert (∀ k', k' ∈ keys C ↔ k' ∈ map (λ c, id c.1) (toCreate plan)) as HC.
  { intros k'. unfold C. rewrite keys_addCreated by done. simpl.
    rewrite elem_of_nil. tauto. }
  assert (∀ k', k' ∈ map (λ c, id c.1) (toCreate plan)
                ↔ k' ∈ map id items ∧ k' ∉ keys currentIndex) as Hids.
  { intros k'. rewrite <- (map_map fst id), Hcs. split.
    - intros (item & <- & Hin)%list_elem_of_In%in_map_iff.
      apply list_elem_of_In, list_elem_of_filter in Hin as [Hnot Hin].
      rewrite elem_of_list_to_set in Hnot.
      split; [|done]. apply list_elem_of_In, in_map. by apply list_elem_of_In.
    - intros [(item & <- & Hin)%list_elem_of_In%in_map_iff Hnot].
      apply list_elem_of_In, in_map, list_elem_of_In, list_elem_of_filter.
      rewrite elem_of_list_to_set. split; [done|by apply list_elem_of_In]. }
  unfold plan at 1. cbn [computeSyncPlan toRemove].
  rewrite dropPaths_planRemovals.
  - simpl. rewrite keys_app, elem_of_app, keys_keptEntries, HC, Hids.
    rewrite elem_of_list_to_set.
    destruct (decide (k ∈ keys currentIndex)); tauto.
  - by intros k' ?%elem_of_nil.
  - intros k' Hk'%HC%Hids. rewrite elem_of_list_to_set. tauto.
  - done.
  - done.
Qed.

End ReplanFacts.

(** C2 fails as stated: an item whose source file is missing is skipped,
    gets no index entry, and is planned again by the next run. *)
Lemma replan_after_skip_is_not_empty :
  let items := [item_x_B] in
  let plan := computeSyncPlan items [] EntryFile "/links" in
  let r := (executePlan plan EntryFile [] no_options disk_only_A).1 in
  skipped r = 1 ∧ errors r = []
  ∧ toCreate (computeSyncPlan items (newIndex r) EntryFile "/links")
    = [(item_x_B, "/links/x.png")].
Proof. by vm_compute. Qed.

Section IdempotenceClaim.
Context {cm : Js.CaseMapping} {pf : Path.Flavour} {W : Type} `{FileSystem W}.

(** C2, amended.  If the run of the computed plan creates every planned
    entry, the previous index has no two entries with the same path, and
    the desired ids are ordinary property names, then computing the plan
    again from the same desired items and the index returned by the run
    gives empty [toCreate] and [toRemove]. *)
Theorem computeSyncPlan_idempotent (items : list SyncItem)
    (currentIndex : SyncIndex) (mode : SyncMode) (targetDir : string)
    (options : ExecuteOptions) (w : W) :
  let plan := computeSyncPlan items currentIndex mode targetDir in
  let r := (executePlan plan mode currentIndex options w).1 in
  let plan' := computeSyncPlan items (newIndex r) mode targetDir in
  created r = length (toCreate plan) →
  NoDup (Obj.keys currentIndex) →
  NoDup (map snd currentIndex) →
  Forall (λ item, Obj.ordinary_key (id item)) items →
  toCreate plan' = [] ∧ toRemove plan' = [].
Proof.
  cbn zeta. intros Hall Hkeys Hpaths Hord.
  rewrite newIndex_all_created by done.
  pose proof (replan_index items currentIndex mode targetDir
                Hkeys Hpaths Hord) as Hindex. cbn zeta in Hindex.
  unfold computeSyncPlan at 1 4. cbn [toCreate toRemove]. split.
  - apply planCreations_nil. intros item Hin.
    rewrite elem_of_list_to_set. apply Hindex.
    apply list_elem_of_In, in_map. by apply list_elem_of_In.
  - apply planRemovals_nil. intros k Hk.
    rewrite elem_of_list_to_set. by apply Hindex.
Qed.

End IdempotenceClaim.

Lemma computeSyncPlan_idempotent_witness :
  let items := [item_x_A; item_x_B] in
  let plan := computeSyncPlan items index_old EntryFile "/links" in
  let r := (executePlan plan EntryFile index_old no_options disk_sources).1 in
  let plan' := computeSyncPlan items (newIndex r) EntryFile "/links" in
  toCreate plan' = [] ∧ toRemove plan' = [].
Proof.
  cbn zeta.
  apply (computeSyncPlan_idempotent [item_x_A; item_x_B] index_old EntryFile
           "/links" no_options disk_sources).
  - by vm_compute.
  - apply (bool_decide_unpack _). by vm_compute.
  - apply (bool_decide_unpack _). by vm_compute.
  - repeat constructor; by vm_compute.
Defined.

(** The two other hypotheses of the amended C2 are needed as well. *)

Example replan_with_shared_path :
  let plan := computeSyncPlan [item_keep] index_shared_path EntryFile "/links" in
  let r := (executePlan plan EntryFile index_shared_path no_options
              disk_sources).1 in
  created r = length (toCreate plan)
  ∧ newIndex r = [("DROP", "/links/k.png")]
  ∧ toCreate (computeSyncPlan [item_keep] (newIndex r) EntryFile "/links")
    ≠ [].
Proof. by vm_compute. Qed.

Example replan_with_array_index_id :
  let plan := computeSyncPlan [item_3] index_5 EntryFile "/links" in
  let r := (executePlan plan EntryFile index_5 no_options disk_sources).1 in
  created r = length (toCreate plan)
  ∧ newIndex r = [("5", "/links/x.png")]
  ∧ toCreate (computeSyncPlan [item_3] (newIndex r) EntryFile "/links") ≠ [].
Proof. by vm_compute. Qed.

(** * Further properties of the engine *)

(** ** [sanitizeFilename] *)

Lemma sanitize_char_valid c :
  existsb (Ascii.eqb (sanitize_char c)) INVALID_FILENAME_CHARS = false.
Proof.
  unfold sanitize_char.
  destruct (existsb (Ascii.eqb c) INVALID_FILENAME_CHARS) eqn:Hc; [reflexivity|done].
Qed.

Lemma sanitize_char_idem c : sanitize_char (sanitize_char c) = sanitize_char c.
Proof. unfold sanitize_char at 1. by rewrite sanitize_char_valid. Qed.

Lemma sanitizeFilename_no_invalid (itemName : string) (c : ascii) :
  In c INVALID_FILENAME_CHARS →
  Js.has_char c (sanitizeFilename itemName) = false.
Proof.
  intros Hc. unfold sanitizeFilename.
  induction itemName as [|c0 s IH]; [done|]. simpl. rewrite IH.
  destruct (Ascii.eqb c (sanitize_char c0)) eqn:Heq; [|done].
  apply Ascii.eqb_eq in Heq as ->.
  pose proof (sanitize_char_valid c0) as Hvalid.
  assert (existsb (Ascii.eqb (sanitize_char c0)) INVALID_FILENAME_CHARS = true)
    as Hin; [|congruence].
  apply existsb_exists. exists (sanitize_char c0).
  split; [done|apply Ascii.eqb_refl].
Qed.

(** X1.  A sanitized name contains none of the nine characters that are
    illegal in a Windows file name, is as long as the name it comes from,
    and is left unchanged by sanitizing it again. *)
Theorem sanitizeFilename_clean (itemName : string) :
  Forall (λ c, Js.has_char c (sanitizeFilename itemName) = false)
    INVALID_FILENAME_CHARS
  ∧ String.length (sanitizeFilename itemName) = String.length itemName
  ∧ sanitizeFilename (sanitizeFilename itemName) = sanitizeFilename itemName.
Proof.
  split; [|split].
  - apply List.Forall_forall. intros c Hc.
    by apply sanitizeFilename_no_invalid.
  - unfold sanitizeFilename. induction itemName as [|c0 s IH]; [done|].
    simpl. by rewrite IH.
  - unfold sanitizeFilename. induction itemName as [|c0 s IH]; [done|].
    simpl. by rewrite sanitize_char_idem, IH.
Qed.

(** ** The final component of a generated path *)

Lemma has_char_app c (a b : string) :
  Js.has_char c (a +:+ b) = Js.has_char c a || Js.has_char c b.
Proof.
  induction a as [|c0 a IH]; [done|]. rewrite string_app_cons. simpl.
  destruct (Ascii.eqb c c0); [done|exact IH].
Qed.

Lemma no_space_dots (s : string) :
  Js.has_char " " s = true → s ≠ "" ∧ s ≠ "." ∧ s ≠ "..".
Proof. intros Hs. repeat split; intros ->; done. Qed.

Lemma sanitize_char_not (c x : ascii) :
  In x INVALID_FILENAME_CHARS → Ascii.eqb (sanitize_char c) x = false.
Proof.
  intros Hx. destruct (Ascii.eqb (sanitize_char c) x) eqn:Heq; [|done].
  apply Ascii.eqb_eq in Heq. pose proof (sanitize_char_valid c) as Hvalid.
  assert (existsb (Ascii.eqb (sanitize_char c)) INVALID_FILENAME_CHARS = true)
    as Hin; [|congruence].
  apply existsb_exists. exists x. split; [done|]. by apply Ascii.eqb_eq.
Qed.

Section FinalComponent.
Context {cm : Js.CaseMapping} {pf : Path.Flavour}.

Lemma no_separator_sanitized (itemName : string) :
  Path.no_separator (sanitizeFilename itemName) = true.
Proof.
  unfold Path.no_separator, sanitizeFilename.
  induction itemName as [|c s IH]; [done|]. simpl. rewrite IH.
  unfold Path.isPathSeparator.
  destruct Path.platform;
    rewrite ?(sanitize_char_not c "/"), ?(sanitize_char_not c "\");
    simpl; tauto.
Qed.

(** A sanitized name followed by a dot or a space does not start like a
    drive. *)
Lemma undriven_sanitized (itemName : string) (r0 : ascii) (rest : string) :
  Ascii.eqb r0 ":" = false → Path.isWindowsDeviceRoot r0 = false →
  Path.undriven (sanitizeFilename itemName +:+ String r0 rest).
Proof.
  intros Hcolon Hdev. unfold Path.undriven, Path.after_drive.
  destruct Path.platform; [done|].
  assert (Path.drive_prefix (sanitizeFilename itemName +:+ String r0 rest)
          = None) as ->; [|done].
  unfold sanitizeFilename. destruct itemName as [|x [|y n]]; simpl;
    rewrite ?string_app_cons, ?string_app_nil_l.
  - destruct rest as [|r1 rest]; [done|].
    by rewrite drive_prefix_cons2, Hdev, andb_false_r.
  - by rewrite drive_prefix_cons2, Hcolon.
  - rewrite drive_prefix_cons2, (sanitize_char_not y ":"); [done|].
    simpl. tauto.
Qed.

Lemma undriven_baseName (item : SyncItem) : Path.undriven (baseNameOf item).
Proof. by apply undriven_sanitized. Qed.

Lemma undriven_suffixedName (item : SyncItem) :
  Path.undriven (suffixedNameOf item).
Proof. by apply undriven_sanitized. Qed.

Lemma plain_baseName (item : SyncItem) :
  Path.no_separator (ext item) = true →
  baseNameOf item ≠ "." → baseNameOf item ≠ ".." →
  Path.plain_segment (baseNameOf item).
Proof.
  intros Hext Hdot Hdots. repeat split; try done.
  - unfold baseNameOf. rewrite !no_separator_app, Hext, no_separator_sanitized.
    unfold Path.no_separator, Path.isPathSeparator. by destruct Path.platform.
  - unfold baseNameOf. by destruct (sanitizeFilename (name item)).
Qed.

Lemma plain_suffixedName (item : SyncItem) :
  Path.no_separator (ext item) = true →
  Path.no_separator (Js.toUpperCase (Js.slice0 8 (id item))) = true →
  Path.plain_segment (suffixedNameOf item).
Proof.
  intros Hext Hid.
  assert (Js.has_char " " (suffixedNameOf item) = true) as Hspace.
  { unfold suffixedNameOf. rewrite has_char_app. apply orb_true_iff. by right. }
  destruct (no_space_dots _ Hspace) as (? & ? & ?).
  repeat split; try done.
  unfold suffixedNameOf.
  rewrite !no_separator_app, Hext, Hid, no_separator_sanitized.
  unfold Path.no_separator, Path.isPathSeparator. by destruct Path.platform.
Qed.

Lemma generateTargetPath_file_mode (item : SyncItem) (targetDir : string)
    (mode : SyncMode) (existingNames : gset string) :
  mode ≠ EntryDir →
  generateTargetPath item targetDir mode existingNames
  = Path.join targetDir
      (if bool_decide (Js.toLowerCase (baseNameOf item) ∈ existingNames)
       then suffixedNameOf item else baseNameOf item).
Proof.
  intros Hmode.
  destruct mode; [done|..]; unfold generateTargetPath; fold (baseNameOf item);
    by case_bool_decide.
Qed.

(** X2.  In the two file modes, when the extension and the id part of the
    collision name contain no path separator and the base name is not a dot
    name, the final component of the generated path is the item's own name:
    the base name when it is free, the id-suffixed name when it is taken.
    Separators in the item name never create a sub-directory. *)
Theorem generateTargetPath_final_component (item : SyncItem)
    (targetDir : string) (mode : SyncMode) (existingNames : gset string) :
  mode ≠ EntryDir →
  Path.no_separator (ext item) = true →
  Path.no_separator (Js.toUpperCase (Js.slice0 8 (id item))) = true →
  baseNameOf item ≠ "." → baseNameOf item ≠ ".." →
  Path.basename (generateTargetPath item targetDir mode existingNames)
  = if bool_decide (Js.toLowerCase (baseNameOf item) ∈ existingNames)
    then suffixedNameOf item else baseNameOf item.
Proof.
  intros Hmode Hext Hid Hdot Hdots.
  rewrite generateTargetPath_file_mode by done.
  case_bool_decide; apply basename_join;
    [by apply plain_suffixedName|apply undriven_suffixedName
    |by apply plain_baseName|apply undriven_baseName].
Qed.

End FinalComponent.

Lemma generateTargetPath_final_component_witness :
  Path.basename (pf := Path.Win32)
    (generateTargetPath (pf := Path.Win32) item_slash "C:\Links" EntryFile
       {[ "x.png" ]})
  = "a_.._b_c_d.png".
Proof.
  rewrite (generateTargetPath_final_component (pf := Path.Win32) item_slash
             "C:\Links" EntryFile {[ "x.png" ]});
    [by vm_compute|done|reflexivity|reflexivity|done|done].
Defined.

(** ** Names are claimed in the order of the desired items *)

Lemma get_None_keys k (o : Obj.t) : Obj.get k o = None ↔ k ∉ Obj.keys o.
Proof.
  induction o as [|[k' v] o IH]; simpl.
  - split; [intros _ ?%elem_of_nil|]; done.
  - rewrite not_elem_of_cons. destruct (String.eqb k' k) eqn:Hk.
    + apply String.eqb_eq in Hk as ->. split; [done|]. by intros [? _].
    + apply String.eqb_neq in Hk. rewrite IH. split; [|tauto].
      intros ?. split; [congruence|done].
Qed.

Section FirstCome.
Context {cm : Js.CaseMapping} {pf : Path.Flavour}.

Lemma collectExisting_keptNames (currentIndex : SyncIndex)
    (items : list SyncItem) (acc : gset string) :
  collectExisting (list_to_set (Obj.keys currentIndex)) currentIndex items acc
  = keptNames items currentIndex ∪ acc.
Proof.
  revert acc. unfold keptNames.
  induction items as [|item items IH]; intros acc; simpl.
  - set_solver.
  - rewrite IH. destruct (Obj.get (id item) currentIndex) as [p|] eqn:Hget; simpl.
    + case_bool_decide as Hin; [set_solver|].
      rewrite elem_of_list_to_set in Hin.
      apply get_None_keys in Hin. congruence.
    + by case_bool_decide.
Qed.

Lemma planCreations_threading indexedIds targetDir mode items names l1 c l2 :
  planCreations indexedIds targetDir mode items names = l1 ++ c :: l2 →
  c.2 = generateTargetPath c.1 targetDir mode (plannedNames l1 ∪ names).
Proof.
  revert names l1. induction items as [|item items IH]; intros names l1 Hplan.
  { by destruct l1. }
  simpl in Hplan. case_bool_decide; [by apply IH|].
  destruct l1 as [|c0 l1]; simpl in Hplan.
  - injection Hplan as <- _. simpl. f_equal. unfold plannedNames. set_solver.
  - injection Hplan as <- Hplan. apply IH in Hplan. rewrite Hplan. f_equal.
    unfold plannedNames, nameInUse. simpl. set_solver.
Qed.

(** X3.  Every planned path is the one [generateTargetPath] gives against
    exactly the names of the kept index entries and of the entries planned
    before it: the first item, in the order supplied, to claim a name keeps
    it. *)
Theorem planned_paths_first_come (items : list SyncItem)
    (currentIndex : SyncIndex) (mode : SyncMode) (targetDir : string)
    (l1 l2 : list (SyncItem * string)) (c : SyncItem * string) :
  toCreate (computeSyncPlan items currentIndex mode targetDir) = l1 ++ c :: l2 →
  c.2 = generateTargetPath c.1 targetDir mode
          (plannedNames l1 ∪ keptNames items currentIndex).
Proof.
  unfold computeSyncPlan. cbn [toCreate]. intros Hplan.
  apply planCreations_threading in Hplan. rewrite Hplan. f_equal.
  rewrite collectExisting_keptNames. set_solver.
Qed.

(** X4.  In the two file modes, a planned entry whose final component
    equals, ignoring case, that of an earlier planned entry or of a kept
    index entry carries the id-suffixed name: a bare name is never given
    twice.  (The base name is assumed to be a single path component.) *)
Theorem bare_name_never_reused (items : list SyncItem)
    (currentIndex : SyncIndex) (mode : SyncMode) (targetDir : string)
    (l1 l2 : list (SyncItem * string)) (c : SyncItem * string) :
  mode ≠ EntryDir →
  toCreate (computeSyncPlan items currentIndex mode targetDir) = l1 ++ c :: l2 →
  Path.plain_segment (baseNameOf c.1) →
  nameInUse c.2 ∈ plannedNames l1 ∪ keptNames items currentIndex →
  c.2 = Path.join targetDir (suffixedNameOf c.1).
Proof.
  intros Hmode Hplan Hplain Hused.
  pose proof Hplan as Hc. unfold computeSyncPlan in Hc. cbn [toCreate] in Hc.
  apply planCreations_threading in Hc.
  rewrite collectExisting_keptNames in Hc.
  replace (plannedNames l1 ∪ (keptNames items currentIndex ∪ ∅))
    with (plannedNames l1 ∪ keptNames items currentIndex) in Hc by set_solver.
  rewrite generateTargetPath_file_mode in Hc by done.
  case_bool_decide as Hfree; [done|].
  exfalso. apply Hfree. rewrite Hc in Hused. unfold nameInUse in Hused at 1.
  by rewrite basename_join in Hused by (done || apply undriven_baseName).
Qed.

End FirstCome.

Lemma planned_paths_first_come_witness :
  "/links/x (BBBBBBBB).png"
  = generateTargetPath item_x_B "/links" EntryFile
      (plannedNames [] ∪ keptNames [item_x_A; item_x_B] index_two).
Proof.
  apply (planned_paths_first_come [item_x_A; item_x_B] index_two EntryFile "/links"
           [] [] (item_x_B, "/links/x (BBBBBBBB).png")).
  by vm_compute.
Defined.

Lemma bare_name_never_reused_witness :
  "C:\Links\x (BBBBBBBB).png"
  = Path.join (pf := Path.Win32) "C:\Links" (suffixedNameOf item_x_B').
Proof.
  apply (bare_name_never_reused (pf := Path.Win32)
           [item_x_A; item_x_B; item_x_B'] [] EntryFile "C:\Links"
           [(item_x_A, "C:\Links\x.png");
            (item_x_B, "C:\Links\x (BBBBBBBB).png")]
           [] (item_x_B', "C:\Links\x (BBBBBBBB).png")).
  - done.
  - by vm_compute.
  - repeat split; by vm_compute.
  - apply (bool_decide_unpack _). by vm_compute.
Defined.

(** On Windows the name of a kept entry is reserved whichever separator
    its indexed path is written with. *)
Example windows_kept_name_is_reserved :
  map (λ indexed,
         map snd (toCreate
                    (computeSyncPlan (pf := Path.Win32)
                       [createItem "ITEM1" "photo" "jpg";
                        createItem "ITEM2" "Photo" "JPG"]
                       [("ITEM1", indexed)] EntryFile "C:\Links")))
    ["C:\Links\photo.jpg"; "C:/Links/photo.jpg"]
  = [["C:\Links\Photo (ITEM2).JPG"]; ["C:\Links\Photo (ITEM2).JPG"]].
Proof. by vm_compute. Qed.

(** ** The plan at the edges *)

Lemma filter_all {A : Type} (P : A → Prop) `{!∀ x, Decision (P x)}
    (l : list A) :
  (∀ x, P x) → filter P l = l.
Proof.
  intros HP. induction l as [|x l IH]; [done|].
  rewrite filter_cons. case_decide as Hx; [by rewrite IH|].
  exfalso. apply Hx, HP.
Qed.

Section Edges.
Context {cm : Js.CaseMapping} {pf : Path.Flavour}.

(** X5.  Against an empty index every desired item is planned for creation,
    in the order supplied, and nothing is removed; with no desired item
    nothing is created and the path of every index entry is removed, in the
    order of the index. *)
Theorem computeSyncPlan_edges (items : list SyncItem)
    (currentIndex : SyncIndex) (mode : SyncMode) (targetDir : string) :
  map fst (toCreate (computeSyncPlan items [] mode targetDir)) = items
  ∧ toRemove (computeSyncPlan items [] mode targetDir) = []
  ∧ computeSyncPlan [] currentIndex mode targetDir
    = mkPlan [] (map snd currentIndex) [].
Proof.
  split; [|split].
  - unfold computeSyncPlan. cbn [toCreate Obj.keys map list_to_set].
    rewrite planCreations_items. apply filter_all. intros item. set_solver.
  - reflexivity.
  - unfold computeSyncPlan. cbn [planCreations collectExisting map list_to_set].
    f_equal. induction currentIndex as [|[k v] o IH]; [done|]. simpl.
    rewrite bool_decide_eq_false_2 by set_solver. by rewrite IH.
Qed.

End Edges.

(** ** [buildNewIndex] on the computed plan *)

Section BuildFacts.
Import Obj.
Context {cm : Js.CaseMapping} {pf : Path.Flavour}.

Lemma elem_of_keys k (o : t) : k ∈ keys o ↔ ∃ v, (k, v) ∈ o.
Proof.
  unfold keys. rewrite list_elem_of_In, in_map_iff. split.
  - intros ([k' v] & <- & Hin). exists v. by apply list_elem_of_In.
  - intros [v Hin]. exists (k, v). split; [done|by apply list_elem_of_In].
Qed.

Lemma elem_of_update_key k v (o : t) : k ∈ keys o → (k, v) ∈ update k v o.
Proof.
  induction o as [|[k' v'] o IH]; [by intros ?%elem_of_nil|]. simpl.
  destruct (String.eqb k' k) eqn:Hk.
  - apply String.eqb_eq in Hk as ->. intros _. by left.
  - apply String.eqb_neq in Hk. intros [?|Hin]%elem_of_cons; [congruence|].
    right. by apply IH.
Qed.

Lemma keys_set_iff k v (o : t) k' :
  k ≠ "__proto__" → k' ∈ keys (set k v o) ↔ k' ∈ keys o ∨ k' = k.
Proof.
  intros Hproto. unfold set. destruct (has_key k o) eqn:Hhas.
  - rewrite keys_update. apply has_key_spec in Hhas.
    split; [by left|]. by intros [?| ->].
  - rewrite (proj2 (String.eqb_neq k "__proto__")) by done.
    destruct (array_index k) as [n|].
    + rewrite !elem_of_keys. split.
      * intros [v' [[= -> ->]|Hin]%elem_of_place_index]; [by right|left; eauto].
      * intros [[v' Hin]| ->]; [exists v'|exists v];
          apply elem_of_place_index; auto.
    + rewrite keys_app, elem_of_app. simpl. by rewrite list_elem_of_singleton.
Qed.

Lemma get_update_ne k v k' (o : t) :
  k ≠ k' → get k' (update k v o) = get k' o.
Proof.
  intros Hne. induction o as [|[k1 v1] o IH]; [done|]. simpl.
  destruct (String.eqb k1 k) eqn:Hk1; simpl.
  - apply String.eqb_eq in Hk1 as ->.
    by rewrite (proj2 (String.eqb_neq k k')).
  - by rewrite IH.
Qed.

Lemma get_place_index_ne n k v k' (o : t) :
  k ≠ k' → get k' (place_index n k v o) = get k' o.
Proof.
  intros Hne. induction o as [|[k1 v1] o IH]; simpl.
  - by rewrite (proj2 (String.eqb_neq k k')).
  - destruct (array_index k1) as [n1|]; [destruct (n1 <? n)%N|]; simpl;
      rewrite ?IH, ?(proj2 (String.eqb_neq k k')); done.
Qed.

Lemma get_app (o1 o2 : t) k :
  get k (o1 ++ o2) = match get k o1 with Some v => Some v | None => get k o2 end.
Proof.
  induction o1 as [|[k1 v1] o1 IH]; [done|]. simpl.
  by destruct (String.eqb k1 k).
Qed.

Lemma get_set_ne k v k' (o : t) : k ≠ k' → get k' (set k v o) = get k' o.
Proof.
  intros Hne. unfold set.
  destruct (has_key k o); [by apply get_update_ne|].
  destruct (String.eqb k "__proto__"); [done|].
  destruct (array_index k); [by apply get_place_index_ne|].
  rewrite get_app. simpl. rewrite (proj2 (String.eqb_neq k k')) by done.
  by destruct (get k' o).
Qed.

Lemma get_addCreated_other (cs : list (SyncItem * string)) (o : t) k :
  k ∉ map (λ c, id c.1) cs → get k (fold_left addCreated cs o) = get k o.
Proof.
  revert o. induction cs as [|c cs IH]; intros o Hk; [done|]. simpl in *.
  apply not_elem_of_cons in Hk as [Hne Hk].
  rewrite IH by done. unfold addCreated. by apply get_set_ne.
Qed.

Lemma get_keptEntries (ids : gset string) (o : t) k :
  k ∈ ids → get k (keptEntries ids o) = get k o.
Proof.
  intros Hk. induction o as [|[k1 v1] o IH]; [done|]. simpl.
  case_bool_decide as Hk1; simpl.
  - by rewrite IH.
  - rewrite IH. destruct (String.eqb k1 k) eqn:Heq; [|done].
    apply String.eqb_eq in Heq. simpl in Hk1. congruence.
Qed.

Lemma keys_addCreated_iff (cs : list (SyncItem * string)) (o : t) k :
  (∀ c, c ∈ cs → id c.1 ≠ "__proto__") →
  k ∈ keys (fold_left addCreated cs o)
  ↔ k ∈ keys o ∨ k ∈ map (λ c, id c.1) cs.
Proof.
  revert o. induction cs as [|c cs IH]; intros o Hcs; simpl.
  - rewrite elem_of_nil. tauto.
  - rewrite IH by (intros c' Hc'; apply Hcs; by right).
    unfold addCreated at 1. rewrite keys_set_iff by (apply Hcs; by left).
    rewrite elem_of_cons. tauto.
Qed.

Lemma buildNewIndex_computed (items : list SyncItem) (currentIndex : SyncIndex)
    (mode : SyncMode) (targetDir : string) :
  NoDup (keys currentIndex) → NoDup (map snd currentIndex) →
  buildNewIndex currentIndex (computeSyncPlan items currentIndex mode targetDir)
  = fold_left addCreated
      (toCreate (computeSyncPlan items currentIndex mode targetDir))
      (keptEntries (list_to_set (map id items)) currentIndex).
Proof.
  intros Hkeys Hpaths. unfold buildNewIndex. f_equal.
  unfold computeSyncPlan. cbn [toRemove].
  pose proof (dropPaths_planRemovals (list_to_set (map id items))
                [] currentIndex []) as Hdrop.
  simpl in Hdrop. rewrite !app_nil_r in Hdrop. apply Hdrop; try done.
  all: by intros k ?%elem_of_nil.
Qed.

End BuildFacts.

Section BuildClaim.
Context {cm : Js.CaseMapping} {pf : Path.Flavour}.

(** X6.  For an index with no two entries for a key or a path, and desired
    ids other than [__proto__], [buildNewIndex] applied to the computed
    plan returns an index whose keys are exactly the desired ids and in
    which every kept item still has its previous path; planning again from
    it gives nothing to create and nothing to remove.  (Unlike for the
    executor, array-index ids are no obstacle here.) *)
Theorem buildNewIndex_reaches_desired (items : list SyncItem)
    (currentIndex : SyncIndex) (mode : SyncMode) (targetDir : string) :
  NoDup (Obj.keys currentIndex) →
  NoDup (map snd currentIndex) →
  Forall (λ item, id item ≠ "__proto__") items →
  let newIndex :=
    buildNewIndex currentIndex
      (computeSyncPlan items currentIndex mode targetDir) in
  (∀ k, k ∈ Obj.keys newIndex ↔ k ∈ map id items)
  ∧ (∀ k p, k ∈ map id items → Obj.get k currentIndex = Some p →
            Obj.get k newIndex = Some p)
  ∧ toCreate (computeSyncPlan items newIndex mode targetDir) = []
  ∧ toRemove (computeSyncPlan items newIndex mode targetDir) = [].
Proof.
  intros Hkeys Hpaths Hproto. cbn zeta.
  rewrite buildNewIndex_computed by done.
  set (plan := computeSyncPlan items currentIndex mode targetDir).
  assert (map fst (toCreate plan)
          = filter (λ item, id item ∉ (list_to_set (Obj.keys currentIndex)
                                        : gset string)) items) as Hcs
    by apply planCreations_items.
  assert (∀ c, c ∈ toCreate plan →
               c.1 ∈ items ∧ id c.1 ∉ Obj.keys currentIndex) as Hcreated.
  { intros c Hc. assert (c.1 ∈ map fst (toCreate plan)) as Hc1.
    { apply list_elem_of_In, in_map. by apply list_elem_of_In. }
    rewrite Hcs in Hc1. apply list_elem_of_filter in Hc1 as [Hnot Hin].
    split; [done|]. by rewrite elem_of_list_to_set in Hnot. }
  assert (∀ k', k' ∈ map (λ c, id c.1) (toCreate plan)
                → k' ∈ map id items ∧ k' ∉ Obj.keys currentIndex) as Hids1.
  { intros k' (c & <- & Hin)%list_elem_of_In%in_map_iff.
    apply list_elem_of_In, Hcreated in Hin as [Hin Hnot].
    split; [|done]. apply list_elem_of_In, in_map. by apply list_elem_of_In. }
  assert (∀ k', k' ∈ map id items → k' ∉ Obj.keys currentIndex →
                k' ∈ map (λ c, id c.1) (toCreate plan)) as Hids2.
  { intros k' (item & <- & Hin)%list_elem_of_In%in_map_iff Hnot.
    rewrite <- (map_map fst id), Hcs.
    apply list_elem_of_In, in_map, list_elem_of_In, list_elem_of_filter.
    rewrite elem_of_list_to_set. split; [done|by apply list_elem_of_In]. }
  assert (∀ k, k ∈ Obj.keys
                 (fold_left addCreated (toCreate plan)
                    (keptEntries (list_to_set (map id items)) currentIndex))
               ↔ k ∈ map id items) as Hkeys'.
  { intros k. rewrite keys_addCreated_iff.
    - rewrite keys_keptEntries, elem_of_list_to_set. split.
      + intros [[_ ?]|Hk]; [done|]. by apply Hids1 in Hk as [? _].
      + intros Hk. destruct (decide (k ∈ Obj.keys currentIndex)); [by left|].
        right. by apply Hids2.
    - intros c [Hin _]%Hcreated.
      by apply (proj1 (Forall_forall _ _) Hproto). }
  split; [exact Hkeys'|]. split; [|split].
  - intros k p Hk Hget. rewrite get_addCreated_other.
    + rewrite get_keptEntries; [done|by apply elem_of_list_to_set].
    + intros [_ Hnot]%Hids1. apply get_None_keys in Hnot. congruence.
  - unfold computeSyncPlan at 1. cbn [toCreate]. apply planCreations_nil.
    intros item Hin. rewrite elem_of_list_to_set. apply Hkeys'.
    apply list_elem_of_In, in_map. by apply list_elem_of_In.
  - unfold computeSyncPlan at 1. cbn [toRemove]. apply planRemovals_nil.
    intros k Hk. rewrite elem_of_list_to_set. by apply Hkeys'.
Qed.

End BuildClaim.

Lemma buildNewIndex_reaches_desired_witness :
  let newIndex :=
    buildNewIndex index_5 (computeSyncPlan [item_3] index_5 EntryFile "/links") in
  newIndex = [("3", "/links/x.png")]
  ∧ toCreate (computeSyncPlan [item_3] newIndex EntryFile "/links") = [].
Proof.
  cbn zeta. split; [by vm_compute|].
  apply (buildNewIndex_reaches_desired [item_3] index_5 EntryFile "/links").
  - apply (bool_decide_unpack _). by vm_compute.
  - apply (bool_decide_unpack _). by vm_compute.
  - by repeat constructor.
Defined.

(** ** What a run can and cannot do to the index *)

Section SurvivalFacts.
Import Obj.

Lemma elem_of_update_other k p k' v (o : t) :
  (k, p) ∈ o → k ≠ k' → (k, p) ∈ update k' v o.
Proof.
  intros Hin Hne. induction o as [|[k1 v1] o IH]; [done|]. simpl.
  apply elem_of_cons in Hin as [[= <- <-]|Hin].
  - rewrite (proj2 (String.eqb_neq k k')) by done. by left.
  - destruct (String.eqb k1 k'); right; [done|by apply IH].
Qed.

Lemma elem_of_set_other k p k' v (o : t) :
  (k, p) ∈ o → k ≠ k' → (k, p) ∈ set k' v o.
Proof.
  intros Hin Hne. unfold set.
  destruct (has_key k' o); [by apply elem_of_update_other|].
  destruct (String.eqb k' "__proto__"); [done|].
  destruct (array_index k').
  - apply elem_of_place_index. by right.
  - apply elem_of_app. by left.
Qed.

Lemma elem_of_delete_other k p k' (o : t) :
  (k, p) ∈ o → k ≠ k' → (k, p) ∈ delete k' o.
Proof.
  intros Hin Hne. unfold delete. apply list_elem_of_In, filter_In.
  split; [by apply list_elem_of_In|]. simpl.
  by rewrite (proj2 (String.eqb_neq k k')).
Qed.

Lemma addCreated_keeps_entry (cs : list (SyncItem * string)) (o : t) k p :
  (k, p) ∈ o → (∀ q, (k, q) ∈ o → q = p) →
  k ∉ map (λ c, id c.1) cs →
  (k, p) ∈ fold_left addCreated cs o
  ∧ (∀ q, (k, q) ∈ fold_left addCreated cs o → q = p).
Proof.
  revert o. induction cs as [|c cs IH]; intros o Hin Huniq Hk; [done|].
  simpl in *. apply not_elem_of_cons in Hk as [Hne Hk].
  apply IH; [|  |done].
  - by apply elem_of_set_other.
  - intros q [Hq|[= Heq _]]%elem_of_set; [by apply Huniq|done].
Qed.

Lemma dropPaths_keeps_entry (rs : list string) (o : t) k p :
  (k, p) ∈ o → (∀ q, (k, q) ∈ o → q = p) → p ∉ rs →
  (k, p) ∈ dropPaths rs o.
Proof.
  revert o. induction rs as [|r rs IH]; intros o Hin Huniq Hp; [done|].
  apply not_elem_of_cons in Hp as [Hne Hp].
  unfold dropPaths. simpl. fold (dropPaths rs). apply IH; [| |done].
  - unfold dropPath. destruct (firstKeyWithPath r o) as [k'|] eqn:Hfirst; [|done].
    apply elem_of_delete_other; [done|]. intros <-.
    apply firstKeyWithPath_in, Huniq in Hfirst. congruence.
  - intros q Hq. apply Huniq. unfold dropPath in Hq.
    destruct (firstKeyWithPath r o); [by eapply elem_of_delete|done].
Qed.

Lemma keys_dropPaths_sub (rs : list string) (o : t) k :
  k ∈ keys (dropPaths rs o) → k ∈ keys o.
Proof.
  revert o. induction rs as [|r rs IH]; intros o; [done|].
  unfold dropPaths. simpl. fold (dropPaths rs). intros Hk%IH.
  unfold dropPath in Hk. destruct (firstKeyWithPath r o); [|done].
  by eapply keys_delete_sub.
Qed.

Lemma keys_addCreated_sub (cs : list (SyncItem * string)) (o : t) k :
  k ∈ keys (fold_left addCreated cs o) →
  k ∈ keys o ∨ ∃ c, c ∈ cs ∧ id c.1 = k.
Proof.
  revert o. induction cs as [|c cs IH]; intros o; [by left|]. simpl.
  intros [Hk|(c' & Hc' & Hid)]%IH.
  - apply elem_of_keys in Hk as [v [Hin|[= -> _]]%elem_of_set].
    + left. apply elem_of_keys. eauto.
    + right. exists c. split; [by left|done].
  - right. exists c'. split; [by right|done].
Qed.

Lemma NoDup_keys_unique (o : t) k p q :
  NoDup (keys o) → (k, p) ∈ o → (k, q) ∈ o → q = p.
Proof.
  induction o as [|[k1 v1] o IH]; [by intros _ ?%elem_of_nil|].
  simpl. intros [Hnot Hnd]%NoDup_cons Hp Hq.
  apply elem_of_cons in Hp as [[= <- <-]|Hp];
    apply elem_of_cons in Hq as [[= ->]|Hq]; try done.
  - exfalso. apply Hnot, elem_of_keys. eauto.
  - exfalso. subst. apply Hnot, elem_of_keys. eauto.
  - by apply IH.
Qed.

End SurvivalFacts.

Lemma elem_of_createdEntries cs c :
  c ∈ createdEntries cs ↔ (c, Created) ∈ cs.
Proof.
  induction cs as [|[c' o] cs IH]; simpl.
  - by rewrite !elem_of_nil.
  - destruct o; rewrite ?elem_of_cons, IH; split.
    + intros [->|?]; [by left|by right].
    + intros [[= ->]|?]; [by left|by right].
    + intros ?. by right.
    + by intros [?|?].
    + intros ?. by right.
    + by intros [?|?].
Qed.

Lemma countCreation_missing_entry_dir {pf : Path.Flavour} {W : Type}
    `{FileSystem W}
    (options : ExecuteOptions) (cs : list (SyncItem * string)) (w : W) :
  countCreation SourceMissing (creationTrace EntryDir options cs w).1 = 0.
Proof.
  revert w. induction cs as [|c cs IH]; intros w; [done|]. simpl.
  destruct (createEntrySymlink _ _ _ _ w) as [[[]|e] w1];
    specialize (IH w1); destruct (creationTrace EntryDir options cs w1);
    simpl in *; by rewrite countCreation_cons.
Qed.

Section RunProperties.
Context {cm : Js.CaseMapping} {pf : Path.Flavour} {W : Type} `{FileSystem W}.

(** X7.  When every desired item is indexed and every index entry is
    desired, running the computed plan makes no filesystem call at all: the
    world is left as it is, the counts are zero and the index is returned
    unchanged. *)
Theorem steady_state_noop (items : list SyncItem) (currentIndex : SyncIndex)
    (mode : SyncMode) (targetDir : string) (options : ExecuteOptions) (w : W) :
  (∀ item, item ∈ items → id item ∈ Obj.keys currentIndex) →
  (∀ k, k ∈ Obj.keys currentIndex → k ∈ map id items) →
  executePlan (computeSyncPlan items currentIndex mode targetDir) mode
    currentIndex options w
  = ({| created := 0; removed := 0; skipped := 0;
        newIndex := currentIndex; errors := [] |}, w).
Proof.
  intros Hitems Hkeys.
  assert (computeSyncPlan items currentIndex mode targetDir = mkPlan [] [] [])
    as ->.
  { unfold computeSyncPlan. f_equal.
    - apply planCreations_nil. intros item Hin.
      rewrite elem_of_list_to_set. by apply Hitems.
    - apply planRemovals_nil. intros k Hk.
      rewrite elem_of_list_to_set. by apply Hkeys. }
  by destruct mode.
Qed.

(** X8.  Whatever the filesystem does, a run removes at most the planned
    removals, creates at most the planned creations, skips at most the
    planned creations on top of the plan's own skipped entries, and reports
    at most one error per planned entry; in entry-directory mode nothing is
    ever skipped, because that executor does not probe the source. *)
Theorem run_is_bounded_by_plan (plan : SyncPlan) (mode : SyncMode)
    (currentIndex : SyncIndex) (options : ExecuteOptions) (w : W) :
  let r := (executePlan plan mode currentIndex options w).1 in
  removed r ≤ length (toRemove plan)
  ∧ created r ≤ length (toCreate plan)
  ∧ skipped r ≤ length (plan_skipped plan) + length (toCreate plan)
  ∧ length (errors r) ≤ length (toRemove plan) + length (toCreate plan)
  ∧ skipped (executePlan plan EntryDir currentIndex options w).1
    = length (plan_skipped plan).
Proof.
  cbn zeta. rewrite !executePlan_trace. unfold runTrace.
  pose proof (removalTrace_paths (toRemove plan) w) as Hp.
  destruct (removalTrace (toRemove plan) w) as [rs w1].
  pose proof (creationTrace_entries mode options (toCreate plan) w1) as Hc.
  pose proof (countCreation_missing_entry_dir options (toCreate plan) w1) as Hdir.
  set (cs := (creationTrace mode options (toCreate plan) w1).1) in *.
  cbn [fst snd created removed skipped newIndex errors] in *.
  pose proof (removal_outcomes_total rs).
  pose proof (creation_outcomes_total cs).
  rewrite Hdir, <- Hp, <- Hc, !length_map, length_app.
  repeat split; lia.
Qed.

(** X9.  An index entry whose path is not planned for removal, and whose
    id is not the id of a planned creation, is still in the index returned
    by the run, whatever succeeds or fails. *)
Theorem untargeted_entry_survives (plan : SyncPlan) (mode : SyncMode)
    (currentIndex : SyncIndex) (options : ExecuteOptions) (w : W)
    (k p : string) :
  NoDup (Obj.keys currentIndex) →
  (k, p) ∈ currentIndex →
  p ∉ toRemove plan →
  k ∉ map (λ c, id c.1) (toCreate plan) →
  (k, p) ∈ newIndex (executePlan plan mode currentIndex options w).1.
Proof.
  intros Hnd Hin Hp Hk. rewrite executePlan_trace. unfold runTrace.
  destruct (removalTrace (toRemove plan) w) as [rs w1].
  pose proof (creationTrace_entries mode options (toCreate plan) w1) as Hc.
  set (cs := (creationTrace mode options (toCreate plan) w1).1) in *.
  cbn [newIndex].
  assert (k ∉ map (λ c, id c.1) (createdEntries cs)) as Hk'.
  { intros (c & <- & Hc')%list_elem_of_In%in_map_iff. apply Hk.
    apply list_elem_of_In, elem_of_createdEntries in Hc'.
    rewrite <- Hc, map_map. apply list_elem_of_In, in_map_iff.
    exists (c, Created). split; [done|by apply list_elem_of_In]. }
  destruct (addCreated_keeps_entry (createdEntries cs) currentIndex k p)
    as [Hin' Huniq']; [done| |done|].
  { intros q Hq. by eapply NoDup_keys_unique. }
  by apply dropPaths_keeps_entry.
Qed.

(** X10.  Every key of the returned index is a key of the previous index
    or the id of an entry that was created in this run: an item that was
    skipped, or whose creation failed, and that was not indexed before, is
    not indexed afterwards. *)
Theorem newIndex_keys_origin (plan : SyncPlan) (mode : SyncMode)
    (currentIndex : SyncIndex) (options : ExecuteOptions) (w : W)
    (k : string) :
  k ∈ Obj.keys (newIndex (executePlan plan mode currentIndex options w).1) →
  k ∈ Obj.keys currentIndex
  ∨ ∃ c, (c, Created) ∈ (runTrace plan mode options w).2 ∧ id c.1 = k.
Proof.
  rewrite executePlan_trace. unfold runTrace.
  destruct (removalTrace (toRemove plan) w) as [rs w1].
  cbn [fst snd newIndex].
  intros [Hk|(c & Hc & Hid)]%keys_dropPaths_sub%keys_addCreated_sub;
    [by left|right].
  exists c. split; [by apply elem_of_createdEntries|done].
Qed.

End RunProperties.

Lemma steady_state_noop_witness :
  executePlan (computeSyncPlan [item_x_A] [("AAAAAAAA1111", "/links/x.png")]
                 Copy "/links")
    Copy [("AAAAAAAA1111", "/links/x.png")] no_options disk_locked
  = ({| created := 0; removed := 0; skipped := 0;
        newIndex := [("AAAAAAAA1111", "/links/x.png")]; errors := [] |},
     disk_locked).
Proof.
  apply (steady_state_noop [item_x_A] [("AAAAAAAA1111", "/links/x.png")]
           Copy "/links" no_options disk_locked).
  - intros item ->%list_elem_of_singleton. by left.
  - intros k ->%list_elem_of_singleton. by left.
Defined.

Lemma untargeted_entry_survives_witness :
  ("AAAAAAAA1111", "/links/x.png")
  ∈ newIndex (executePlan (mkPlan [(item_x_B, "/links/b.png")]
                             ["/links/old.png"] [])
                EntryFile index_two no_options disk_locked).1.
Proof.
  apply (untargeted_entry_survives
           (mkPlan [(item_x_B, "/links/b.png")] ["/links/old.png"] [])
           EntryFile index_two no_options disk_locked).
  - apply (bool_decide_unpack _). by vm_compute.
  - by left.
  - apply (bool_decide_unpack _). by vm_compute.
  - apply (bool_decide_unpack _). by vm_compute.
Defined.

Lemma newIndex_keys_origin_witness :
  "BBBBBBBB2222" ∈ Obj.keys index_two
  ∨ ∃ c, (c, Created)
         ∈ (runTrace (mkPlan [(item_x_B, "/links/b.png")] [] []) EntryFile
              no_options disk_sources).2
         ∧ id c.1 = "BBBBBBBB2222".
Proof.
  apply (newIndex_keys_origin (mkPlan [(item_x_B, "/links/b.png")] [] [])
           EntryFile index_two no_options disk_sources "BBBBBBBB2222").
  apply (bool_decide_unpack _). by vm_compute.
Defined.

(** ** The [sync] callback *)

Section SyncProperties.
Context {cm : Js.CaseMapping} {pf : Path.Flavour}.
Context {Condition W : Type} `{FileSystem W} `{Host Condition W}.

(** X11.  [sync] does nothing at all - the view and the world are
    returned as they are - when there is no configuration, when the target
    path is empty, or when a run is already in progress; in every other
    case it ends with the running flag cleared and the status "success" or
    "error", never "syncing". *)
Theorem sync_guard_and_release (config : option (Cfg.t Condition))
    (st : HookState) (w : W) :
  (config = None → sync config st w = ((st, []), w))
  ∧ (∀ c, config = Some c → Cfg.targetPath c = "" →
       sync config st w = ((st, []), w))
  ∧ (∀ c, config = Some c → isRunning st = true →
       sync config st w = ((st, []), w))
  ∧ (∀ c, config = Some c → Cfg.targetPath c ≠ "" → isRunning st = false →
       isRunning (sync config st w).1.1 = false
       ∧ (status (sync config st w).1.1 = Success
          ∨ status (sync config st w).1.1 = Failed)).
Proof.
  split; [by intros ->|].
  split; [intros c -> Hempty; unfold sync; by rewrite Hempty|].
  split; [intros c -> Hrun; unfold sync; by rewrite Hrun, orb_true_r|].
  intros c -> Hpath Hrun. unfold sync.
  rewrite (proj2 (String.eqb_neq _ _) Hpath), Hrun. simpl.
  set (started := mkHook Syncing _ _ _ true).
  assert (status (syncTry c started w).1.1 = Success
          ∨ status (syncTry c started w).1.1 = Failed) as Hstatus.
  { unfold syncTry.
    destruct (ensureTargetDir _ w) as [[e|[]] w1]; [by right|].
    destruct (eagle_item_getAll w1) as [[err|allItems] w2]; [by right|].
    destruct (executePlan _ _ _ _ w2) as [result w3].
    destruct (onIndexUpdate (newIndex result) w3) as [[err|[]] w4]; [by right|].
    unfold syncReport. cbn [fst snd]. destruct (errors result); [by left|].
    by destruct (existsb _ _); right. }
  destruct (syncTry c started w) as [[st' dialogs] w']. by split.
Qed.

(** X12.  When the target directory cannot be created, [sync] stops there:
    nothing else is called (the world is the one [mkdir] left), the status
    is "error" with the message naming the directory, the statistics and
    the last-sync time are untouched, and no dialog is shown - not even
    when [mkdir] was refused for lack of permission, because the error that
    [ensureTargetDir] throws carries the refusal as its cause, not its
    code. *)
Theorem sync_target_dir_unavailable (config : Cfg.t Condition)
    (st : HookState) (w w1 : W) (refusal : JsError) :
  Cfg.targetPath config ≠ "" →
  isRunning st = false →
  fs_mkdir (Cfg.targetPath config) w = (Rejected refusal, w1) →
  sync (Some config) st w
  = (({| status := Failed;
         stats := stats st;
         view_lastSyncAt := view_lastSyncAt st;
         view_error := Some ("Failed to create target directory: "
                             +:+ Cfg.targetPath config);
         isRunning := false |}, []), w1).
Proof.
  intros Hpath Hrun Hmkdir. unfold sync.
  rewrite (proj2 (String.eqb_neq _ _) Hpath), Hrun. simpl.
  unfold syncTry, ensureTargetDir. by rewrite Hmkdir.
Qed.

(** X13.  When the run itself settles but the new index cannot be saved,
    the filesystem has been changed (the world is the one the run and the
    failed save left), yet the view shows an error with the message of the
    rejection and keeps its old statistics and last-sync time; the
    permission dialog is shown exactly when the rejection carries a
    permission code. *)
Theorem sync_index_not_saved (config : Cfg.t Condition) (st : HookState)
    (w w1 w2 w3 w4 : W) (allItems : list EagleItem) (result : SyncResult)
    (msg : string) (errorCode : option string) :
  Cfg.targetPath config ≠ "" →
  isRunning st = false →
  fs_mkdir (Cfg.targetPath config) w = (Resolved (), w1) →
  eagle_item_getAll w1 = (inr allItems, w2) →
  executePlan
    (computeSyncPlan (map toSyncItem (selectItems config allItems))
       (Cfg.syncIndex config) (Cfg.mode config) (Cfg.targetPath config))
    (Cfg.mode config) (Cfg.syncIndex config)
    {| libraryPath := eagle_library_path w2;
       dirLinkType := Some (Cfg.dirLinkType config) |} w2
  = (result, w3) →
  onIndexUpdate (newIndex result) w3 = (inl (ErrorObject msg errorCode), w4) →
  sync (Some config) st w
  = (({| status := Failed;
         stats := stats st;
         view_lastSyncAt := view_lastSyncAt st;
         view_error := Some msg;
         isRunning := false |},
      if isPermissionErrorValue (ErrorObject msg errorCode)
      then [PermissionRequired] else []), w4).
Proof.
  intros Hpath Hrun Hmkdir Hall Hrun' Hsave. unfold sync.
  rewrite (proj2 (String.eqb_neq _ _) Hpath), Hrun. simpl.
  unfold syncTry, ensureTargetDir. rewrite Hmkdir, Hall, Hrun', Hsave.
  reflexivity.
Qed.

(** X14.  When the run settles and the index is saved, the index handed
    to [onIndexUpdate] is the one the executor returned, the statistics are
    the executor's counts with the number of keys of that index as total,
    the last-sync time is read after the save, and the status is "success"
    exactly when the run reported no error - items skipped for a missing
    source do not make a run fail.  With errors, the permission text and
    dialog are used exactly when one of them is a permission error. *)
Theorem sync_reports_run (config : Cfg.t Condition) (st : HookState)
    (w w1 w2 w3 w4 : W) (allItems : list EagleItem) (result : SyncResult) :
  Cfg.targetPath config ≠ "" →
  isRunning st = false →
  fs_mkdir (Cfg.targetPath config) w = (Resolved (), w1) →
  eagle_item_getAll w1 = (inr allItems, w2) →
  executePlan
    (computeSyncPlan (map toSyncItem (selectItems config allItems))
       (Cfg.syncIndex config) (Cfg.mode config) (Cfg.targetPath config))
    (Cfg.mode config) (Cfg.syncIndex config)
    {| libraryPath := eagle_library_path w2;
       dirLinkType := Some (Cfg.dirLinkType config) |} w2
  = (result, w3) →
  onIndexUpdate (newIndex result) w3 = (inr (), w4) →
  let '((st', dialogs), w') := sync (Some config) st w in
  let permission :=
    existsb (λ e, isPermissionError (err_error e)) (errors result) in
  w' = w4
  ∧ isRunning st' = false
  ∧ stats st'
    = Some {| stats_created := created result;
              stats_removed := removed result;
              stats_skipped := skipped result;
              stats_total := length (Obj.keys (newIndex result));
              stats_errors := length (errors result) |}
  ∧ view_lastSyncAt st' = Some (date_now w4)
  ∧ (status st' = Success ↔ errors result = [])
  ∧ (status st' = Failed ↔ errors result ≠ [])
  ∧ (errors result = [] → view_error st' = None ∧ dialogs = [])
  ∧ (errors result ≠ [] → permission = true →
       view_error st' = Some permissionDeniedText
       ∧ dialogs = [PermissionRequired])
  ∧ (errors result ≠ [] → permission = false →
       view_error st'
       = Some (pretty (length (errors result)) +:+ " error(s) during sync")
       ∧ dialogs = []).
Proof.
  intros Hpath Hrun Hmkdir Hall Hrun' Hsave. unfold sync.
  rewrite (proj2 (String.eqb_neq _ _) Hpath), Hrun. simpl.
  unfold syncTry, ensureTargetDir. rewrite Hmkdir, Hall, Hrun', Hsave.
  unfold syncReport. destruct (errors result) as [|e es] eqn:Herrors.
  - cbn. repeat split; try done.
  - destruct (existsb _ (e :: es)) eqn:Hperm; cbn -[existsb];
      repeat split; try done; try congruence.
Qed.

End SyncProperties.

Lemma sync_guard_and_release_witness :
  sync (Some config_links) (mkHook Syncing None None None true) desk_ok
  = ((mkHook Syncing None None None true, []), desk_ok)
  ∧ isRunning (sync (Some config_links) hook_idle desk_ok).1.1 = false.
Proof.
  destruct (sync_guard_and_release (Some config_links)
              (mkHook Syncing None None None true) desk_ok)
    as (_ & _ & Hbusy & _).
  destruct (sync_guard_and_release (Some config_links) hook_idle desk_ok)
    as (_ & _ & _ & Hrun).
  split; [by apply (Hbusy config_links)|].
  by apply (Hrun config_links).
Defined.

Lemma sync_target_dir_unavailable_witness :
  sync (Some config_links) hook_idle desk_no_target
  = ((mkHook Failed None None
        (Some "Failed to create target directory: /links") false, []),
     desk_no_target).
Proof.
  apply (sync_target_dir_unavailable config_links hook_idle desk_no_target
           desk_no_target EPERM); [done|reflexivity|reflexivity].
Defined.

Lemma sync_index_not_saved_witness :
  (sync (Some config_links) hook_idle desk_no_save).1
  = (mkHook Failed None None (Some "cannot save") false, [PermissionRequired]).
Proof.
  pose proof (sync_index_not_saved config_links hook_idle desk_no_save
                _ _ _ _ [eagle_x_A; eagle_x_B] _ "cannot save" (Some "EACCES")
                ltac:(done) eq_refl eq_refl eq_refl eq_refl eq_refl) as Hrun.
  rewrite Hrun. reflexivity.
Defined.

Lemma sync_reports_run_witness :
  let '((st', dialogs), w') := sync (Some config_links) hook_idle desk_ok in
  status st' = Success
  ∧ stats st' = Some (mkStats 1 0 1 1 0)
  ∧ desk_saved w' = Some [("AAAAAAAA1111", "/links/x.png")].
Proof.
  pose proof (sync_reports_run config_links hook_idle desk_ok) as Hrun.
  specialize (Hrun _ _ _ _ [eagle_x_A; eagle_x_B] _
                ltac:(done) eq_refl eq_refl eq_refl eq_refl eq_refl).
  destruct (sync (Some config_links) hook_idle desk_ok) as [[st' dialogs] w'].
  destruct Hrun as (-> & _ & Hstats & _ & Hstatus & _).
  split; [by apply Hstatus|]. split; [exact Hstats|reflexivity].
Defined.
